(** * Macintosh GCR track codec

    A shallow embedding of [greaseweazle/codec/macintosh/mac_gcr.py]:
    the track configuration ([MacGCRTrackFormat]), the sector table
    ([MacGCR]) with its interleave map, the image adapter, the track
    decoder and encoder and the readback verifier.

    Python integers are [Z], byte strings are lists of [byte], a
    [bitarray] is a list of booleans (big-endian within a byte), floats
    are binary64 primitive floats.  A method of [MacGCR] is a
    computation over the object: it returns a result or a raised
    exception, the object as the call leaves it, and the lines it
    printed. *)

From Stdlib Require Import ZArith Strings.Byte Floats String HexadecimalString.
From Stdlib Require QArith Qround Qpower Lqa.
From stdpp Require Import list pretty.

Open Scope Z_scope.

(** ** Python values and exceptions *)

Definition bytes := list byte.
Definition bitarray := list bool.

(** [OutOfFuel] is not a Python exception: it marks a [while] loop of
    the model that used up its fuel; [init_total] shows it is never
    raised. *)
Inductive exn :=
| AssertionError | IndexError | ValueError | TypeError
| ZeroDivisionError | OverflowError
| Fatal (desc : string)
| OutOfFuel.

Inductive result (A : Type) :=
| Ok (a : A)
| Raise (e : exn).
Arguments Ok {A} a.
Arguments Raise {A} e.

#[global] Instance result_ret : MRet result := @Ok.
#[global] Instance result_bind : MBind result := λ A B f m,
  match m with Ok a => f a | Raise e => Raise e end.

Module Py.

(** [l[i]]: a negative index counts from the end. *)
Definition index {A} (l : list A) (i : Z) : result A :=
  let i' := if 0 <=? i then i else Z.of_nat (length l) + i in
  if 0 <=? i' then
    match l !! Z.to_nat i' with Some x => Ok x | None => Raise IndexError end
  else Raise IndexError.

(** [l[i] = x] *)
Definition setitem {A} (l : list A) (i : Z) (x : A) : result (list A) :=
  let i' := if 0 <=? i then i else Z.of_nat (length l) + i in
  if (0 <=? i') && (i' <? Z.of_nat (length l))
  then Ok (<[Z.to_nat i' := x]> l)
  else Raise IndexError.

(** [range(n)] *)
Definition range (n : Z) : list Z := Z.of_nat <$> seq 0 (Z.to_nat n).

(** [l[a:b]]: negative bounds count from the end, all are clamped. *)
Definition slice {A} (l : list A) (a b : Z) : list A :=
  let n := Z.of_nat (length l) in
  let clamp i := Z.max 0 (Z.min n (if i <? 0 then i + n else i)) in
  take (Z.to_nat (clamp b - clamp a)) (drop (Z.to_nat (clamp a)) l).

(** [a % b] (the result has the sign of [b], as [Z.modulo]). *)
Definition mod_ (a b : Z) : result Z :=
  if b =? 0 then Raise ZeroDivisionError else Ok (a mod b).

Definition byte_val (b : byte) : Z := Z.of_N (Byte.to_N b).

(** One element of [bytes([...])]. *)
Definition byte_of_int (z : Z) : result byte :=
  if (0 <=? z) && (z <? 256) then
    match Byte.of_N (Z.to_N z) with Some b => Ok b | None => Raise ValueError end
  else Raise ValueError.

(** [bytes([z1, ..., zn])] *)
Fixpoint bytes_of_ints (l : list Z) : result bytes :=
  match l with
  | [] => Ok []
  | z :: l' => b ← byte_of_int z; bs ← bytes_of_ints l'; Ok (b :: bs)
  end.

(** [bytes(n)], and [bytes([v] * n)] *)
Definition zeros (n : Z) : bytes := replicate (Z.to_nat n) x00.
Definition fill (v : byte) (n : Z) : bytes := replicate (Z.to_nat n) v.

(** [bs * n] *)
Definition repeat_bytes (bs : bytes) (n : nat) : bytes :=
  mjoin (replicate n bs).

(** [sum = 0; for x in bs: sum ^= x] *)
Definition xor_sum (bs : bytes) : Z :=
  fold_left (λ sum x, Z.lxor sum (byte_val x)) bs 0.

(** [int(x)] of a float: truncation towards zero. *)
Definition int_of_float (x : float) : result Z :=
  match Prim2SF x with
  | S754_zero _ => Ok 0
  | S754_finite s m e =>
      let mag := if 0 <=? e then Z.shiftl (Z.pos m) e
                 else Z.shiftr (Z.pos m) (- e) in
      Ok (if s then - mag else mag)
  | S754_infinity _ => Raise OverflowError
  | S754_nan => Raise ValueError
  end.

(** [float(z)] of an integer: round to nearest, ties to even. *)
Definition float_of_int (z : Z) : result float :=
  match binary_normalize prec emax z 0 false with
  | S754_infinity _ => Raise OverflowError
  | sf => Ok (SF2Prim sf)
  end.

(** [a / b] on floats *)
Definition truediv (a b : float) : result float :=
  if PrimFloat.eqb b 0%float then Raise ZeroDivisionError
  else Ok (PrimFloat.div a b).

(** The values a track option can carry. *)
Inductive value := Int (z : Z) | Float (f : float).

Definition int (v : value) : result Z :=
  match v with Int z => Ok z | Float f => int_of_float f end.
Definition float (v : value) : result PrimFloat.float :=
  match v with Int z => float_of_int z | Float f => Ok f end.

(** ['%x' % n] *)
Definition hex (n : Z) : string :=
  if n <? 0 then "-" +:+ NilZero.string_of_uint (N.to_hex_uint (Z.to_N (- n)))
  else NilZero.string_of_uint (N.to_hex_uint (Z.to_N n)).

End Py.

(** ** bitarray (big-endian) *)

Definition byte_bits (b : byte) : bitarray :=
  let '(b0, (b1, (b2, (b3, (b4, (b5, (b6, b7))))))) := Byte.to_bits b in
  [b7; b6; b5; b4; b3; b2; b1; b0].

(** The byte of the first eight bits, short input padded with zero bits. *)
Definition byte_of_bits (l : bitarray) : byte :=
  match l ++ replicate 8 false with
  | b7 :: b6 :: b5 :: b4 :: b3 :: b2 :: b1 :: b0 :: _ =>
      Byte.of_bits (b0, (b1, (b2, (b3, (b4, (b5, (b6, b7)))))))
  | _ => x00
  end.

(** [bitarray.frombytes] on an empty bitarray *)
Definition frombytes (bs : bytes) : bitarray := bs ≫= byte_bits.

Fixpoint tobytes_n (n : nat) (bits : bitarray) : bytes :=
  match n with
  | O => []
  | S n' => byte_of_bits (take 8 bits) :: tobytes_n n' (drop 8 bits)
  end.

(** [bitarray.tobytes]: the last byte is padded with zero bits. *)
Definition tobytes (bits : bitarray) : bytes :=
  tobytes_n ((length bits + 7) / 8)%nat bits.

Fixpoint is_prefix (pat bits : bitarray) : bool :=
  match pat, bits with
  | [], _ => true
  | p :: pat', b :: bits' => Bool.eqb p b && is_prefix pat' bits'
  | _ :: _, [] => false
  end.

Fixpoint search_from (offs : nat) (bits pat : bitarray) : list nat :=
  match bits with
  | [] => []
  | _ :: rest =>
      (if is_prefix pat bits then [offs] else []) ++ search_from (S offs) rest pat
  end.

(** [bitarray.search] and [bitarray.itersearch]: the start offsets of
    every occurrence of a (non-empty) pattern, ascending. *)
Definition search (bits pat : bitarray) : list Z :=
  Z.of_nat <$> search_from 0 bits pat.
Definition itersearch (bits pat : bitarray) : list Z := search bits pat.

(** ** Module constants *)

(** [1.1], as the nearest binary64 value *)
Definition default_revs : float := 0x1.199999999999ap+0%float.

Definition self_sync_bytes : bytes := [xff; x3f; xcf; xf3; xfc; xff].
Definition sector_sync_bytes : bytes := [xd5; xaa; x96].
Definition data_sync_bytes : bytes := [xd5; xaa; xad].

Definition sector_sync : bitarray := frombytes sector_sync_bytes.
Definition data_sync : bitarray := frombytes data_sync_bytes.

Definition seclen : Z := 524.
Definition enc_seclen : Z := 703.
Definition format_byte : Z := 0x22.

(** [b'-=[BAD SECTOR]=-' * 32] *)
Definition bad_sector : bytes :=
  Py.repeat_bytes
    [x2d; x3d; x5b; x42; x41; x44; x20; x53;
     x45; x43; x54; x4f; x52; x5d; x3d; x2d] 32.

(** ** External collaborators *)

(** The [optimised] extension module: the GCR byte codec and the
    per-sector checksum transform. *)
Class Optimised := {
  encode_mac_gcr : bytes → bytes;
  decode_mac_gcr : bytes → bytes;
  encode_mac_sector : bytes → bytes;
  decode_mac_sector : bytes → bytes * Z;
}.

(** [RawTrack(time_per_rev, clock, data, pll).get_all_data()]: the flux
    transcoder, from a flux capture to a bit sequence.  The optional
    [pll] argument of [decode_raw] is only handed to it and counts as
    part of the transcoder. *)
Class RawTrack := {
  Flux : Type;
  get_all_data : float → option float → Flux → bitarray;
}.

(** ** class MacGCRTrackFormat *)

Module MacGCRTrackFormat.

Record t := mk {
  secs : option Z;
  clock : option float;
  interleave : Z;
  finalised : bool;
}.

(** [1e-6], as the nearest binary64 value *)
Definition micro : float := 0x1.0c6f7a0b5ed8dp-20%float.

Definition __init__ (format_name : string) : t :=
  {| secs := None; clock := None; interleave := 1; finalised := false |}.

Definition add_param (self : t) (key : string) (val : Py.value) : result t :=
  if String.eqb key "secs" then
    val ← Py.int val;
    Ok {| secs := Some val; clock := clock self;
          interleave := interleave self; finalised := finalised self |}
  else if String.eqb key "clock" then
    val ← Py.float val;
    Ok {| secs := secs self; clock := Some (val * micro)%float;
          interleave := interleave self; finalised := finalised self |}
  else if String.eqb key "interleave" then
    val ← Py.int val;
    Ok {| secs := secs self; clock := clock self;
          interleave := val; finalised := finalised self |}
  else Raise (Fatal ("unrecognised track option " +:+ key)).

(** [error.check(pred, desc)] raises [error.Fatal(desc)] when [pred]
    is false. *)
Definition check (pred : bool) (desc : string) : result unit :=
  if pred then Ok () else Raise (Fatal desc).

Definition finalise (self : t) : result t :=
  if finalised self then Ok self
  else
    _ ← check (bool_decide (secs self ≠ None)) "number of sectors not specified";
    _ ← check (bool_decide (clock self ≠ None)) "clock period not specified";
    Ok {| secs := secs self; clock := clock self;
          interleave := interleave self; finalised := true |}.

End MacGCRTrackFormat.

(** ** class MacGCR *)

#[global] Instance byte_eq_decision : EqDecision byte := Byte.byte_eq_dec.

Module MacGCR.

(** [0.2], as the nearest binary64 value *)
Definition time_per_rev : float := 0x1.999999999999ap-3%float.

Record t := mk {
  cyl : Z;
  head : Z;
  config : MacGCRTrackFormat.t;
  nsec : Z;
  clock : option float;
  sector : list (option bytes);
  sec_map : list Z;
}.

(** *** Construction: the interleave map *)

(** [while sec_map[pos] != -1: pos = (pos + 1) % nsec] *)
Fixpoint next_free (fuel : nat) (sec_map : list Z) (nsec pos : Z) : result Z :=
  v ← Py.index sec_map pos;
  if negb (v =? -1) then
    match fuel with
    | O => Raise OutOfFuel
    | S fuel' =>
        pos ← Py.mod_ (pos + 1) nsec;
        next_free fuel' sec_map nsec pos
    end
  else Ok pos.

(** [for i in range(nsec): ...], over the remaining values of [i] *)
Fixpoint place (ids : list Z) (nsec interleave : Z)
    (sec_map : list Z) (pos : Z) : result (list Z * Z) :=
  match ids with
  | [] => Ok (sec_map, pos)
  | i :: ids' =>
      pos ← next_free (Z.to_nat nsec) sec_map nsec pos;
      sec_map ← Py.setitem sec_map pos i;
      pos ← Py.mod_ (pos + interleave) nsec;
      place ids' nsec interleave sec_map pos
  end.

Definition __init__ (cyl head : Z) (config : MacGCRTrackFormat.t) : result t :=
  match MacGCRTrackFormat.secs config with
  | None => Raise TypeError
  | Some nsec =>
      let sector := replicate (Z.to_nat nsec) None in
      let sec_map := replicate (Z.to_nat nsec) (-1) in
      '(sec_map, _) ← place (Py.range nsec) nsec
                         (MacGCRTrackFormat.interleave config) sec_map 0;
      Ok {| cyl := cyl; head := head; config := config; nsec := nsec;
            clock := MacGCRTrackFormat.clock config;
            sector := sector; sec_map := sec_map |}
  end.

(** *** Methods as computations over the object *)

Definition M (A : Type) : Type := t → result A * t * list string.

#[global] Instance M_ret : MRet M := λ A a self, (Ok a, self, []).
#[global] Instance M_bind : MBind M := λ A B f m self,
  match m self with
  | (Ok a, self', out) =>
      let '(r, self'', out') := f a self' in (r, self'', out ++ out')
  | (Raise e, self', out) => (Raise e, self', out)
  end.

Definition get : M t := λ self, (Ok self, self, []).

(** The object with [self.sector] replaced. *)
Definition with_sector (self : t) (l : list (option bytes)) : t :=
  {| cyl := cyl self; head := head self; config := config self;
     nsec := nsec self; clock := clock self;
     sector := l; sec_map := sec_map self |}.
Definition set_sector (l : list (option bytes)) : M unit := λ self,
  (Ok (), with_sector self l, []).
Definition raise {A} (e : exn) : M A := λ self, (Raise e, self, []).
Definition lift {A} (r : result A) : M A := λ self, (r, self, []).
Definition print (line : string) : M unit := λ self, (Ok (), self, [line]).

(** A method call on another object [obj]: its result and [obj] as
    the call leaves it. *)
Definition on {A} (obj : t) (m : M A) : M (A * t) := λ self,
  let '(r, obj', out) := m obj in
  (match r with Ok a => Ok (a, obj') | Raise e => Raise e end, self, out).

(** [for x in l: acc = body(x, acc)] *)
Fixpoint for_fold {A S} (l : list A) (acc : S) (body : A → S → M S) : M S :=
  match l with
  | [] => mret acc
  | x :: l' => acc ← body x acc; for_fold l' acc body
  end.

(** How one pass of a loop body ends: at its end or by [continue],
    or by [break]. *)
Inductive ctl := Next | Break.

Fixpoint for_each {A} (l : list A) (body : A → M ctl) : M unit :=
  match l with
  | [] => mret ()
  | x :: l' =>
      c ← body x;
      match c with Next => for_each l' body | Break => mret () end
  end.

Definition nr_missing : M Z :=
  self ← get;
  mret (Z.of_nat (length (filter (λ sec, sec = None) (sector self)))).

Definition summary_string : M string :=
  self ← get;
  let nsec := nsec self in
  nbad ← nr_missing;
  let s := "Macintosh GCR (" +:+ pretty (nsec - nbad) +:+ "/"
             +:+ pretty nsec +:+ " sectors)" in
  mret s.

Definition exists_ (sec_id : Z) : M bool :=
  self ← get;
  sec ← lift (Py.index (sector self) sec_id);
  mret (bool_decide (sec ≠ None)).

(** The [assert] is taken as enabled (the interpreter's default). *)
Definition add (sec_id : Z) (data : bytes) : M unit :=
  e ← exists_ sec_id;
  if (e : bool) then raise AssertionError
  else
    self ← get;
    l ← lift (Py.setitem (sector self) sec_id (Some data));
    set_sector l.

Definition has_sec (sec_id : Z) : M bool :=
  self ← get;
  sec ← lift (Py.index (sector self) sec_id);
  mret (bool_decide (sec ≠ None)).

Definition get_img_track : M bytes :=
  self ← get;
  for_fold (sector self) [] (λ sec tdat,
    mret (tdat ++ match sec with Some sec => drop 12 sec | None => bad_sector end)).

(** The padding also extends the caller's [bytearray] in place; that
    buffer is not part of the table and is left out. *)
Definition set_img_track (tdat : bytes) : M Z :=
  self ← get;
  let totsize := nsec self * 512 in
  let tdat := if Z.of_nat (length tdat) <? totsize
              then tdat ++ Py.zeros (totsize - Z.of_nat (length tdat))
              else tdat in
  _ ← for_each (Py.range (nsec self)) (λ sec,
        self ← get;
        l ← lift (Py.setitem (sector self) sec
                    (Some (Py.zeros 12 ++ Py.slice tdat (sec * 512) ((sec + 1) * 512))));
        _ ← set_sector l;
        mret Next);
  mret totsize.

(** [MasterTrack(bits, time_per_rev)] with the two attributes
    [raw_track] sets on it. *)
Record MasterTrack := {
  bits : bytes;
  mt_time_per_rev : float;
  verify : t;
  verify_revs : float;
}.

Section Codec.
Context `{Optimised} `{RawTrack}.

(** The body of the loop of [decode_raw], for one match [offs] of
    the sector sync. *)
Definition decode_sync (bits : bitarray) (offs : Z) : M ctl :=
  nm ← nr_missing;
  if nm =? 0 then mret Break
  else
    (* Decode header *)
    let offs := offs + 3 * 8 in
    let sec := tobytes (Py.slice bits offs (offs + 5 * 8)) in
    if negb (Z.of_nat (length sec) =? 5) then mret Next
    else
      let hdr := decode_mac_gcr sec in
      let sum := Py.xor_sum hdr in
      if negb (sum =? 0) then mret Next
      else
        match Py.byte_val <$> take 4 hdr with
        | [cyl; sec_id; side; fmt] =>
            self ← get;
            let cyl := Z.lor cyl (Z.shiftl (Z.land side 1) 6) in
            let side := Z.shiftr side 5 in
            _ ← (if negb (cyl =? MacGCR.cyl self)
                    || negb (side =? head self)
                    || (nsec self <=? sec_id)
                    || negb (fmt =? 0x22)
                 then print ("T" +:+ pretty (MacGCR.cyl self) +:+ "."
                             +:+ pretty (head self)
                             +:+ ": Ignoring unexpected sector C:"
                             +:+ pretty cyl +:+ " H:" +:+ pretty side
                             +:+ " R:" +:+ pretty sec_id
                             +:+ " F:0x" +:+ Py.hex fmt)
                 else mret ());
            (* Find data *)
            let offs := offs + 5 * 8 in
            let dat_offs := search (Py.slice bits offs (offs + 100 * 8)) data_sync in
            match dat_offs with
            | [dat_offs0] =>
                let offs := offs + dat_offs0 in
                (* Decode data *)
                let offs := offs + 4 * 8 in
                let sec := tobytes (Py.slice bits offs (offs + 703 * 8)) in
                if negb (Z.of_nat (length sec) =? 703) then mret Next
                else
                  let sec := decode_mac_gcr sec in
                  let '(sec, csum) := decode_mac_sector sec in
                  if negb (csum =? 0) then mret Next
                  else
                    _ ← add sec_id sec;
                    mret Next
            | _ => mret Next
            end
        | _ => raise ValueError
        end.

(** The method [flux] is [self.raw_track().flux(...)], the work of the
    transcoder on the track built below; it is not modelled. *)

Definition decode_raw (track : Flux) : M unit :=
  self ← get;
  let bits := get_all_data time_per_rev (clock self) track in
  for_each (itersearch bits sector_sync) (decode_sync bits).

(** The body of the loop of [raw_track]: what one sector appends
    to [t]. *)
Definition encode_sector (sec_id : Z) (t : bytes) : M bytes :=
  self ← get;
  sector ← lift (Py.index (sector self) sec_id);
  let data := match sector with
              | None => Py.zeros 12 ++ bad_sector
              | Some sector => sector
              end in
  let cyl := cyl self in
  let side := head self in
  let side := Z.lor (Z.shiftl side 5) (Z.shiftr cyl 6) in
  let cyl := Z.land cyl 0x3f in
  hdr ← lift (Py.bytes_of_ints [cyl; sec_id; side; 0x22]);
  let sum := Py.xor_sum hdr in
  let t := t ++ Py.repeat_bytes self_sync_bytes 6 in
  let t := t ++ sector_sync_bytes in
  sum ← lift (Py.bytes_of_ints [sum]);
  let t := t ++ encode_mac_gcr (hdr ++ sum) in
  let t := t ++ [xde; xaa; xff; xff] in
  let t := t ++ self_sync_bytes in
  let t := t ++ data_sync_bytes in
  sec_id ← lift (Py.bytes_of_ints [sec_id]);
  let t := t ++ encode_mac_gcr sec_id in
  let t := t ++ encode_mac_gcr (encode_mac_sector data) in
  let t := t ++ [xde; xaa; xff] in
  mret t.

Definition raw_track : M MasterTrack :=
  self ← get;
  (* Post-index track gap. *)
  let t := Py.fill x96 64 ++ Py.repeat_bytes self_sync_bytes 20 in
  t ← for_fold (sec_map self) t encode_sector;
  (* Add the pre-index gap. *)
  let t := t ++ Py.repeat_bytes [xff] 4 in
  clock ← match clock self with
          | Some clock => mret clock
          | None => raise TypeError
          end;
  revcells ← lift (Py.truediv time_per_rev clock);
  revcells ← lift (Py.int_of_float revcells);
  let tlen := Z.land revcells (Z.lnot 31) in
  let t := t ++ Py.fill x96 (tlen / 8 - Z.of_nat (length t)) in
  mret {| bits := t; mt_time_per_rev := time_per_rev;
          verify := self; verify_revs := default_revs |}.

Definition verify_track (flux : Flux) : M bool :=
  self ← get;
  readback_track ← lift (__init__ (cyl self) (head self) (config self));
  '(missing, readback_track) ← on readback_track nr_missing;
  if negb (missing =? 0) then mret false
  else mret (bool_decide (sector self = sector readback_track)).

End Codec.

End MacGCR.

(** [MacGCRTrackFormat.mk_track] *)
Definition mk_track (self : MacGCRTrackFormat.t) (cyl head : Z) : result MacGCR.t :=
  MacGCR.__init__ cyl head self.

(** ** A small stand-in for the external collaborators

    Used to run the codec on concrete tracks: the byte codec
    complements every byte, the sector transform appends the XOR of the
    524 sector bytes and pads to 703 bytes, and a flux capture is the
    bit sequence itself. *)

Module Toy.

Definition flip (b : byte) : byte :=
  let '(b0, (b1, (b2, (b3, (b4, (b5, (b6, b7))))))) := Byte.to_bits b in
  Byte.of_bits (negb b0, (negb b1, (negb b2, (negb b3,
               (negb b4, (negb b5, (negb b6, negb b7))))))).

Definition gcr (bs : bytes) : bytes := flip <$> bs.

Definition sector_encode (data : bytes) : bytes :=
  let data := take 524 (data ++ replicate 524 x00) in
  match Py.byte_of_int (Py.xor_sum data) with
  | Ok c => data ++ [c] ++ replicate 178 x00
  | Raise _ => data ++ replicate 179 x00
  end.

Definition sector_decode (enc : bytes) : bytes * Z :=
  (take 524 enc, Py.xor_sum (take 525 enc)).

#[export] Instance optimised : Optimised := {|
  encode_mac_gcr := gcr;
  decode_mac_gcr := gcr;
  encode_mac_sector := sector_encode;
  decode_mac_sector := sector_decode;
|}.

#[export] Instance raw_track_bits : RawTrack := {|
  Flux := bitarray;
  get_all_data := λ _ _ bits, bits;
|}.

(** [secs], [clock] in microseconds and [interleave], then [finalise]. *)
Definition format (secs : Z) (clock_us : float) (interleave : Z)
    : result MacGCRTrackFormat.t :=
  let c := MacGCRTrackFormat.__init__ "" in
  c ← MacGCRTrackFormat.add_param c "secs" (Py.Int secs);
  c ← MacGCRTrackFormat.add_param c "clock" (Py.Float clock_us);
  c ← MacGCRTrackFormat.add_param c "interleave" (Py.Int interleave);
  MacGCRTrackFormat.finalise c.

(** A table of [secs] sectors, filled from a linear image. *)
Definition table (secs interleave : Z) (img : bytes) : result MacGCR.t :=
  c ← format secs 2 interleave;
  t ← mk_track c 0 0;
  match MacGCR.set_img_track img t with
  | (Ok _, t, _) => Ok t
  | (Raise e, _, _) => Raise e
  end.

(** A bit sequence with the bit at [i] inverted. *)
Definition corrupt (i : nat) (bits : bitarray) : bitarray := alter negb i bits.

(** The bit sequence [raw_track] produces for such a table (empty if
    the encoding fails). *)
Definition track (secs interleave : Z) (img : bytes) : bitarray :=
  match table secs interleave img with
  | Ok t =>
      match MacGCR.raw_track t with
      | (Ok trk, _, _) => frombytes (MacGCR.bits trk)
      | (Raise _, _, _) => []
      end
  | Raise _ => []
  end.

(** The track of a one-sector table, and of a three-sector table with
    interleave 2. *)
Definition track1 : bitarray := track 1 1 [x01].
Definition track3 : bitarray := track 3 2 [x01].

End Toy.

(** * Vocabulary of the properties *)

(** Every physical position holds a logical id, and every logical id
    sits at exactly one physical position. *)
Definition bijection_on (nsec : Z) (sec_map : list Z) : Prop :=
  length sec_map = Z.to_nat nsec
  ∧ (∀ pos, 0 ≤ pos < nsec →
       ∃ id, 0 ≤ id < nsec ∧ sec_map !! Z.to_nat pos = Some id)
  ∧ (∀ id, 0 ≤ id < nsec →
       ∃ pos, 0 ≤ pos < nsec ∧ sec_map !! Z.to_nat pos = Some id
              ∧ ∀ pos', 0 ≤ pos' →
                  sec_map !! Z.to_nat pos' = Some id → pos' = pos).

(** A configuration with [secs] and [clock] set through [add_param] on
    which [finalise] has not been called. *)
Definition unfinalised_format : result MacGCRTrackFormat.t :=
  c ← MacGCRTrackFormat.add_param (MacGCRTrackFormat.__init__ "mac.800")
        "secs" (Py.Int 12);
  MacGCRTrackFormat.add_param c "clock" (Py.Float 2%float).

(** The table has one slot per sector of its configuration. *)
Definition table_shape (s : MacGCR.t) : Prop :=
  length (MacGCR.sector s) = Z.to_nat (MacGCR.nsec s).

(** What [set_img_track] stores in slot [sec]. *)
Definition img_sector (tdat : bytes) (sec : Z) : bytes :=
  Py.zeros 12 ++ Py.slice tdat (sec * 512) ((sec + 1) * 512).

(** The image as [set_img_track] pads it. *)
Definition img_padded (nsec : Z) (tdat : bytes) : bytes :=
  if Z.of_nat (length tdat) <? nsec * 512
  then tdat ++ Py.zeros (nsec * 512 - Z.of_nat (length tdat))
  else tdat.

(** A call that leaves the object as it found it and prints nothing. *)
Definition quiet {A} (m : MacGCR.M A) : Prop :=
  ∀ s, ∃ r, m s = (r, s, []).

(** The object after [n] calls of [m] in a row. *)
Fixpoint after {A} (n : nat) (m : MacGCR.M A) (s : MacGCR.t) : MacGCR.t :=
  match n with
  | O => s
  | S n' => after n' m (m s).1.2
  end.

(** [int(time_per_rev / clock)]: the bit cells of one revolution. *)
Definition revolution_cells (clock : float) : result Z :=
  q ← Py.truediv MacGCR.time_per_rev clock;
  Py.int_of_float q.

(** The post-index gap [raw_track] starts from. *)
Definition post_index_gap : bytes :=
  Py.fill x96 64 ++ Py.repeat_bytes self_sync_bytes 20.

(** The bytes of a track before [raw_track] pads them: the post-index
    gap, the sectors in physical order, the four [0xff] bytes. *)
Definition track_content `{Optimised} (s : MacGCR.t) : result bytes :=
  match MacGCR.for_fold (MacGCR.sec_map s) post_index_gap
          MacGCR.encode_sector s with
  | (Ok t, _, _) => Ok (t ++ Py.repeat_bytes [xff] 4)
  | (Raise e, _, _) => Raise e
  end.

(** What [decode_sync] reads at a sector sync found at bit [offs]: the
    five encoded header bytes, the window searched for the data sync,
    and the 703 encoded data bytes when the data sync is at [dat_offs]
    in the window. *)
Definition header_bytes (bits : bitarray) (offs : Z) : bytes :=
  tobytes (Py.slice bits (offs + 3 * 8) (offs + 3 * 8 + 5 * 8)).

Definition data_window (bits : bitarray) (offs : Z) : bitarray :=
  Py.slice bits (offs + 3 * 8 + 5 * 8) (offs + 3 * 8 + 5 * 8 + 100 * 8).

Definition data_bytes (bits : bitarray) (offs dat_offs : Z) : bytes :=
  tobytes (Py.slice bits (offs + 3 * 8 + 5 * 8 + dat_offs + 4 * 8)
             (offs + 3 * 8 + 5 * 8 + dat_offs + 4 * 8 + 703 * 8)).

(** The line [decode_sync] prints for an unexpected sector. *)
Definition diagnostic (s : MacGCR.t) (cyl side sec_id fmt : Z) : string :=
  "T" +:+ pretty (MacGCR.cyl s) +:+ "." +:+ pretty (MacGCR.head s)
  +:+ ": Ignoring unexpected sector C:" +:+ pretty cyl
  +:+ " H:" +:+ pretty side +:+ " R:" +:+ pretty sec_id
  +:+ " F:0x" +:+ Py.hex fmt.

(** The header identifies a sector the table does not expect. *)
Definition unexpected (s : MacGCR.t) (cyl side sec_id fmt : Z) : bool :=
  negb (cyl =? MacGCR.cyl s) || negb (side =? MacGCR.head s)
  || (MacGCR.nsec s <=? sec_id) || negb (fmt =? 0x22).

(** [s'] is [s] with some empty slots filled: no slot that holds a
    buffer has changed. *)
Definition extends (s s' : MacGCR.t) : Prop :=
  s' = MacGCR.with_sector s (MacGCR.sector s')
  ∧ length (MacGCR.sector s') = length (MacGCR.sector s)
  ∧ ∀ i b, MacGCR.sector s !! i = Some (Some b) →
           MacGCR.sector s' !! i = Some (Some b).

(** The number of empty slots, as [nr_missing] counts them. *)
Definition missing (s : MacGCR.t) : Z :=
  Z.of_nat (length (filter (λ sec, sec = None) (MacGCR.sector s))).

(** The header fields as [decode_sync] unpacks them. *)
Definition header_cyl (cyl side : Z) : Z := Z.lor cyl (Z.shiftl (Z.land side 1) 6).
Definition header_side (side : Z) : Z := Z.shiftr side 5.

(** The bytes [encode_sector] appends to the track for sector [sec_id]. *)
Definition sector_record `{Optimised} (s : MacGCR.t) (sec_id : Z) : result bytes :=
  sector ← Py.index (MacGCR.sector s) sec_id;
  let data := match sector with
              | None => Py.zeros 12 ++ bad_sector
              | Some sector => sector
              end in
  let side := Z.lor (Z.shiftl (MacGCR.head s) 5) (Z.shiftr (MacGCR.cyl s) 6) in
  let cyl := Z.land (MacGCR.cyl s) 0x3f in
  hdr ← Py.bytes_of_ints [cyl; sec_id; side; 0x22];
  sum ← Py.bytes_of_ints [Py.xor_sum hdr];
  sec_id ← Py.bytes_of_ints [sec_id];
  Ok (Py.repeat_bytes self_sync_bytes 6 ++ sector_sync_bytes
      ++ encode_mac_gcr (hdr ++ sum) ++ [xde; xaa; xff; xff]
      ++ self_sync_bytes ++ data_sync_bytes ++ encode_mac_gcr sec_id
      ++ encode_mac_gcr (encode_mac_sector data) ++ [xde; xaa; xff]).

(** The bit offset of the sector sync of the [k]-th sector laid on the
    track: a gap of 184 bytes, 764 bytes per sector, and 36 bytes of
    self-sync before the mark. *)
Definition sector_sync_offset (k : Z) : Z := 8 * (220 + 764 * k).

(** Every slot holds a buffer of 524 bytes. *)
Definition populated (l : list (option bytes)) : Prop :=
  Forall (λ sec, ∃ data : bytes, sec = Some data ∧ length data = 524%nat) l.

(** The slots [acc] after the sectors [ids] of the table [l] have been
    stored into them. *)
Definition store_from (l acc : list (option bytes)) (ids : list Z)
    : list (option bytes) :=
  foldl (λ acc id, <[Z.to_nat id := default None (l !! Z.to_nat id)]> acc)
        acc ids.

(** * Vocabulary of the further properties *)

(** What [get_img_track] writes for one slot. *)
Definition img_span (sec : option bytes) : bytes :=
  match sec with Some sec => drop 12 sec | None => bad_sector end.

(** Every buffer in the table has the 524 bytes of a sector. *)
Definition whole_sectors (l : list (option bytes)) : Prop :=
  Forall (λ sec, ∀ data : bytes, sec = Some data → length data = 524%nat) l.

(** The configurations the methods of [MacGCRTrackFormat] can produce
    from a new one. *)
Inductive configured : MacGCRTrackFormat.t → Prop :=
| configured_init (format_name : string) :
    configured (MacGCRTrackFormat.__init__ format_name)
| configured_add_param (c c' : MacGCRTrackFormat.t) (key : string)
    (val : Py.value) :
    configured c → MacGCRTrackFormat.add_param c key val = Ok c' →
    configured c'
| configured_finalise (c c' : MacGCRTrackFormat.t) :
    configured c → MacGCRTrackFormat.finalise c = Ok c' → configured c'.

(** The slot a sector of the source table is read back into: the
    encoder writes the filler for a missing sector, and the decoder
    cannot tell it from stored data. *)
Definition readback (sec : option bytes) : option bytes :=
  Some (match sec with
        | Some sector => sector
        | None => Py.zeros 12 ++ bad_sector
        end).

(** Two tables for the same track. *)
Definition same_address (s st : MacGCR.t) : Prop :=
  MacGCR.cyl st = MacGCR.cyl s ∧ MacGCR.head st = MacGCR.head s
  ∧ MacGCR.nsec st = MacGCR.nsec s.

(** ** Tables for the examples *)

(** A table of two empty slots, and one with a sector in the
    second. *)
Definition two_empty : MacGCR.t :=
  MacGCR.mk 0 0 (MacGCRTrackFormat.mk (Some 2) None 1 false) 2 None
    [None; None] [0; 1].
Definition second_only : MacGCR.t :=
  MacGCR.with_sector two_empty [None; Some (replicate 524 x01)].

(** A three-sector table for cylinder 40, side 1, with the second
    sector missing, and the same table with every sector there. *)
Definition gapped : result MacGCR.t :=
  c ← Toy.format 3 2 2;
  t ← mk_track c 40 1;
  match MacGCR.set_img_track [x01] t with
  | (Ok _, t, _) =>
      Ok (MacGCR.with_sector t (<[1%nat := None]> (MacGCR.sector t)))
  | (Raise e, _, _) => Raise e
  end.
Definition whole : result MacGCR.t :=
  c ← Toy.format 3 2 2;
  t ← mk_track c 40 1;
  match MacGCR.set_img_track [x01] t with
  | (Ok _, t, _) => Ok t
  | (Raise e, _, _) => Raise e
  end.

(** The bit sequence [raw_track] produces for the complete table of
    cylinder 40, side 1 (empty if the encoding fails). *)
Definition whole_track : bitarray :=
  match whole with
  | Ok t =>
      match MacGCR.raw_track (H:=Toy.optimised) t with
      | (Ok trk, _, _) => frombytes (MacGCR.bits trk)
      | (Raise _, _, _) => []
      end
  | Raise _ => []
  end.


(** ** The cells of a revolution, as the specification words them *)

(** [int()] of a float, on its specification. *)
Definition int_of_spec_float (x : spec_float) : result Z :=
  match x with
  | S754_zero _ => Ok 0
  | S754_finite s m e =>
      let mag := if 0 <=? e then Z.shiftl (Z.pos m) e
                 else Z.shiftr (Z.pos m) (- e) in
      Ok (if s then - mag else mag)
  | S754_infinity _ => Raise OverflowError
  | S754_nan => Raise ValueError
  end.

Section Nominal.
Import QArith Qround.
Local Open Scope Q_scope.

(** The rational number a finite binary64 float stands for (zero for
    the zeros, the infinities and NaN). *)
Definition float_value (x : float) : Q :=
  match Prim2SF x with
  | S754_finite s m e => inject_Z (cond_Zopp s (Z.pos m)) * 2 ^ e
  | _ => 0
  end.

(** [floor(rotation_period / bit_clock_seconds)]: the integer part of
    the exact quotient of the rotation period by the clock, both taken
    at the values their floats stand for. *)
Definition exact_cells (clock : float) : Z :=
  Qfloor (float_value MacGCR.time_per_rev / float_value clock).
End Nominal.
(** * Properties *)

(** ** Python list access at an index in range *)

Lemma index_Ok {A} (l : list A) (i : Z) (x : A) :
  0 ≤ i → l !! Z.to_nat i = Some x → Py.index l i = Ok x.
Proof.
  intros Hi Hl. unfold Py.index.
  destruct (Z.leb_spec 0 i); [|lia].
  destruct (Z.leb_spec 0 i); [|lia]. by rewrite Hl.
Qed.

Lemma index_Ok_inv {A} (l : list A) (i : Z) (x : A) :
  0 ≤ i → Py.index l i = Ok x → l !! Z.to_nat i = Some x.
Proof.
  intros Hi. unfold Py.index.
  destruct (Z.leb_spec 0 i); [|lia].
  destruct (Z.leb_spec 0 i); [|lia].
  destruct (l !! Z.to_nat i); congruence.
Qed.

Lemma index_ge {A} (l : list A) (i : Z) :
  Z.of_nat (length l) ≤ i → Py.index l i = Raise IndexError.
Proof.
  intros Hi. unfold Py.index.
  destruct (Z.leb_spec 0 i); [|lia].
  destruct (Z.leb_spec 0 i); [|lia].
  rewrite lookup_ge_None_2; [done | lia].
Qed.

Lemma setitem_Ok {A} (l : list A) (i : Z) (x : A) :
  0 ≤ i < Z.of_nat (length l) →
  Py.setitem l i x = Ok (<[Z.to_nat i := x]> l).
Proof.
  intros Hi. unfold Py.setitem.
  destruct (Z.leb_spec 0 i); [|lia].
  destruct (Z.leb_spec 0 i); [|lia].
  destruct (Z.ltb_spec i (Z.of_nat (length l))); [done | lia].
Qed.

Lemma mod_Ok (a b : Z) : b ≠ 0 → Py.mod_ a b = Ok (a mod b).
Proof. intros Hb. unfold Py.mod_. by destruct (Z.eqb_spec b 0). Qed.

Lemma range_length (n : Z) : length (Py.range n) = Z.to_nat n.
Proof. unfold Py.range. by rewrite length_fmap, length_seq. Qed.

Lemma range_lookup (n : Z) (i : nat) :
  (i < Z.to_nat n)%nat → Py.range n !! i = Some (Z.of_nat i).
Proof.
  intros Hi. unfold Py.range.
  by rewrite list_lookup_fmap, lookup_seq_lt.
Qed.

Lemma range_NoDup (n : Z) : NoDup (Py.range n).
Proof. apply NoDup_fmap_2; [apply _ | apply NoDup_seq]. Qed.

Lemma elem_of_range (n x : Z) : x ∈ Py.range n ↔ 0 ≤ x < n.
Proof.
  unfold Py.range. rewrite list_elem_of_fmap. split.
  - intros (k & -> & Hk). apply elem_of_seq in Hk. lia.
  - intros Hx. exists (Z.to_nat x). split; [lia|]. apply elem_of_seq. lia.
Qed.

(** ** The interleave map *)

Section Interleave.
Variables (nsec interleave : Z).
Hypothesis nsec_pos : 0 < nsec.

(** The scan for a free position stops, within [nsec] steps, at a
    position that holds [-1], as soon as there is one. *)
Lemma next_free_finds (m : list Z) (d fuel : nat) (pos : Z) :
  length m = Z.to_nat nsec →
  (d ≤ fuel)%nat → 0 ≤ pos < nsec →
  m !! Z.to_nat ((pos + Z.of_nat d) mod nsec) = Some (-1) →
  ∃ p, MacGCR.next_free fuel m nsec pos = Ok p
       ∧ 0 ≤ p < nsec ∧ m !! Z.to_nat p = Some (-1).
Proof.
  intros Hlen. revert fuel pos.
  induction d as [|d IH]; intros fuel pos Hfuel Hpos Hfree.
  - rewrite Z.add_0_r, Z.mod_small in Hfree by lia.
    exists pos. split; [|done].
    destruct fuel; simpl; by rewrite (index_Ok _ _ _ (proj1 Hpos) Hfree).
  - destruct (m !! Z.to_nat pos) as [v|] eqn:Hv.
    2: { apply lookup_ge_None in Hv. lia. }
    destruct fuel as [|fuel]; [lia|]. simpl.
    rewrite (index_Ok _ _ _ (proj1 Hpos) Hv). simpl.
    destruct (Z.eqb_spec v (-1)) as [->|Hne]; simpl.
    { exists pos. done. }
    rewrite mod_Ok by lia. simpl.
    apply IH; [lia | by apply Z.mod_pos_bound |].
    rewrite Zplus_mod_idemp_l.
    by replace (pos + 1 + Z.of_nat d) with (pos + Z.of_nat (S d)) by lia.
Qed.

Lemma next_free_Ok (m : list Z) (pos : Z) :
  length m = Z.to_nat nsec → 0 ≤ pos < nsec → -1 ∈ m →
  ∃ p, MacGCR.next_free (Z.to_nat nsec) m nsec pos = Ok p
       ∧ 0 ≤ p < nsec ∧ m !! Z.to_nat p = Some (-1).
Proof.
  intros Hlen Hpos [q Hq]%list_elem_of_lookup.
  pose proof (lookup_lt_Some _ _ _ Hq) as Hlt.
  pose proof (Z.mod_pos_bound (Z.of_nat q - pos) nsec nsec_pos) as Hd.
  apply (next_free_finds m (Z.to_nat ((Z.of_nat q - pos) mod nsec)));
    [done | lia | done |].
  rewrite Z2Nat.id by lia. rewrite Zplus_mod_idemp_r.
  replace (pos + (Z.of_nat q - pos)) with (Z.of_nat q) by lia.
  rewrite Z.mod_small by lia. by rewrite Nat2Z.id.
Qed.

(** After [i] passes of the loop the map holds the ids below [i]
    once each, and [-1] everywhere else. *)
Lemma place_spec (k i : nat) (m : list Z) (pos : Z) :
  (i + k)%nat = Z.to_nat nsec →
  length m = Z.to_nat nsec → 0 ≤ pos < nsec →
  m ≡ₚ (Z.of_nat <$> seq 0 i) ++ replicate k (-1) →
  ∃ m' pos',
    MacGCR.place (Z.of_nat <$> seq i k) nsec interleave m pos = Ok (m', pos')
    ∧ m' ≡ₚ Z.of_nat <$> seq 0 (i + k).
Proof.
  revert i m pos.
  induction k as [|k IH]; intros i m pos Hik Hlen Hpos Hperm.
  - exists m, pos. split; [done|].
    by rewrite Hperm, app_nil_r, Nat.add_0_r.
  - assert (-1 ∈ m) as Hin.
    { rewrite Hperm. apply elem_of_app. right. by left. }
    destruct (next_free_Ok m pos Hlen Hpos Hin) as (p & Hp & Hpr & Hfree).
    simpl. rewrite Hp. simpl.
    rewrite setitem_Ok by lia. simpl.
    rewrite mod_Ok by lia. simpl.
    replace (i + S k)%nat with (S i + k)%nat by lia.
    apply IH.
    + lia.
    + by rewrite length_insert.
    + by apply Z.mod_pos_bound.
    + rewrite insert_take_drop by lia.
      rewrite <- Permutation_middle, <- delete_take_drop.
      assert (-1 :: delete (Z.to_nat p) m
              ≡ₚ -1 :: ((Z.of_nat <$> seq 0 i) ++ replicate k (-1))) as Hdel.
      { rewrite <- (delete_Permutation _ _ _ Hfree), Hperm. simpl.
        by rewrite <- Permutation_middle. }
      apply Permutation_cons_inv in Hdel. rewrite Hdel.
      rewrite seq_S, fmap_app, <- app_assoc. simpl.
      by rewrite <- Permutation_middle.
Qed.

End Interleave.

(** Construction always returns: the [while] loop never runs out of
    fuel, and the interleave map is a rearrangement of [range(nsec)]. *)
Lemma init_total (cyl head : Z) (config : MacGCRTrackFormat.t) (nsec : Z) :
  MacGCRTrackFormat.secs config = Some nsec →
  ∃ sec_map,
    MacGCR.__init__ cyl head config =
      Ok {| MacGCR.cyl := cyl; MacGCR.head := head; MacGCR.config := config;
            MacGCR.nsec := nsec;
            MacGCR.clock := MacGCRTrackFormat.clock config;
            MacGCR.sector := replicate (Z.to_nat nsec) None;
            MacGCR.sec_map := sec_map |}
    ∧ sec_map ≡ₚ Py.range nsec.
Proof.
  intros Hsecs. unfold MacGCR.__init__. rewrite Hsecs.
  destruct (Z.lt_ge_cases 0 nsec) as [Hpos|Hle].
  - destruct (place_spec nsec (MacGCRTrackFormat.interleave config) Hpos
                (Z.to_nat nsec) 0 (replicate (Z.to_nat nsec) (-1)) 0)
      as (m' & pos' & Hplace & Hperm);
      [lia | by rewrite length_replicate | lia | done |].
    unfold Py.range. rewrite Hplace. simpl. by exists m'.
  - unfold Py.range. replace (Z.to_nat nsec) with 0%nat by lia.
    simpl. by exists [].
Qed.

Lemma mk_track_shape (config : MacGCRTrackFormat.t) (cyl head : Z) (t : MacGCR.t) :
  mk_track config cyl head = Ok t → table_shape t.
Proof.
  unfold mk_track. intros Hmk.
  destruct (MacGCRTrackFormat.secs config) as [nsec|] eqn:Hsecs.
  - destruct (init_total cyl head config nsec Hsecs) as (m & Hinit & _).
    rewrite Hinit in Hmk. injection Hmk as <-.
    unfold table_shape. simpl. by rewrite length_replicate.
  - unfold MacGCR.__init__ in Hmk. by rewrite Hsecs in Hmk.
Qed.

Lemma init_sec_map_eq (cyl head cyl' head' : Z)
    (config config' : MacGCRTrackFormat.t) (t t' : MacGCR.t) :
  MacGCRTrackFormat.secs config' = MacGCRTrackFormat.secs config →
  MacGCRTrackFormat.interleave config' = MacGCRTrackFormat.interleave config →
  MacGCR.__init__ cyl head config = Ok t →
  MacGCR.__init__ cyl' head' config' = Ok t' →
  MacGCR.sec_map t' = MacGCR.sec_map t.
Proof.
  unfold MacGCR.__init__. intros -> ->.
  destruct (MacGCRTrackFormat.secs config) as [n|]; [|done].
  destruct (MacGCR.place _ _ _ _ _) as [[m pos]|]; simpl; [|done].
  by intros [= <-] [= <-].
Qed.


Lemma Permutation_range_bijection (nsec : Z) (sec_map : list Z) :
  sec_map ≡ₚ Py.range nsec → bijection_on nsec sec_map.
Proof.
  intros Hperm.
  assert (length sec_map = Z.to_nat nsec) as Hlen
    by by rewrite Hperm, range_length.
  assert (NoDup sec_map) as Hnd by (rewrite Hperm; apply range_NoDup).
  split; [done|]. split.
  - intros pos Hpos.
    destruct (lookup_lt_is_Some_2 sec_map (Z.to_nat pos)) as [id Hid]; [lia|].
    exists id. split; [|done].
    apply elem_of_range. rewrite <- Hperm. by eapply list_elem_of_lookup_2.
  - intros id Hid.
    assert (id ∈ sec_map) as [q Hq]%list_elem_of_lookup
      by (rewrite Hperm; by apply elem_of_range).
    pose proof (lookup_lt_Some _ _ _ Hq).
    exists (Z.of_nat q). rewrite Nat2Z.id. split; [lia|]. split; [done|].
    intros pos' Hpos' Hq'.
    pose proof (NoDup_lookup _ _ _ _ Hnd Hq Hq'). lia.
Qed.

(** C5: for a positive sector count and a positive interleave stride,
    the interleave map built at construction is a bijection between the
    physical positions and the logical ids [0 .. nsec-1]; it is the same
    for every cylinder, head and configuration with that sector count
    and stride; and for 12 sectors with stride 2 it is
    [0,6,1,7,2,8,3,9,4,10,5,11]. *)
Theorem interleave_map_bijection (cyl head : Z)
    (config : MacGCRTrackFormat.t) (nsec : Z) :
  MacGCRTrackFormat.secs config = Some nsec →
  0 < nsec →
  0 < MacGCRTrackFormat.interleave config →
  ∃ t, mk_track config cyl head = Ok t
    ∧ bijection_on nsec (MacGCR.sec_map t)
    ∧ (∀ cyl' head' config',
         MacGCRTrackFormat.secs config' = Some nsec →
         MacGCRTrackFormat.interleave config'
           = MacGCRTrackFormat.interleave config →
         ∃ t', mk_track config' cyl' head' = Ok t'
               ∧ MacGCR.sec_map t' = MacGCR.sec_map t)
    ∧ (nsec = 12 → MacGCRTrackFormat.interleave config = 2 →
       MacGCR.sec_map t = [0; 6; 1; 7; 2; 8; 3; 9; 4; 10; 5; 11]).
Proof.
  intros Hsecs Hn Hil. unfold mk_track.
  destruct (init_total cyl head config nsec Hsecs) as (m & Hinit & Hperm).
  eexists. split; [exact Hinit|]. simpl.
  split; [by apply Permutation_range_bijection|]. split.
  - intros cyl' head' config' Hsecs' Hil'.
    destruct (init_total cyl' head' config' nsec Hsecs') as (m' & Hinit' & _).
    eexists. split; [exact Hinit'|].
    eapply (init_sec_map_eq _ _ _ _ _ _ _ _ _ Hil' Hinit Hinit').
  - intros -> Hil2. revert Hinit. unfold MacGCR.__init__.
    rewrite Hsecs, Hil2. vm_compute. congruence.
  Unshelve. congruence.
Qed.

Lemma interleave_map_bijection_witness :
  let config := MacGCRTrackFormat.mk (Some 12) None 2 false in
  MacGCRTrackFormat.secs config = Some 12
  ∧ 0 < 12
  ∧ 0 < MacGCRTrackFormat.interleave config
  ∧ ∃ t, mk_track config 3 1 = Ok t
      ∧ bijection_on 12 (MacGCR.sec_map t)
      ∧ MacGCR.sec_map t = [0; 6; 1; 7; 2; 8; 3; 9; 4; 10; 5; 11].
Proof.
  intros config.
  split; [reflexivity|]. split; [reflexivity|]. split; [reflexivity|].
  destruct (interleave_map_bijection 3 1 config 12 eq_refl eq_refl eq_refl)
    as (t & Hmk & Hbij & _ & Hmap).
  exists t. split; [exact Hmk|]. split; [exact Hbij|].
  exact (Hmap eq_refl eq_refl).
Defined.

(** ** Construction and the [finalised] flag *)


(** C4, as stated, fails: [mk_track] on a configuration that was never
    finalised returns a sector table. *)
Lemma mk_track_unfinalised_returns :
  ∃ config t,
    unfinalised_format = Ok config
    ∧ MacGCRTrackFormat.finalised config = false
    ∧ mk_track config 0 0 = Ok t.
Proof. do 2 eexists. split; [|split]; vm_compute; reflexivity. Qed.

(** C4, amended: [mk_track] does not read the [finalised] flag.  It
    returns a sector table exactly when [secs] has been assigned,
    finalised or not, and otherwise fails with the [TypeError] of the
    table construction; the configuration errors for a missing [secs]
    or [clock] are those of [finalise]. *)
Theorem mk_track_needs_secs_only (config : MacGCRTrackFormat.t) (cyl head : Z) :
  match MacGCRTrackFormat.secs config with
  | Some nsec =>
      ∃ t, mk_track config cyl head = Ok t
           ∧ MacGCR.nsec t = nsec ∧ MacGCR.config t = config
           ∧ MacGCR.cyl t = cyl ∧ MacGCR.head t = head
  | None => mk_track config cyl head = Raise TypeError
  end
  ∧ match MacGCRTrackFormat.finalise config with
    | Ok config' =>
        MacGCRTrackFormat.finalised config' = true
        ∧ (MacGCRTrackFormat.finalised config = true
           ∨ (MacGCRTrackFormat.secs config ≠ None
              ∧ MacGCRTrackFormat.clock config ≠ None))
    | Raise e =>
        MacGCRTrackFormat.finalised config = false
        ∧ ((MacGCRTrackFormat.secs config = None
            ∧ e = Fatal "number of sectors not specified")
           ∨ (MacGCRTrackFormat.clock config = None
              ∧ e = Fatal "clock period not specified"))
    end.
Proof.
  split.
  - destruct (MacGCRTrackFormat.secs config) as [nsec|] eqn:Hsecs.
    + destruct (init_total cyl head config nsec Hsecs) as (m & Hinit & _).
      eexists. split; [exact Hinit|]. done.
    + unfold mk_track, MacGCR.__init__. by rewrite Hsecs.
  - unfold MacGCRTrackFormat.finalise.
    destruct config as [[nsec|] [clock|] il [|]]; simpl; auto.
Qed.

(** ** Running a method *)

Section Run.
Import MacGCR.
Context {A B : Type}.
Implicit Types (f : A → M B) (s : t).

Lemma run_bind_Ok (m : M A) f s a s' out :
  m s = (Ok a, s', out) →
  (m ≫= f) s = let '(r, s'', out') := f a s' in (r, s'', out ++ out').
Proof. intros Hm. unfold mbind, M_bind. by rewrite Hm. Qed.

Lemma run_bind_Raise (m : M A) f s e s' out :
  m s = (Raise e, s', out) → (m ≫= f) s = (Raise e, s', out).
Proof. intros Hm. unfold mbind, M_bind. by rewrite Hm. Qed.

Lemma run_bind_silent (m : M A) f s a s' :
  m s = (Ok a, s', []) → (m ≫= f) s = f a s'.
Proof.
  intros Hm. rewrite (run_bind_Ok _ _ _ _ _ _ Hm).
  by destruct (f a s') as [[r s''] out'].
Qed.

Lemma run_bind_ret (a : A) f s : (mret a ≫= f) s = f a s.
Proof. by apply run_bind_silent. Qed.

Lemma run_bind_lift_Ok (a : A) f s : (lift (Ok a) ≫= f) s = f a s.
Proof. by apply run_bind_silent. Qed.

Lemma run_bind_lift_Raise e f s :
  (lift (Raise e) ≫= f) s = (Raise e, s, []).
Proof. done. Qed.

Lemma run_bind_raise e f s : (raise e ≫= f) s = (Raise e, s, []).
Proof. done. Qed.
End Run.

Lemma run_bind_get {B} (f : MacGCR.t → MacGCR.M B) s :
  (MacGCR.get ≫= f) s = f s s.
Proof. by apply run_bind_silent. Qed.

Lemma run_bind_set_sector {B} l (f : unit → MacGCR.M B) s :
  (MacGCR.set_sector l ≫= f) s = f () (MacGCR.with_sector s l).
Proof. by apply run_bind_silent. Qed.

Lemma run_bind_print {B} line (f : unit → MacGCR.M B) s :
  (MacGCR.print line ≫= f) s
  = let '(r, s', out) := f () s in (r, s', line :: out).
Proof. by rewrite (run_bind_Ok _ _ _ () s [line]). Qed.

(** ** The image adapter *)

Lemma with_sector_self (s : MacGCR.t) : MacGCR.with_sector s (MacGCR.sector s) = s.
Proof. by destruct s. Qed.

Lemma with_sector_twice (s : MacGCR.t) (l l' : list (option bytes)) :
  MacGCR.with_sector (MacGCR.with_sector s l) l' = MacGCR.with_sector s l'.
Proof. done. Qed.

Lemma slice_nonneg {A} (l : list A) (a b : Z) :
  0 ≤ a → a ≤ b →
  Py.slice l a b = take (Z.to_nat (b - a)) (drop (Z.to_nat a) l).
Proof.
  intros Ha Hab. unfold Py.slice.
  destruct (Z.ltb_spec a 0); [lia|]. destruct (Z.ltb_spec b 0); [lia|].
  destruct (Z.le_gt_cases (Z.of_nat (length l)) a) as [Hge|Hlt].
  - rewrite !drop_ge by lia. by rewrite !take_nil.
  - rewrite (Z.max_r 0 (Z.min _ a)), (Z.min_r _ a) by lia.
    destruct (Z.le_gt_cases b (Z.of_nat (length l))).
    + by rewrite (Z.max_r 0 (Z.min _ b)), (Z.min_r _ b) by lia.
    + rewrite (Z.max_r 0 (Z.min _ b)), (Z.min_l _ b) by lia.
      rewrite !take_ge; [done | |]; rewrite length_drop; lia.
Qed.

Section StoreAll.
Variable f : Z → option bytes.

Lemma store_all (k : nat) (l : list (option bytes)) :
  (k ≤ length l)%nat →
  foldl (λ l id, <[Z.to_nat id := f id]> l) l (Z.of_nat <$> seq 0 k)
  = (f <$> (Z.of_nat <$> seq 0 k)) ++ drop k l.
Proof.
  induction k as [|k IH]; intros Hk; [done|].
  rewrite seq_S, !fmap_app, foldl_app, IH by lia. simpl.
  rewrite Nat2Z.id, <- app_assoc. simpl.
  rewrite insert_app_r_alt; rewrite !length_fmap, length_seq; [|lia].
  rewrite Nat.sub_diag.
  destruct (drop k l) as [|x l'] eqn:Hd.
  { apply (f_equal length) in Hd. rewrite length_drop in Hd. simpl in Hd. lia. }
  simpl. do 2 f_equal.
  replace (S k) with (k + 1)%nat by lia.
  by rewrite <- drop_drop, Hd.
Qed.
End StoreAll.

Lemma chunks_join {A} (l : list A) (w n : nat) :
  mjoin ((λ k : nat, take w (drop (k * w) l)) <$> seq 0 n) = take (n * w) l.
Proof.
  induction n as [|n IH]; [done|].
  rewrite seq_S, fmap_app, join_app, IH. simpl.
  rewrite app_nil_r, take_take_drop. f_equal. lia.
Qed.

Lemma set_img_loop (f : Z → bytes) (ids : list Z) (s : MacGCR.t) :
  (∀ id, id ∈ ids → 0 ≤ id < Z.of_nat (length (MacGCR.sector s))) →
  MacGCR.for_each ids
    (λ sec, self ← MacGCR.get;
            l ← MacGCR.lift (Py.setitem (MacGCR.sector self) sec (Some (f sec)));
            _ ← MacGCR.set_sector l;
            mret MacGCR.Next) s
  = (Ok (),
     MacGCR.with_sector s
       (foldl (λ l id, <[Z.to_nat id := Some (f id)]> l) (MacGCR.sector s) ids),
     []).
Proof.
  revert s. induction ids as [|id ids IH]; intros s Hids.
  - simpl. by rewrite with_sector_self.
  - cbn [MacGCR.for_each].
    erewrite run_bind_silent.
    2: { rewrite run_bind_get, setitem_Ok by (apply Hids; left).
         by rewrite run_bind_lift_Ok, run_bind_set_sector. }
    rewrite IH; [done|].
    intros id' Hid'. simpl. rewrite length_insert. apply Hids. by right.
Qed.

Lemma nr_missing_run (s : MacGCR.t) :
  MacGCR.nr_missing s
  = (Ok (Z.of_nat (length (filter (λ sec, sec = None) (MacGCR.sector s)))), s, []).
Proof. done. Qed.

Lemma get_img_loop (l : list (option bytes)) (tdat : bytes) (s : MacGCR.t) :
  MacGCR.for_fold l tdat (λ sec tdat,
    mret (tdat ++ match sec with Some sec => drop 12 sec | None => bad_sector end)) s
  = (Ok (tdat ++ mjoin ((λ sec : option bytes,
        match sec with Some sec => drop 12 sec | None => bad_sector end) <$> l)),
     s, []).
Proof.
  revert tdat. induction l as [|sec l IH]; intros tdat; simpl.
  - by rewrite app_nil_r.
  - rewrite run_bind_ret, IH. by rewrite <- app_assoc.
Qed.

Lemma get_img_track_run (s : MacGCR.t) :
  MacGCR.get_img_track s
  = (Ok (mjoin ((λ sec : option bytes,
        match sec with Some sec => drop 12 sec | None => bad_sector end)
        <$> MacGCR.sector s)), s, []).
Proof. unfold MacGCR.get_img_track. by rewrite run_bind_get, get_img_loop. Qed.

Lemma set_img_track_run (tdat : bytes) (s : MacGCR.t) :
  table_shape s →
  MacGCR.set_img_track tdat s
  = (Ok (MacGCR.nsec s * 512),
     MacGCR.with_sector s
       ((λ sec, Some (img_sector (img_padded (MacGCR.nsec s) tdat) sec))
          <$> Py.range (MacGCR.nsec s)),
     []).
Proof.
  intros Hshape. unfold MacGCR.set_img_track.
  rewrite run_bind_get.
  erewrite run_bind_silent.
  2: { apply (set_img_loop (img_sector (img_padded (MacGCR.nsec s) tdat))).
       intros id Hid%elem_of_range. rewrite Hshape. lia. }
  unfold mret, MacGCR.M_ret. do 2 f_equal.
  unfold Py.range.
  rewrite (store_all (λ id, Some (img_sector _ id))) by (rewrite Hshape; lia).
  rewrite drop_ge by (rewrite Hshape; lia). by rewrite app_nil_r.
Qed.

Lemma img_padded_length (nsec : Z) (tdat : bytes) :
  Z.of_nat (length tdat) ≤ nsec * 512 →
  Z.of_nat (length (img_padded nsec tdat)) = nsec * 512.
Proof.
  intros Hle. unfold img_padded, Py.zeros.
  destruct (Z.ltb_spec (Z.of_nat (length tdat)) (nsec * 512)); [|lia].
  rewrite length_app, length_replicate. lia.
Qed.

Lemma img_sectors_join (nsec : Z) (tdat : bytes) :
  Z.of_nat (length tdat) = nsec * 512 →
  mjoin ((λ sec : option bytes,
            match sec with Some sec => drop 12 sec | None => bad_sector end)
         <$> ((λ sec, Some (img_sector tdat sec)) <$> Py.range nsec))
  = tdat.
Proof.
  intros Hlen. unfold Py.range. rewrite <- !list_fmap_compose.
  transitivity (take (Z.to_nat nsec * 512) tdat); [|apply take_ge; lia].
  rewrite <- (chunks_join tdat 512). f_equal. apply list_fmap_ext.
  intros _ k _. simpl. rewrite drop_0.
  rewrite slice_nonneg by lia. f_equal; [lia|]. f_equal. lia.
Qed.

(** C6: on a table with one slot per sector, [set_img_track] returns
    [nsec * 512] and leaves no slot missing; [get_img_track] then
    returns the image itself when it has exactly [nsec * 512] bytes, and
    the image followed by zero bytes up to [nsec * 512] when it is
    shorter. *)
Theorem import_export_roundtrip (s : MacGCR.t) (tdat : bytes) :
  table_shape s →
  ∃ s',
    MacGCR.set_img_track tdat s = (Ok (MacGCR.nsec s * 512), s', [])
    ∧ MacGCR.nr_missing s' = (Ok 0, s', [])
    ∧ (Z.of_nat (length tdat) = MacGCR.nsec s * 512 →
       MacGCR.get_img_track s' = (Ok tdat, s', []))
    ∧ (Z.of_nat (length tdat) < MacGCR.nsec s * 512 →
       MacGCR.get_img_track s'
       = (Ok (tdat ++ Py.zeros (MacGCR.nsec s * 512 - Z.of_nat (length tdat))),
          s', [])).
Proof.
  intros Hshape. eexists. split; [by apply set_img_track_run|].
  split; [|split].
  - rewrite nr_missing_run. simpl. do 3 f_equal.
    induction (Py.range (MacGCR.nsec s)) as [|x l IH]; [done|].
    simpl. rewrite filter_cons_False by done. exact IH.
  - intros Hlen. rewrite get_img_track_run. simpl.
    rewrite img_sectors_join.
    + unfold img_padded.
      by destruct (Z.ltb_spec (Z.of_nat (length tdat)) (MacGCR.nsec s * 512));
        [lia|].
    + apply img_padded_length. lia.
  - intros Hlen. rewrite get_img_track_run. simpl.
    rewrite img_sectors_join.
    + unfold img_padded.
      by destruct (Z.ltb_spec (Z.of_nat (length tdat)) (MacGCR.nsec s * 512));
        [|lia].
    + apply img_padded_length. lia.
Qed.

Lemma import_export_roundtrip_witness :
  ∃ config s,
    Toy.format 2 2 1 = Ok config
    ∧ mk_track config 0 0 = Ok s
    ∧ table_shape s
    ∧ ∃ s',
        MacGCR.set_img_track [x01; x02; x03] s = (Ok 1024, s', [])
        ∧ MacGCR.nr_missing s' = (Ok 0, s', [])
        ∧ MacGCR.get_img_track s'
          = (Ok ([x01; x02; x03] ++ Py.zeros 1021), s', []).
Proof.
  do 2 eexists. split; [vm_compute; reflexivity|].
  split; [vm_compute; reflexivity|]. split; [reflexivity|].
  match goal with
  | |- ∃ s', MacGCR.set_img_track ?tdat ?s = _ ∧ _ =>
      destruct (import_export_roundtrip s tdat eq_refl)
        as (s' & Hset & Hmiss & _ & Hshort)
  end.
  exists s'. split; [exact Hset|]. split; [exact Hmiss|].
  exact (Hshort eq_refl).
Defined.

(** ** Calls that only read the object *)

Lemma quiet_ret {A} (a : A) : quiet (mret a).
Proof. intros s. by eexists. Qed.

Lemma quiet_get : quiet MacGCR.get.
Proof. intros s. by eexists. Qed.

Lemma quiet_lift {A} (r : result A) : quiet (MacGCR.lift r).
Proof. intros s. by eexists. Qed.

Lemma quiet_raise {A} (e : exn) : quiet (MacGCR.raise (A:=A) e).
Proof. intros s. by eexists. Qed.

Lemma quiet_bind {A B} (m : MacGCR.M A) (f : A → MacGCR.M B) :
  quiet m → (∀ a, quiet (f a)) → quiet (m ≫= f).
Proof.
  intros Hm Hf s. destruct (Hm s) as [[a|e] Hr].
  - destruct (Hf a s) as [r Hfa]. exists r.
    by rewrite (run_bind_silent _ _ _ _ _ Hr).
  - exists (Raise e). by rewrite (run_bind_Raise _ _ _ _ _ _ Hr).
Qed.

Lemma quiet_on {A} (obj : MacGCR.t) (m : MacGCR.M A) :
  quiet m → quiet (MacGCR.on obj m).
Proof.
  intros Hm s. destruct (Hm obj) as [r Hr].
  unfold MacGCR.on. rewrite Hr. by eexists.
Qed.

Lemma quiet_for_fold {A S} (l : list A) (acc : S) (body : A → S → MacGCR.M S) :
  (∀ x acc, quiet (body x acc)) → quiet (MacGCR.for_fold l acc body).
Proof.
  intros Hbody. revert acc.
  induction l as [|x l IH]; intros acc; simpl.
  - apply quiet_ret.
  - apply quiet_bind; [apply Hbody | apply IH].
Qed.

Create HintDb quiet.
#[local] Hint Resolve quiet_ret quiet_get quiet_lift quiet_raise quiet_on : quiet.

(** Goes through a method body written with [get], [lift], [raise],
    [mret] and binds. *)
Ltac quiet_body :=
  repeat first
    [ progress eauto with quiet
    | apply quiet_bind; [|intros ?]
    | apply quiet_for_fold; intros ? ?
    | match goal with
      | |- quiet (match ?x with _ => _ end) => destruct x
      | |- quiet (let '(_, _) := ?x in _) => destruct x
      end ].

Lemma quiet_nr_missing : quiet MacGCR.nr_missing.
Proof. unfold MacGCR.nr_missing. quiet_body. Qed.

Lemma quiet_summary_string : quiet MacGCR.summary_string.
Proof. unfold MacGCR.summary_string, MacGCR.nr_missing. quiet_body. Qed.

Lemma quiet_has_sec (sec_id : Z) : quiet (MacGCR.has_sec sec_id).
Proof. unfold MacGCR.has_sec. quiet_body. Qed.

Lemma quiet_exists (sec_id : Z) : quiet (MacGCR.exists_ sec_id).
Proof. unfold MacGCR.exists_. quiet_body. Qed.

Lemma quiet_get_img_track : quiet MacGCR.get_img_track.
Proof. unfold MacGCR.get_img_track. quiet_body. Qed.

Section QuietCodec.
Context `{Optimised} `{RawTrack}.

Lemma quiet_encode_sector (sec_id : Z) (t : bytes) :
  quiet (MacGCR.encode_sector sec_id t).
Proof. unfold MacGCR.encode_sector. quiet_body. Qed.

Lemma quiet_raw_track : quiet MacGCR.raw_track.
Proof.
  unfold MacGCR.raw_track.
  apply quiet_bind; [apply quiet_get | intros self].
  apply quiet_bind.
  { apply quiet_for_fold. intros. apply quiet_encode_sector. }
  intros t. quiet_body.
Qed.

Lemma quiet_verify_track (flux : Flux) : quiet (MacGCR.verify_track flux).
Proof.
  unfold MacGCR.verify_track.
  apply quiet_bind; [apply quiet_get | intros self].
  apply quiet_bind; [apply quiet_lift | intros readback].
  apply quiet_bind; [apply quiet_on, quiet_nr_missing | intros [missing rb]].
  destruct (negb _); apply quiet_ret.
Qed.
End QuietCodec.

Lemma quiet_after {A} (m : MacGCR.M A) (n : nat) (s : MacGCR.t) :
  quiet m → after n m s = s.
Proof.
  intros Hm. revert s. induction n as [|n IH]; intros s; [done|].
  simpl. destruct (Hm s) as [r ->]. apply IH.
Qed.

(** C10: [summary_string], [nr_missing], [has_sec], [get_img_track]
    and [raw_track] return with the object exactly as they found it
    (every slot included) and print nothing, whether they return a
    value or raise; so after any number of exports and encodings the
    slots are the same and a further export or encoding gives the same
    result. *)
Theorem reads_leave_table_unchanged `{Optimised} (s : MacGCR.t) (sec_id : Z) :
  (∃ r, MacGCR.summary_string s = (r, s, []))
  ∧ (∃ r, MacGCR.nr_missing s = (r, s, []))
  ∧ (∃ r, MacGCR.has_sec sec_id s = (r, s, []))
  ∧ (∃ r, MacGCR.get_img_track s = (r, s, []))
  ∧ (∃ r, MacGCR.raw_track s = (r, s, []))
  ∧ ∀ n k : nat,
      let s' := after n MacGCR.raw_track (after k MacGCR.get_img_track s) in
      MacGCR.sector s' = MacGCR.sector s
      ∧ MacGCR.get_img_track s' = MacGCR.get_img_track s
      ∧ MacGCR.raw_track s' = MacGCR.raw_track s.
Proof.
  split; [apply quiet_summary_string|].
  split; [apply quiet_nr_missing|].
  split; [apply quiet_has_sec|].
  split; [apply quiet_get_img_track|].
  split; [apply quiet_raw_track|].
  intros n k.
  rewrite (quiet_after _ n) by apply quiet_raw_track.
  by rewrite (quiet_after _ k) by apply quiet_get_img_track.
Qed.

(** ** The track encoder *)

Lemma land_lnot_31 (n : Z) : Z.land n (Z.lnot 31) = 32 * (n / 32).
Proof.
  rewrite <- Z.ldiff_land.
  change 31 with (Z.ones 5).
  rewrite Z.ldiff_ones_r by lia.
  rewrite Z.shiftr_div_pow2, Z.shiftl_mul_pow2 by lia.
  change (2 ^ 5) with 32. lia.
Qed.

Lemma byte_bits_length (b : byte) : length (byte_bits b) = 8%nat.
Proof.
  unfold byte_bits.
  by destruct (Byte.to_bits b) as (b0 & b1 & b2 & b3 & b4 & b5 & b6 & b7).
Qed.

Lemma frombytes_length (bs : bytes) :
  Z.of_nat (length (frombytes bs)) = 8 * Z.of_nat (length bs).
Proof.
  induction bs as [|b bs IH]; [done|].
  change (frombytes (b :: bs)) with (byte_bits b ++ frombytes bs).
  rewrite length_app, byte_bits_length. simpl length. lia.
Qed.

Section Encoder.
Context `{Optimised}.

Lemma raw_track_run (s : MacGCR.t) :
  MacGCR.raw_track s
  = (content ← track_content s;
     clock ← match MacGCR.clock s with
             | Some clock => Ok clock
             | None => Raise TypeError
             end;
     cells ← revolution_cells clock;
     Ok {| MacGCR.bits :=
             content ++ Py.fill x96 (Z.land cells (Z.lnot 31) / 8
                                      - Z.of_nat (length content));
           MacGCR.mt_time_per_rev := MacGCR.time_per_rev;
           MacGCR.verify := s;
           MacGCR.verify_revs := default_revs |},
     s, []).
Proof.
  unfold MacGCR.raw_track, track_content. rewrite run_bind_get.
  fold post_index_gap.
  destruct (quiet_for_fold (MacGCR.sec_map s) post_index_gap
              MacGCR.encode_sector quiet_encode_sector s) as [[t|e] Ht].
  2: { rewrite (run_bind_Raise _ _ _ _ _ _ Ht). rewrite Ht. reflexivity. }
  rewrite (run_bind_silent _ _ _ _ _ Ht), Ht. simpl.
  destruct (MacGCR.clock s) as [clock|]; [|reflexivity].
  rewrite run_bind_ret. unfold revolution_cells. simpl.
  destruct (Py.truediv MacGCR.time_per_rev clock) as [q|e]; [|reflexivity].
  rewrite run_bind_lift_Ok. simpl.
  destruct (Py.int_of_float q) as [cells|e]; [|reflexivity].
  by rewrite run_bind_lift_Ok.
Qed.

Lemma raw_track_Ok_inv (s s' : MacGCR.t) (trk : MacGCR.MasterTrack) out :
  MacGCR.raw_track s = (Ok trk, s', out) →
  ∃ clock cells content,
    MacGCR.clock s = Some clock
    ∧ revolution_cells clock = Ok cells
    ∧ track_content s = Ok content
    ∧ MacGCR.bits trk
      = content ++ Py.fill x96 (32 * (cells / 32) / 8
                                 - Z.of_nat (length content))
    ∧ s' = s ∧ out = [].
Proof.
  rewrite raw_track_run. intros [= Hr <- <-].
  destruct (track_content s) as [content|]; [|done]. simpl in Hr.
  destruct (MacGCR.clock s) as [clock|]; [|done]. simpl in Hr.
  destruct (revolution_cells clock) as [cells|] eqn:Hcells; [|done].
  simpl in Hr. injection Hr as Hr. subst trk.
  exists clock, cells, content. simpl.
  by rewrite <- land_lnot_31.
Qed.

Lemma padded_length (content : bytes) (cells : Z) :
  8 * Z.of_nat (length content) ≤ 32 * (cells / 32) →
  Z.of_nat (length (frombytes
    (content ++ Py.fill x96 (32 * (cells / 32) / 8
                              - Z.of_nat (length content)))))
  = 32 * (cells / 32).
Proof.
  intros Hfit. rewrite frombytes_length, length_app.
  unfold Py.fill. rewrite length_replicate.
  replace (32 * (cells / 32) / 8) with (4 * (cells / 32)).
  2: { replace (32 * (cells / 32)) with (4 * (cells / 32) * 8) by lia.
       by rewrite Z.div_mul. }
  lia.
Qed.
End Encoder.

(** ** The readback verifier *)

Lemma filter_None_replicate (n : nat) :
  length (filter (λ sec : option bytes, sec = None) (replicate n None)) = n.
Proof.
  induction n as [|n IH]; [done|].
  cbn [replicate]. rewrite filter_cons_True by done. simpl. by rewrite IH.
Qed.

(** C2 fails on the code: [verify_track] never decodes the readback.
    It compares the source with a table it has just constructed, so
    for a table of one or more sectors it returns [False] whatever the
    flux is. *)
Theorem verify_track_ignores_readback `{RawTrack} (s : MacGCR.t)
    (flux : Flux) (nsec : Z) :
  MacGCRTrackFormat.secs (MacGCR.config s) = Some nsec →
  0 < nsec →
  MacGCR.verify_track flux s = (Ok false, s, []).
Proof.
  intros Hsecs Hpos. unfold MacGCR.verify_track.
  rewrite run_bind_get.
  destruct (init_total (MacGCR.cyl s) (MacGCR.head s) (MacGCR.config s) nsec Hsecs)
    as (m & -> & _).
  rewrite run_bind_lift_Ok.
  erewrite run_bind_silent.
  2: { unfold MacGCR.on. by rewrite nr_missing_run. }
  cbn [MacGCR.sector]. rewrite filter_None_replicate.
  destruct (Z.eqb_spec (Z.of_nat (Z.to_nat nsec)) 0); [lia|]. done.
Qed.

(** ** The track decoder *)

Lemma byte_val_range (b : byte) : 0 ≤ Py.byte_val b < 256.
Proof. unfold Py.byte_val. pose proof (Byte.to_N_bounded b). lia. Qed.

Lemma add_run (sec_id : Z) (data : bytes) (s : MacGCR.t) :
  MacGCR.add sec_id data s
  = match Py.index (MacGCR.sector s) sec_id with
    | Raise e => (Raise e, s, [])
    | Ok (Some _) => (Raise AssertionError, s, [])
    | Ok None =>
        match Py.setitem (MacGCR.sector s) sec_id (Some data) with
        | Ok l => (Ok (), MacGCR.with_sector s l, [])
        | Raise e => (Raise e, s, [])
        end
    end.
Proof.
  unfold MacGCR.add, MacGCR.exists_.
  destruct (Py.index (MacGCR.sector s) sec_id) as [[sec|]|e] eqn:Hidx.
  - erewrite run_bind_silent.
    2: { by rewrite run_bind_get, Hidx, run_bind_lift_Ok. }
    done.
  - erewrite run_bind_silent.
    2: { by rewrite run_bind_get, Hidx, run_bind_lift_Ok. }
    rewrite bool_decide_eq_false_2 by (intros Hne; by apply Hne).
    rewrite run_bind_get.
    destruct (Py.setitem _ _ _) as [l|e]; [|done].
    by rewrite run_bind_lift_Ok.
  - erewrite run_bind_Raise; [done|].
    by rewrite run_bind_get, Hidx.
Qed.

Section Decoder.
Context `{Optimised}.

Lemma decode_sync_run (bits : bitarray) (offs : Z) (s : MacGCR.t) :
  MacGCR.decode_sync bits offs s
  = if missing s =? 0 then (Ok MacGCR.Break, s, [])
    else if negb (Z.of_nat (length (header_bytes bits offs)) =? 5)
    then (Ok MacGCR.Next, s, [])
    else
      let hdr := decode_mac_gcr (header_bytes bits offs) in
      if negb (Py.xor_sum hdr =? 0) then (Ok MacGCR.Next, s, [])
      else
        match Py.byte_val <$> take 4 hdr with
        | [cyl; sec_id; side; fmt] =>
            let cyl := header_cyl cyl side in
            let side := header_side side in
            let out := if unexpected s cyl side sec_id fmt
                       then [diagnostic s cyl side sec_id fmt] else [] in
            match search (data_window bits offs) data_sync with
            | [dat_offs] =>
                let sec := data_bytes bits offs dat_offs in
                if negb (Z.of_nat (length sec) =? 703)
                then (Ok MacGCR.Next, s, out)
                else
                  let '(sec, csum) := decode_mac_sector (decode_mac_gcr sec) in
                  if negb (csum =? 0) then (Ok MacGCR.Next, s, out)
                  else
                    match MacGCR.add sec_id sec s with
                    | (Ok _, s', _) => (Ok MacGCR.Next, s', out)
                    | (Raise e, s', _) => (Raise e, s', out)
                    end
            | _ => (Ok MacGCR.Next, s, out)
            end
        | _ => (Raise ValueError, s, [])
        end.
Proof.
  unfold MacGCR.decode_sync.
  rewrite (run_bind_silent _ _ _ _ _ (nr_missing_run s)).
  fold (missing s). fold (header_bytes bits offs).
  destruct (missing s =? 0); [done|].
  destruct (negb (Z.of_nat (length (header_bytes bits offs)) =? 5)); [done|].
  cbv zeta.
  destruct (negb (Py.xor_sum (decode_mac_gcr (header_bytes bits offs)) =? 0));
    [done|].
  destruct (Py.byte_val <$> take 4 (decode_mac_gcr (header_bytes bits offs)))
    as [|cyl [|sec_id [|side [|fmt [|]]]]]; try done.
  rewrite run_bind_get.
  fold (header_cyl cyl side). fold (header_side side).
  fold (data_window bits offs).
  set (cyl' := header_cyl cyl side). set (side' := header_side side).
  change (negb (cyl' =? MacGCR.cyl s) || negb (side' =? MacGCR.head s)
          || (MacGCR.nsec s <=? sec_id) || negb (fmt =? 34))
    with (unexpected s cyl' side' sec_id fmt).
  assert (∀ (k : MacGCR.M MacGCR.ctl) r s' ,
    k s = (r, s', []) →
    ((if unexpected s cyl' side' sec_id fmt
      then MacGCR.print (diagnostic s cyl' side' sec_id fmt) else mret ())
     ≫= λ _, k) s
    = (r, s', if unexpected s cyl' side' sec_id fmt
              then [diagnostic s cyl' side' sec_id fmt] else [])) as Hdiag.
  { intros k r s' Hk. destruct (unexpected _ _ _ _ _).
    - by rewrite run_bind_print, Hk.
    - by rewrite run_bind_ret. }
  destruct (search (data_window bits offs) data_sync) as [|d [|]];
    try by apply Hdiag.
  fold (data_bytes bits offs d).
  destruct (negb (Z.of_nat (length (data_bytes bits offs d)) =? 703));
    [by apply Hdiag|].
  destruct (decode_mac_sector _) as [sec csum].
  destruct (negb (csum =? 0)); [by apply Hdiag|].
  rewrite add_run.
  destruct (Py.index (MacGCR.sector s) sec_id) as [[?|]|e] eqn:Hidx.
  - apply Hdiag. erewrite run_bind_Raise; [done|]. by rewrite add_run, Hidx.
  - destruct (Py.setitem _ _ _) as [l|e] eqn:Hset.
    + apply Hdiag. erewrite run_bind_silent; [done|].
      by rewrite add_run, Hidx, Hset.
    + apply Hdiag. erewrite run_bind_Raise; [done|].
      by rewrite add_run, Hidx, Hset.
  - apply Hdiag. erewrite run_bind_Raise; [done|]. by rewrite add_run, Hidx.
Qed.
End Decoder.

Lemma for_each_cons {A} (body : A → MacGCR.M MacGCR.ctl) (x : A) (l : list A)
    (s : MacGCR.t) :
  MacGCR.for_each (x :: l) body s
  = match body x s with
    | (Ok MacGCR.Next, s', out) =>
        let '(r, s'', out') := MacGCR.for_each l body s' in (r, s'', out ++ out')
    | (Ok MacGCR.Break, s', out) => (Ok (), s', out)
    | (Raise e, s', out) => (Raise e, s', out)
    end.
Proof.
  cbn [MacGCR.for_each]. unfold mbind, MacGCR.M_bind.
  destruct (body x s) as [[[[|]|e] s'] out]; [done| |done].
  simpl. by rewrite app_nil_r.
Qed.

Lemma extends_refl (s : MacGCR.t) : extends s s.
Proof. split; [by rewrite with_sector_self | done]. Qed.

Lemma extends_trans (s1 s2 s3 : MacGCR.t) :
  extends s1 s2 → extends s2 s3 → extends s1 s3.
Proof.
  intros (E12 & L12 & P12) (E23 & L23 & P23). split; [|split].
  - rewrite E23 at 1. by rewrite E12.
  - congruence.
  - eauto.
Qed.

Lemma extends_insert (s : MacGCR.t) (i : nat) (data : bytes) :
  MacGCR.sector s !! i = Some None →
  extends s (MacGCR.with_sector s (<[i := Some data]> (MacGCR.sector s))).
Proof.
  intros Hi. split; [done|]. split; [simpl; by rewrite length_insert|].
  intros j b Hj. simpl. rewrite list_lookup_insert_ne; [done|].
  intros <-. congruence.
Qed.

Lemma add_extends (sec_id : Z) (data : bytes) (s : MacGCR.t) :
  extends s (MacGCR.add sec_id data s).1.2.
Proof.
  rewrite add_run. unfold Py.index, Py.setitem.
  set (i := if 0 <=? sec_id then sec_id
            else Z.of_nat (length (MacGCR.sector s)) + sec_id).
  destruct (0 <=? i); [|apply extends_refl].
  destruct (MacGCR.sector s !! Z.to_nat i) as [[sec|]|] eqn:Hi;
    try apply extends_refl.
  simpl. destruct (i <? _); [|apply extends_refl].
  by apply extends_insert.
Qed.

Section DecoderFrame.
Context `{Optimised} `{RawTrack}.

Lemma decode_sync_extends (bits : bitarray) (offs : Z) (s : MacGCR.t) :
  extends s (MacGCR.decode_sync bits offs s).1.2.
Proof.
  rewrite decode_sync_run.
  destruct (missing s =? 0); [apply extends_refl|].
  destruct (negb _); [apply extends_refl|]. cbv zeta.
  destruct (negb _); [apply extends_refl|].
  destruct (Py.byte_val <$> _) as [|cyl [|sec_id [|side [|fmt [|]]]]];
    try apply extends_refl.
  destruct (search _ _) as [|d [|]]; try apply extends_refl.
  destruct (negb _); [apply extends_refl|].
  destruct (decode_mac_sector _) as [sec csum].
  destruct (negb _); [apply extends_refl|].
  pose proof (add_extends sec_id sec s) as Hadd.
  by destruct (MacGCR.add sec_id sec s) as [[[|] s'] out'].
Qed.

Lemma for_each_extends {A} (body : A → MacGCR.M MacGCR.ctl)
    (l : list A) (s : MacGCR.t) :
  (∀ x s, extends s (body x s).1.2) →
  extends s (MacGCR.for_each l body s).1.2.
Proof.
  intros Hbody. revert s.
  induction l as [|x l IH]; intros s; [apply extends_refl|].
  rewrite for_each_cons. pose proof (Hbody x s) as Hx.
  destruct (body x s) as [[[[|]|e] s'] out]; try done.
  pose proof (IH s') as Hl.
  destruct (MacGCR.for_each l body s') as [[r s''] out'].
  by eapply extends_trans.
Qed.

Lemma decode_raw_extends (track : Flux) (s : MacGCR.t) :
  extends s (MacGCR.decode_raw track s).1.2.
Proof.
  unfold MacGCR.decode_raw. rewrite run_bind_get.
  apply for_each_extends. intros. apply decode_sync_extends.
Qed.

(** C8: [decode_raw] never changes a slot that holds a buffer, on any
    input and whether it returns or raises; a store into such a slot
    raises the assertion error and leaves the table as it was. *)
Theorem decode_keeps_populated_slots (track : Flux) (s : MacGCR.t)
    (i : nat) (b : bytes) :
  MacGCR.sector s !! i = Some (Some b) →
  MacGCR.sector (MacGCR.decode_raw track s).1.2 !! i = Some (Some b)
  ∧ ∀ data, MacGCR.add (Z.of_nat i) data s = (Raise AssertionError, s, []).
Proof.
  intros Hi. split.
  - by apply (decode_raw_extends track s).
  - intros data. rewrite add_run.
    rewrite (index_Ok _ _ (Some b)); [done | lia | by rewrite Nat2Z.id].
Qed.
End DecoderFrame.

Lemma missing_pos (st : MacGCR.t) (i : nat) :
  MacGCR.sector st !! i = Some None → missing st ≠ 0.
Proof.
  intros Hi. unfold missing.
  assert (None ∈ filter (λ sec : option bytes, sec = None) (MacGCR.sector st))
    as Hin.
  { apply list_elem_of_filter. split; [done|].
    by eapply list_elem_of_lookup_2. }
  destruct (filter _ _); [by apply elem_of_nil in Hin|]. simpl. lia.
Qed.

Section DecoderChecks.
Context `{Optimised}.

Lemma decode_loop_complete (bits : bitarray) (l : list Z) (s : MacGCR.t) :
  missing s = 0 →
  MacGCR.for_each l (MacGCR.decode_sync bits) s = (Ok (), s, []).
Proof.
  intros Hm. destruct l as [|offs l]; [done|].
  rewrite for_each_cons, decode_sync_run, Hm. done.
Qed.

(** C7: at a sync match whose decoded header bytes have a nonzero XOR,
    and at one whose data block has a nonzero checksum residual,
    [decode_sync] stores nothing: it leaves the object as it was and the
    loop goes on with the next match (the byte decoder is taken to
    preserve lengths, as its contract says). *)
Theorem bad_checksums_store_nothing (bits : bitarray) (offs : Z)
    (rest : list Z) (s : MacGCR.t) :
  (∀ bs, length (decode_mac_gcr bs) = length bs) →
  let hdr := decode_mac_gcr (header_bytes bits offs) in
  (Py.xor_sum hdr ≠ 0 →
     (∃ c, MacGCR.decode_sync bits offs s = (Ok c, s, []))
     ∧ MacGCR.for_each (offs :: rest) (MacGCR.decode_sync bits) s
       = MacGCR.for_each rest (MacGCR.decode_sync bits) s)
  ∧ (∀ dat_offs,
       search (data_window bits offs) data_sync = [dat_offs] →
       (decode_mac_sector
          (decode_mac_gcr (data_bytes bits offs dat_offs))).2 ≠ 0 →
       ∃ c out,
         MacGCR.decode_sync bits offs s = (Ok c, s, out)
         ∧ MacGCR.for_each (offs :: rest) (MacGCR.decode_sync bits) s
           = let '(r, s', out') :=
               MacGCR.for_each rest (MacGCR.decode_sync bits) s in
             (r, s', out ++ out')).
Proof.
  intros Hlen hdr. split.
  - intros Hxor. rewrite for_each_cons, decode_sync_run.
    destruct (Z.eqb_spec (missing s) 0) as [Hm|Hm].
    { split; [by eexists|]. by rewrite decode_loop_complete. }
    destruct (negb (Z.of_nat (length (header_bytes bits offs)) =? 5)).
    { split; [by eexists|].
      by destruct (MacGCR.for_each rest _ s) as [[r s'] out']. }
    cbv zeta. fold hdr.
    destruct (Z.eqb_spec (Py.xor_sum hdr) 0) as [Hz|Hz]; [done|]. simpl.
    split; [by eexists|].
    by destruct (MacGCR.for_each rest _ s) as [[r s'] out'].
  - intros dat_offs Hsearch Hcsum.
    rewrite for_each_cons, decode_sync_run.
    destruct (Z.eqb_spec (missing s) 0) as [Hm|Hm].
    { exists MacGCR.Break, []. split; [done|].
      by rewrite decode_loop_complete. }
    destruct (Z.eqb_spec (Z.of_nat (length (header_bytes bits offs))) 5)
      as [H5|H5]; simpl.
    2: { exists MacGCR.Next, []. split; [done|].
         by destruct (MacGCR.for_each rest _ s) as [[r s'] out']. }
    fold hdr.
    destruct (negb (Py.xor_sum hdr =? 0)).
    { exists MacGCR.Next, []. split; [done|].
      by destruct (MacGCR.for_each rest _ s) as [[r s'] out']. }
    assert (length (take 4 hdr) = 4%nat) as H4.
    { rewrite length_take. unfold hdr. rewrite Hlen. lia. }
    destruct (take 4 hdr) as [|b0 [|b1 [|b2 [|b3 [|]]]]]; try done.
    cbn [fmap list_fmap]. rewrite Hsearch.
    destruct (negb (Z.of_nat (length (data_bytes bits offs dat_offs)) =? 703)).
    { do 2 eexists. split; [done|].
      by destruct (MacGCR.for_each rest _ s) as [[r s'] out']. }
    destruct (decode_mac_sector _) as [sec csum]. simpl in Hcsum.
    destruct (Z.eqb_spec csum 0) as [Hz|Hz]; [done|]. simpl.
    do 2 eexists. split; [done|].
    by destruct (MacGCR.for_each rest _ s) as [[r s'] out'].
Qed.

(** C3 fails on the code for the sector id: a header and data block that
    pass both checksums, with a sector id at or beyond the sector count,
    print the diagnostic and then raise [IndexError] from the store,
    which aborts [decode_raw]. *)
Theorem out_of_range_sector_id_raises (bits : bitarray) (offs : Z)
    (s : MacGCR.t) (cyl sec_id side fmt dat_offs : Z) (data : bytes) :
  table_shape s →
  missing s ≠ 0 →
  Z.of_nat (length (header_bytes bits offs)) = 5 →
  Py.xor_sum (decode_mac_gcr (header_bytes bits offs)) = 0 →
  Py.byte_val <$> take 4 (decode_mac_gcr (header_bytes bits offs))
    = [cyl; sec_id; side; fmt] →
  search (data_window bits offs) data_sync = [dat_offs] →
  Z.of_nat (length (data_bytes bits offs dat_offs)) = 703 →
  decode_mac_sector (decode_mac_gcr (data_bytes bits offs dat_offs))
    = (data, 0) →
  MacGCR.nsec s ≤ sec_id →
  MacGCR.decode_sync bits offs s
  = (Raise IndexError, s,
     [diagnostic s (header_cyl cyl side) (header_side side) sec_id fmt]).
Proof.
  intros Hshape Hm H5 Hxor Hhdr Hsearch H703 Hdata Hid.
  rewrite decode_sync_run.
  destruct (Z.eqb_spec (missing s) 0); [done|].
  rewrite H5. cbv zeta. rewrite Hxor, Hhdr, Hsearch. cbv zeta.
  rewrite H703, Hdata. simpl.
  assert (unexpected s (header_cyl cyl side) (header_side side) sec_id fmt
          = true) as ->.
  { unfold unexpected. destruct (Z.leb_spec (MacGCR.nsec s) sec_id); [|lia].
    by rewrite orb_true_r. }
  assert (0 ≤ sec_id) as Hid0.
  { destruct (take 4 _) as [|b0 [|b1 l]]; try done.
    injection Hhdr as _ <- _. apply byte_val_range. }
  rewrite add_run, index_ge; [done|].
  rewrite Hshape. lia.
Qed.
(** A header that disagrees with the table on cylinder, side or
    format byte is not rejected: with a sector id in range and an empty
    slot, its data is stored under that id. *)
Lemma foreign_header_is_stored (bits : bitarray) (offs : Z)
    (s : MacGCR.t) (cyl sec_id side fmt dat_offs : Z) (data : bytes) :
  Z.of_nat (length (header_bytes bits offs)) = 5 →
  Py.xor_sum (decode_mac_gcr (header_bytes bits offs)) = 0 →
  Py.byte_val <$> take 4 (decode_mac_gcr (header_bytes bits offs))
    = [cyl; sec_id; side; fmt] →
  search (data_window bits offs) data_sync = [dat_offs] →
  Z.of_nat (length (data_bytes bits offs dat_offs)) = 703 →
  decode_mac_sector (decode_mac_gcr (data_bytes bits offs dat_offs))
    = (data, 0) →
  MacGCR.sector s !! Z.to_nat sec_id = Some None →
  ∃ out,
    MacGCR.decode_sync bits offs s
    = (Ok MacGCR.Next,
       MacGCR.with_sector s (<[Z.to_nat sec_id := Some data]> (MacGCR.sector s)),
       out).
Proof.
  intros H5 Hxor Hhdr Hsearch H703 Hdata Hslot.
  assert (0 ≤ sec_id) as Hid.
  { destruct (take 4 _) as [|b0 [|b1 l]]; try done.
    injection Hhdr as _ <- _. apply byte_val_range. }
  eexists. rewrite decode_sync_run.
  destruct (Z.eqb_spec (missing s) 0); [by apply missing_pos in Hslot|].
  rewrite H5. cbv zeta. rewrite Hxor, Hhdr, Hsearch. cbv zeta.
  rewrite H703, Hdata. simpl.
  rewrite add_run, (index_Ok _ _ _ Hid Hslot).
  rewrite setitem_Ok by (apply lookup_lt_Some in Hslot; lia).
  reflexivity.
Qed.
End DecoderChecks.

(** ** Bytes and bits *)

Lemma byte_of_bits_byte_bits (b : byte) (rest : bitarray) :
  byte_of_bits (byte_bits b ++ rest) = b.
Proof.
  unfold byte_of_bits, byte_bits.
  destruct (Byte.to_bits b) as (b0 & b1 & b2 & b3 & b4 & b5 & b6 & b7) eqn:E.
  cbn -[Byte.of_bits]. rewrite <- E. apply Byte.of_bits_to_bits.
Qed.

Lemma frombytes_cons (b : byte) (bs : bytes) :
  frombytes (b :: bs) = byte_bits b ++ frombytes bs.
Proof. done. Qed.

Lemma frombytes_app (bs1 bs2 : bytes) :
  frombytes (bs1 ++ bs2) = frombytes bs1 ++ frombytes bs2.
Proof. apply bind_app. Qed.

Lemma drop_frombytes (n : nat) (bs : bytes) :
  drop (8 * n) (frombytes bs) = frombytes (drop n bs).
Proof.
  revert bs. induction n as [|n IH]; intros bs; [done|].
  destruct bs as [|b bs]; [done|].
  rewrite frombytes_cons.
  replace (8 * S n)%nat with (8 + 8 * n)%nat by lia.
  rewrite <- drop_drop, drop_app_length' by (by rewrite byte_bits_length).
  apply IH.
Qed.

Lemma take_frombytes (n : nat) (bs : bytes) :
  take (8 * n) (frombytes bs) = frombytes (take n bs).
Proof.
  revert bs. induction n as [|n IH]; intros bs; [done|].
  destruct bs as [|b bs]; [done|].
  rewrite frombytes_cons. cbn [take]. rewrite frombytes_cons.
  replace (8 * S n)%nat with (length (byte_bits b) + 8 * n)%nat
    by (rewrite byte_bits_length; lia).
  by rewrite take_app_add, IH.
Qed.

Lemma tobytes_n_frombytes (bs : bytes) :
  tobytes_n (length bs) (frombytes bs) = bs.
Proof.
  induction bs as [|b bs IH]; [done|].
  rewrite frombytes_cons. cbn [length tobytes_n].
  rewrite take_app_length', drop_app_length' by (by rewrite byte_bits_length).
  rewrite IH. f_equal.
  rewrite <- (app_nil_r (byte_bits b)). apply byte_of_bits_byte_bits.
Qed.

Lemma tobytes_frombytes (bs : bytes) : tobytes (frombytes bs) = bs.
Proof.
  unfold tobytes.
  replace ((length (frombytes bs) + 7) / 8)%nat with (length bs).
  { apply tobytes_n_frombytes. }
  pose proof (frombytes_length bs) as Hlen.
  apply Nat.div_unique with 7%nat; lia.
Qed.

Lemma slice_frombytes (bs : bytes) (a w : Z) :
  0 ≤ a → 0 ≤ w →
  Py.slice (frombytes bs) (8 * a) (8 * a + 8 * w)
  = frombytes (take (Z.to_nat w) (drop (Z.to_nat a) bs)).
Proof.
  intros Ha Hw. rewrite slice_nonneg by lia.
  replace (Z.to_nat (8 * a + 8 * w - 8 * a)) with (8 * Z.to_nat w)%nat by lia.
  replace (Z.to_nat (8 * a)) with (8 * Z.to_nat a)%nat by lia.
  by rewrite drop_frombytes, take_frombytes.
Qed.

(** ** The layout of an encoded track *)

Lemma join_length_uniform {A} (ls : list (list A)) (c : nat) :
  Forall (λ l, length l = c) ls → length (mjoin ls) = (c * length ls)%nat.
Proof.
  induction 1 as [|l ls Hl _ IH]; simpl; [lia|].
  rewrite length_app, IH, Hl. lia.
Qed.

Lemma segment_of_app {A} (x y z : list A) (a w : nat) :
  length x = a → length y = w → take w (drop a (x ++ y ++ z)) = y.
Proof.
  intros <- <-. by rewrite drop_app_length, take_app_length.
Qed.

Lemma record_at {A} (gap tail : list A) (rs : list (list A)) (c k f w : nat)
    (r : list A) :
  Forall (λ r, length r = c) rs →
  rs !! k = Some r →
  (f + w ≤ c)%nat →
  take w (drop (length gap + c * k + f) (gap ++ mjoin rs ++ tail))
  = take w (drop f r).
Proof.
  intros Hall Hk Hfw.
  assert (length r = c) as Hr by by eapply (Forall_lookup_1 _ _ _ _ Hall).
  rewrite <- (take_drop_middle rs k r Hk), join_app. simpl.
  assert (length (mjoin (take k rs)) = (c * k)%nat) as Hpre.
  { rewrite (join_length_uniform _ c) by by apply Forall_take.
    rewrite length_take. apply lookup_lt_Some in Hk. f_equal. lia. }
  rewrite <- !Nat.add_assoc, <- drop_drop, drop_app_length.
  rewrite <- !app_assoc, <- drop_drop, drop_app_length' by done.
  rewrite drop_app_le by lia.
  rewrite take_app_le; [done|]. rewrite length_drop. lia.
Qed.

Lemma result_bind_Ok {A B} (m : result A) (f : A → result B) (b : B) :
  m ≫= f = Ok b → ∃ a, m = Ok a ∧ f a = Ok b.
Proof. destruct m as [a|e]; [|done]. intros Hf. by exists a. Qed.

Lemma result_bind_ret {A B} (a : A) (f : A → result B) : Ok a ≫= f = f a.
Proof. done. Qed.

Lemma byte_of_int_Ok (z : Z) (b : byte) :
  Py.byte_of_int z = Ok b → Py.byte_val b = z.
Proof.
  unfold Py.byte_of_int, Py.byte_val.
  destruct (Z.leb_spec 0 z); [|done]. simpl.
  destruct (z <? 256); [|done].
  destruct (Byte.of_N (Z.to_N z)) as [b'|] eqn:Hb; [|done].
  intros [= <-]. apply Byte.to_of_N in Hb. lia.
Qed.

Lemma bytes_of_ints_Ok (l : list Z) (bs : bytes) :
  Py.bytes_of_ints l = Ok bs → Py.byte_val <$> bs = l.
Proof.
  revert bs. induction l as [|z l IH]; intros bs; simpl.
  - by intros [= <-].
  - intros (b & Hb & (bs' & Hbs & [= <-])%result_bind_Ok)%result_bind_Ok.
    simpl. f_equal; [by apply byte_of_int_Ok | by apply IH].
Qed.

Lemma xor_sum_app (bs1 bs2 : bytes) :
  Py.xor_sum (bs1 ++ bs2)
  = fold_left (λ sum x, Z.lxor sum (Py.byte_val x)) bs2 (Py.xor_sum bs1).
Proof. apply fold_left_app. Qed.

Section Records.
Context `{Optimised}.

Lemma encode_sector_run (sec_id : Z) (t : bytes) (s : MacGCR.t) :
  MacGCR.encode_sector sec_id t s
  = (r ← sector_record s sec_id; Ok (t ++ r), s, []).
Proof.
  unfold MacGCR.encode_sector, sector_record. rewrite run_bind_get.
  destruct (Py.index (MacGCR.sector s) sec_id) as [sector|e];
    [|reflexivity].
  rewrite run_bind_lift_Ok, result_bind_ret. cbv zeta.
  destruct (Py.bytes_of_ints [_; _; _; _]) as [hdr|e]; [|reflexivity].
  rewrite run_bind_lift_Ok, result_bind_ret.
  destruct (Py.bytes_of_ints [Py.xor_sum hdr]) as [sum|e]; [|reflexivity].
  rewrite run_bind_lift_Ok, result_bind_ret.
  destruct (Py.bytes_of_ints [sec_id]) as [sid|e]; [|reflexivity].
  rewrite run_bind_lift_Ok, !result_bind_ret. unfold mret, MacGCR.M_ret.
  do 3 f_equal. by rewrite <- !app_assoc.
Qed.

Lemma for_fold_encode_inv (ids : list Z) (t t' : bytes)
    (s s' : MacGCR.t) out :
  MacGCR.for_fold ids t MacGCR.encode_sector s = (Ok t', s', out) →
  ∃ rs, Forall2 (λ id r, sector_record s id = Ok r) ids rs
        ∧ t' = t ++ mjoin rs.
Proof.
  revert t. induction ids as [|id ids IH]; intros t; cbn [MacGCR.for_fold].
  - intros [= <- _ _]. exists []. split; [constructor|by rewrite app_nil_r].
  - destruct (sector_record s id) as [r|e] eqn:Hr.
    + erewrite run_bind_silent by by rewrite encode_sector_run, Hr.
      intros (rs & Hrs & ->)%IH. exists (r :: rs).
      split; [by constructor|]. simpl. by rewrite app_assoc.
    + erewrite run_bind_Raise by by rewrite encode_sector_run, Hr.
      done.
Qed.

Hypothesis gcr_length : ∀ bs, length (encode_mac_gcr bs) = length bs.
Hypothesis sector_length :
  ∀ data, length data = 524%nat → length (encode_mac_sector data) = 703%nat.

Lemma sector_record_inv (s : MacGCR.t) (sec_id : Z) (r data : bytes) :
  sector_record s sec_id = Ok r →
  0 ≤ sec_id →
  MacGCR.sector s !! Z.to_nat sec_id = Some (Some data) →
  length data = 524%nat →
  ∃ hdr cyl side fmt,
    length hdr = 5%nat
    ∧ Py.xor_sum hdr = 0
    ∧ Py.byte_val <$> take 4 hdr = [cyl; sec_id; side; fmt]
    ∧ take 5 (drop 39 r) = encode_mac_gcr hdr
    ∧ take 703 (drop 58 r) = encode_mac_gcr (encode_mac_sector data)
    ∧ length r = 764%nat.
Proof.
  intros Hr Hid Hslot Hdata. unfold sector_record in Hr.
  rewrite (index_Ok _ _ _ Hid Hslot), result_bind_ret in Hr.
  cbv zeta in Hr.
  apply result_bind_Ok in Hr as (hdr & Hhdr%bytes_of_ints_Ok & Hr).
  apply result_bind_Ok in Hr as (sum & Hsum%bytes_of_ints_Ok & Hr).
  apply result_bind_Ok in Hr as (sid & Hsid%bytes_of_ints_Ok & Hr).
  match type of Hr with
  | Ok ?x = Ok _ => assert (r = x) as -> by congruence
  end. clear Hr.
  assert (length hdr = 4%nat) as Hh4
    by (rewrite <- (length_fmap Py.byte_val), Hhdr; done).
  destruct sum as [|sb [|]]; try done. injection Hsum as Hsb.
  assert (length sid = 1%nat) as Hs1
    by (rewrite <- (length_fmap Py.byte_val), Hsid; done).
  eexists (hdr ++ [sb]), _, _, _.
  split; [rewrite length_app, Hh4; done|].
  split; [rewrite xor_sum_app; simpl; rewrite Hsb; apply Z.lxor_nilpotent|].
  split; [rewrite take_app_length' by done; exact Hhdr|].
  split; [|split].
  - rewrite (app_assoc (Py.repeat_bytes self_sync_bytes 6)).
    apply segment_of_app; [done|]. by rewrite gcr_length, length_app, Hh4.
  - set (tail := [xde; xaa; xff]).
    set (body := encode_mac_gcr (encode_mac_sector data)).
    transitivity (take 703 (drop 58
      ((Py.repeat_bytes self_sync_bytes 6 ++ sector_sync_bytes
        ++ encode_mac_gcr (hdr ++ [sb]) ++ [xde; xaa; xff; xff]
        ++ self_sync_bytes ++ data_sync_bytes ++ encode_mac_gcr sid)
       ++ body ++ tail))).
    { by rewrite <- !app_assoc. }
    apply segment_of_app.
    + rewrite !length_app, !gcr_length, length_app, Hh4, Hs1. done.
    + unfold body. by rewrite gcr_length, sector_length.
  - rewrite !length_app, !gcr_length, length_app, Hh4, Hs1.
    rewrite sector_length by done. done.
Qed.
End Records.

Lemma store_from_length (l acc : list (option bytes)) (ids : list Z) :
  length (store_from l acc ids) = length acc.
Proof.
  revert acc. induction ids as [|id ids IH]; intros acc; [done|].
  change (store_from l acc (id :: ids))
    with (store_from l (<[Z.to_nat id := default None (l !! Z.to_nat id)]> acc) ids).
  by rewrite IH, length_insert.
Qed.

Lemma store_from_lookup (l acc : list (option bytes)) (ids : list Z) (i : nat) :
  length acc = length l →
  (∀ id, id ∈ ids → 0 ≤ id) →
  store_from l acc ids !! i
  = if decide (Z.of_nat i ∈ ids) then l !! i else acc !! i.
Proof.
  revert acc. induction ids as [|id ids IH]; intros acc Hlen Hids.
  - rewrite decide_False; [done | apply not_elem_of_nil].
  - assert (0 ≤ id) as Hid by (apply Hids; left).
    change (store_from l acc (id :: ids))
      with (store_from l (<[Z.to_nat id := default None (l !! Z.to_nat id)]> acc) ids).
    rewrite IH; [|by rewrite length_insert|by intros; apply Hids; right].
    destruct (decide (Z.of_nat i ∈ ids)) as [Hin|Hnin].
    { rewrite decide_True; [done|by right]. }
    destruct (decide (Z.to_nat id = i)) as [<-|Hne].
    + rewrite decide_True by (rewrite Z2Nat.id by done; left).
      destruct (l !! Z.to_nat id) as [x|] eqn:Hl.
      * apply list_lookup_insert_eq. rewrite Hlen. by eapply lookup_lt_Some.
      * simpl. rewrite list_insert_ge; [|rewrite Hlen; by apply lookup_ge_None].
        apply lookup_ge_None. rewrite Hlen. by apply lookup_ge_None.
    + rewrite list_lookup_insert_ne by done.
      rewrite decide_False; [done|].
      intros [Heq|?]%elem_of_cons; [|done]. apply Hne. lia.
Qed.

Lemma range_of_to_nat (n : Z) : Py.range (Z.of_nat (Z.to_nat n)) = Py.range n.
Proof. unfold Py.range. by rewrite Nat2Z.id. Qed.

Lemma post_index_gap_length : length post_index_gap = 184%nat.
Proof. reflexivity. Qed.

Section RoundTrip.
Context `{Optimised}.
Hypothesis gcr_length : ∀ bs, length (encode_mac_gcr bs) = length bs.
Hypothesis gcr_inverse : ∀ bs, decode_mac_gcr (encode_mac_gcr bs) = bs.
Hypothesis sector_length :
  ∀ data, length data = 524%nat → length (encode_mac_sector data) = 703%nat.
Hypothesis sector_inverse :
  ∀ data, length data = 524%nat →
          decode_mac_sector (encode_mac_sector data) = (data, 0).

Variables (s : MacGCR.t) (rs : list bytes) (tail : bytes).

Let bits : bitarray := frombytes (post_index_gap ++ mjoin rs ++ tail).
Let empty : list (option bytes) :=
  replicate (length (MacGCR.sector s)) None.

Hypothesis records :
  Forall2 (λ id r, sector_record s id = Ok r) (MacGCR.sec_map s) rs.
Hypothesis all_populated : populated (MacGCR.sector s).
Hypothesis interleaved :
  MacGCR.sec_map s ≡ₚ Py.range (Z.of_nat (length (MacGCR.sector s))).
Hypothesis one_data_sync :
  ∀ k : nat, (k < length (MacGCR.sec_map s))%nat →
    search (data_window bits (sector_sync_offset (Z.of_nat k))) data_sync
    = [80].

Lemma sec_map_slot (k : nat) (id : Z) :
  MacGCR.sec_map s !! k = Some id →
  0 ≤ id
  ∧ ∃ data, MacGCR.sector s !! Z.to_nat id = Some (Some data)
            ∧ length data = 524%nat.
Proof.
  intros Hk.
  assert (id ∈ Py.range (Z.of_nat (length (MacGCR.sector s)))) as Hid
    by (rewrite <- interleaved; by eapply list_elem_of_lookup_2).
  apply elem_of_range in Hid. split; [lia|].
  destruct (lookup_lt_is_Some_2 (MacGCR.sector s) (Z.to_nat id)) as [x Hx];
    [lia|].
  destruct (Forall_lookup_1 _ _ _ _ all_populated Hx) as (data & -> & Hlen).
  by exists data.
Qed.

Lemma records_length : Forall (λ r, length r = 764%nat) rs.
Proof.
  apply Forall_lookup_2. intros k r Hr.
  destruct (Forall2_lookup_r _ _ _ _ _ records Hr) as (id & Hk & Hrec).
  destruct (sec_map_slot k id Hk) as (Hid & data & Hslot & Hlen).
  destruct (sector_record_inv gcr_length sector_length s id r data
              Hrec Hid Hslot Hlen) as (? & ? & ? & ? & ? & ? & ? & ? & ? & ?).
  done.
Qed.

Lemma record_bytes (k f w : nat) (r : bytes) :
  rs !! k = Some r → (f + w ≤ 764)%nat →
  Py.slice bits (sector_sync_offset (Z.of_nat k) + 8 * (Z.of_nat f - 36))
                (sector_sync_offset (Z.of_nat k) + 8 * (Z.of_nat f - 36)
                 + 8 * Z.of_nat w)
  = frombytes (take w (drop f r)).
Proof.
  intros Hr Hfw. unfold sector_sync_offset, bits.
  replace (8 * (220 + 764 * Z.of_nat k) + 8 * (Z.of_nat f - 36))
    with (8 * (184 + 764 * Z.of_nat k + Z.of_nat f)) by lia.
  rewrite slice_frombytes by lia. f_equal.
  rewrite Nat2Z.id.
  replace (Z.to_nat (184 + 764 * Z.of_nat k + Z.of_nat f))
    with (length post_index_gap + 764 * k + f)%nat
    by (rewrite post_index_gap_length; lia).
  by apply record_at; [apply records_length| |].
Qed.

(** The pass of the decoder over the [k]-th sector of the track. *)
Lemma decode_sync_at (k : nat) (id : Z) (st : MacGCR.t) :
  MacGCR.sec_map s !! k = Some id →
  MacGCR.sector st !! Z.to_nat id = Some None →
  ∃ data out,
    MacGCR.sector s !! Z.to_nat id = Some (Some data)
    ∧ MacGCR.decode_sync bits (sector_sync_offset (Z.of_nat k)) st
      = (Ok MacGCR.Next,
         MacGCR.with_sector st (<[Z.to_nat id := Some data]> (MacGCR.sector st)),
         out).
Proof.
  intros Hk Hst.
  destruct (sec_map_slot k id Hk) as (Hid & data & Hslot & Hlen).
  destruct (Forall2_lookup_l _ _ _ _ _ records Hk) as (r & Hr & Hrec).
  destruct (sector_record_inv gcr_length sector_length s id r data
              Hrec Hid Hslot Hlen)
    as (hdr & cyl & side & fmt & Hh5 & Hxor & Hfields & Hhdr & Hdat & _).
  set (offs := sector_sync_offset (Z.of_nat k)).
  assert (header_bytes bits offs = encode_mac_gcr hdr) as Hhb.
  { unfold header_bytes.
    replace (offs + 3 * 8) with (offs + 8 * (Z.of_nat 39 - 36)) by lia.
    replace (offs + 8 * (Z.of_nat 39 - 36) + 5 * 8)
      with (offs + 8 * (Z.of_nat 39 - 36) + 8 * Z.of_nat 5) by lia.
    unfold offs. rewrite (record_bytes k 39 5 r Hr) by lia.
    by rewrite tobytes_frombytes. }
  assert (data_bytes bits offs 80
          = encode_mac_gcr (encode_mac_sector data)) as Hdb.
  { unfold data_bytes.
    replace (offs + 3 * 8 + 5 * 8 + 80 + 4 * 8)
      with (offs + 8 * (Z.of_nat 58 - 36)) by lia.
    replace (offs + 8 * (Z.of_nat 58 - 36) + 703 * 8)
      with (offs + 8 * (Z.of_nat 58 - 36) + 8 * Z.of_nat 703) by lia.
    unfold offs. rewrite (record_bytes k 58 703 r Hr) by lia.
    by rewrite tobytes_frombytes. }
  subst offs. exists data. eexists. split; [done|].
  rewrite decode_sync_run.
  destruct (Z.eqb_spec (missing st) 0) as [Hm|_];
    [by apply missing_pos in Hst|].
  rewrite Hhb, gcr_length, Hh5. cbv zeta.
  rewrite gcr_inverse, Hxor, Hfields.
  rewrite (one_data_sync k) by by eapply lookup_lt_Some.
  cbv zeta. rewrite Hdb, gcr_length, (sector_length _ Hlen).
  rewrite gcr_inverse, (sector_inverse _ Hlen).
  rewrite add_run, (index_Ok _ _ _ Hid Hst).
  rewrite setitem_Ok by (apply lookup_lt_Some in Hst; lia).
  reflexivity.
Qed.
Lemma sec_map_NoDup : NoDup (MacGCR.sec_map s).
Proof. rewrite interleaved. apply range_NoDup. Qed.

Lemma sec_map_nonneg (id : Z) : id ∈ MacGCR.sec_map s → 0 ≤ id.
Proof. rewrite interleaved. intros Hid%elem_of_range. lia. Qed.

(** The decoder goes through the sectors of the track in physical
    order and stores each one. *)
Lemma decode_loop (r k : nat) :
  (k + r)%nat = length (MacGCR.sec_map s) →
  ∃ out,
    MacGCR.for_each (sector_sync_offset <$> (Z.of_nat <$> seq k r))
      (MacGCR.decode_sync bits)
      (MacGCR.with_sector s
         (store_from (MacGCR.sector s) empty (take k (MacGCR.sec_map s))))
    = (Ok (),
       MacGCR.with_sector s
         (store_from (MacGCR.sector s) empty
            (take (k + r) (MacGCR.sec_map s))),
       out).
Proof.
  revert k. induction r as [|r IH]; intros k Hkr.
  - exists []. by rewrite Nat.add_0_r.
  - destruct (lookup_lt_is_Some_2 (MacGCR.sec_map s) k) as [id Hk]; [lia|].
    set (L := store_from (MacGCR.sector s) empty (take k (MacGCR.sec_map s))).
    assert (L !! Z.to_nat id = Some None) as Hfree.
    { unfold L. rewrite store_from_lookup.
      - rewrite decide_False.
        + destruct (sec_map_slot k id Hk) as (Hid & data & Hslot & _).
          unfold empty. apply lookup_replicate_2.
          by eapply lookup_lt_Some.
        + rewrite Z2Nat.id by (eapply sec_map_nonneg, list_elem_of_lookup_2, Hk).
          intros (j & Hj)%list_elem_of_lookup.
          apply lookup_take_Some in Hj as [Hj Hjk].
          pose proof (NoDup_lookup _ _ _ _ sec_map_NoDup Hk Hj). lia.
      - unfold empty. by rewrite length_replicate.
      - intros id' Hid'%elem_of_take. destruct Hid' as (j & Hj & _).
        eapply sec_map_nonneg, list_elem_of_lookup_2, Hj. }
    destruct (decode_sync_at k id (MacGCR.with_sector s L) Hk Hfree)
      as (data & out & Hslot & Hrun).
    destruct (IH (S k)) as [out' Hrest]; [lia|].
    exists (out ++ out').
    cbn [seq fmap list_fmap]. rewrite for_each_cons, Hrun.
    cbn [MacGCR.sector MacGCR.with_sector].
    replace (MacGCR.with_sector (MacGCR.with_sector s L)
               (<[Z.to_nat id := Some data]> L))
      with (MacGCR.with_sector s
              (store_from (MacGCR.sector s) empty
                 (take (S k) (MacGCR.sec_map s)))).
    2: { rewrite (take_S_r _ _ _ Hk). unfold store_from at 1.
         rewrite foldl_app. simpl. by rewrite Hslot. }
    rewrite Hrest. by replace (k + S r)%nat with (S k + r)%nat by lia.
Qed.

Lemma store_from_all :
  store_from (MacGCR.sector s) empty (MacGCR.sec_map s) = MacGCR.sector s.
Proof.
  apply list_eq. intros i.
  rewrite store_from_lookup;
    [|unfold empty; by rewrite length_replicate|apply sec_map_nonneg].
  destruct (decide (i < length (MacGCR.sector s))%nat) as [Hlt|Hge].
  - rewrite decide_True; [done|].
    rewrite interleaved. apply elem_of_range. lia.
  - rewrite (lookup_ge_None_2 (MacGCR.sector s) i) by lia.
    case_decide; [done|]. unfold empty.
    apply lookup_replicate_None. lia.
Qed.
End RoundTrip.

(** C1, amended: when the byte codec preserves lengths and is undone
    by its decoder, the sector transform takes 524 bytes to 703 and is
    undone with residual zero, and the framing of the produced track
    is unambiguous (the sector sync occurs only where [raw_track] wrote
    it, and the data sync occurs once, where it was written, in the
    window after each header), decoding the track produced from a fully
    populated table into a fresh table of the same cylinder, head and
    configuration ends with exactly the source table. *)
Theorem encode_decode_roundtrip `{Optimised} `{RawTrack}
    (fresh s : MacGCR.t) (trk : MacGCR.MasterTrack) (flux : Flux) :
  (∀ bs, length (encode_mac_gcr bs) = length bs) →
  (∀ bs, decode_mac_gcr (encode_mac_gcr bs) = bs) →
  (∀ data, length data = 524%nat →
           length (encode_mac_sector data) = 703%nat) →
  (∀ data, length data = 524%nat →
           decode_mac_sector (encode_mac_sector data) = (data, 0)) →
  mk_track (MacGCR.config s) (MacGCR.cyl s) (MacGCR.head s) = Ok fresh →
  s = MacGCR.with_sector fresh (MacGCR.sector s) →
  length (MacGCR.sector s) = length (MacGCR.sector fresh) →
  populated (MacGCR.sector s) →
  MacGCR.raw_track s = (Ok trk, s, []) →
  get_all_data MacGCR.time_per_rev (MacGCR.clock fresh) flux
    = frombytes (MacGCR.bits trk) →
  itersearch (frombytes (MacGCR.bits trk)) sector_sync
    = sector_sync_offset <$> Py.range (MacGCR.nsec s) →
  (∀ k, 0 ≤ k < MacGCR.nsec s →
        search (data_window (frombytes (MacGCR.bits trk)) (sector_sync_offset k))
               data_sync = [80]) →
  ∃ out, MacGCR.decode_raw flux fresh = (Ok (), s, out).
Proof.
  intros Hgl Hgi Hsl Hsi Hmk Hs Hlen Hpop Hraw Hflux Hsync Hwin.
  destruct (MacGCRTrackFormat.secs (MacGCR.config s)) as [n|] eqn:Hsecs.
  2: { unfold mk_track, MacGCR.__init__ in Hmk. by rewrite Hsecs in Hmk. }
  destruct (init_total (MacGCR.cyl s) (MacGCR.head s) (MacGCR.config s) n Hsecs)
    as (m & Hinit & Hperm).
  unfold mk_track in Hmk. rewrite Hinit in Hmk.
  assert (MacGCR.sec_map fresh = m ∧ MacGCR.nsec fresh = n
          ∧ MacGCR.sector fresh = replicate (Z.to_nat n) None)
    as (Hm & Hn & Hempty) by (by injection Hmk as <-).
  clear Hmk Hinit.
  assert (MacGCR.sec_map s = m) as Hsm by (by rewrite Hs).
  assert (MacGCR.nsec s = n) as Hsn by (by rewrite Hs).
  rewrite Hempty, length_replicate in Hlen.
  assert (length m = Z.to_nat n) as Hmlen by (by rewrite Hperm, range_length).
  destruct (raw_track_Ok_inv _ _ _ _ Hraw)
    as (clock & cells & content & _ & _ & Hcontent & Hbits & _).
  unfold track_content in Hcontent.
  destruct (MacGCR.for_fold _ _ _ _) as [[[t|e] s'] out0] eqn:Hfold; [|done].
  apply for_fold_encode_inv in Hfold as (rs & Hrs & ->).
  assert (content = (post_index_gap ++ mjoin rs) ++ Py.repeat_bytes [xff] 4)
    as -> by congruence.
  clear Hcontent. rewrite <- !app_assoc in Hbits.
  set (tail := Py.repeat_bytes [xff] 4 ++ _) in Hbits.
  assert (MacGCR.sec_map s
          ≡ₚ Py.range (Z.of_nat (length (MacGCR.sector s)))) as Hint
    by (by rewrite Hsm, Hlen, range_of_to_nat).
  assert (MacGCR.with_sector s (replicate (length (MacGCR.sector s)) None)
          = fresh) as Hfresh.
  { rewrite Hlen, <- Hempty, Hs. by rewrite with_sector_twice, with_sector_self. }
  destruct (decode_loop Hgl Hgi Hsl Hsi s rs tail Hrs Hpop Hint) with
    (r := length (MacGCR.sec_map s)) (k := 0%nat) as [out Hloop];
    [|reflexivity|].
  { intros k Hk. rewrite <- Hbits. apply Hwin. rewrite Hsm in Hk. lia. }
  rewrite Nat.add_0_l, firstn_all, (store_from_all s Hint), with_sector_self
    in Hloop.
  change (store_from _ _ (take 0 _))
    with (replicate (length (MacGCR.sector s)) (@None bytes)) in Hloop.
  rewrite Hfresh in Hloop.
  exists out. unfold MacGCR.decode_raw.
  rewrite run_bind_get, Hflux, Hsync, Hbits, Hsn.
  unfold Py.range. rewrite <- Hmlen, <- Hsm. exact Hloop.
Qed.
(** * Further properties *)

(** ** The interleave map for a stride coprime to the sector count *)

Lemma next_free_at_free (fuel : nat) (m : list Z) (nsec pos : Z) :
  0 ≤ pos → m !! Z.to_nat pos = Some (-1) →
  MacGCR.next_free fuel m nsec pos = Ok pos.
Proof.
  intros Hpos Hfree. destruct fuel; simpl; by rewrite (index_Ok _ _ _ Hpos Hfree).
Qed.

Section Coprime.
Variables (nsec interleave : Z).
Hypothesis nsec_pos : 0 < nsec.
Hypothesis coprime : Z.gcd interleave nsec = 1.

(** Two sectors below [nsec] never land on the same position. *)
Lemma stride_injective (i j : Z) :
  0 ≤ i < nsec → 0 ≤ j < nsec →
  (i * interleave) mod nsec = (j * interleave) mod nsec → i = j.
Proof.
  intros Hi Hj Heq.
  assert ((nsec | interleave * (i - j))) as Hdiv.
  { exists ((i * interleave) / nsec - (j * interleave) / nsec).
    pose proof (Z.div_mod (i * interleave) nsec).
    pose proof (Z.div_mod (j * interleave) nsec). lia. }
  apply Z.gauss in Hdiv; [|by rewrite Z.gcd_comm].
  destruct Hdiv as [q Hq].
  assert (q = 0) by nia. lia.
Qed.

(** The state of the loop of the constructor after [i] sectors. *)
Definition strided (i : nat) (m : list Z) (pos : Z) : Prop :=
  length m = Z.to_nat nsec
  ∧ pos = (Z.of_nat i * interleave) mod nsec
  ∧ (∀ j, 0 ≤ j < Z.of_nat i →
       m !! Z.to_nat ((j * interleave) mod nsec) = Some j)
  ∧ (∀ p, 0 ≤ p < nsec →
       (∀ j, 0 ≤ j < Z.of_nat i → p ≠ (j * interleave) mod nsec) →
       m !! Z.to_nat p = Some (-1)).

Lemma place_strided (k i : nat) (m : list Z) (pos : Z) :
  (i + k)%nat = Z.to_nat nsec →
  strided i m pos →
  ∃ m' pos',
    MacGCR.place (Z.of_nat <$> seq i k) nsec interleave m pos = Ok (m', pos')
    ∧ strided (i + k) m' pos'.
Proof.
  revert i m pos. induction k as [|k IH]; intros i m pos Hik Hinv.
  - exists m, pos. split; [done|]. by rewrite Nat.add_0_r.
  - destruct Hinv as (Hlen & Hpos & Hplaced & Hfree).
    assert (0 ≤ pos < nsec) as Hrange
      by (rewrite Hpos; by apply Z.mod_pos_bound).
    assert (m !! Z.to_nat pos = Some (-1)) as Hhere.
    { apply Hfree; [done|]. intros j Hj Heq. rewrite Hpos in Heq.
      apply stride_injective in Heq; lia. }
    cbn [seq fmap list_fmap MacGCR.place].
    rewrite (next_free_at_free _ _ _ _ (proj1 Hrange) Hhere). simpl.
    rewrite setitem_Ok by lia. simpl. rewrite mod_Ok by lia. simpl.
    replace (i + S k)%nat with (S i + k)%nat by lia.
    apply IH; [lia|]. split; [by rewrite length_insert|]. split; [|split].
    + rewrite Hpos, Zplus_mod_idemp_l. f_equal. lia.
    + intros j Hj. destruct (Z.eq_dec j (Z.of_nat i)) as [->|Hne].
      * rewrite <- Hpos. apply list_lookup_insert_eq. lia.
      * rewrite list_lookup_insert_ne; [apply Hplaced; lia|].
        intros Heq. apply Z2Nat.inj in Heq;
          [|lia|by apply Z.mod_pos_bound].
        rewrite Hpos in Heq. apply stride_injective in Heq; lia.
    + intros p Hp Hne.
      rewrite list_lookup_insert_ne; [apply Hfree; [done|]; intros; apply Hne; lia|].
      intros Heq. apply Z2Nat.inj in Heq; [|lia|lia].
      apply (Hne (Z.of_nat i)); [lia|]. by rewrite <- Hpos.
Qed.
End Coprime.

Lemma init_coprime (cyl head : Z) (config : MacGCRTrackFormat.t)
    (nsec : Z) (t : MacGCR.t) :
  MacGCRTrackFormat.secs config = Some nsec →
  0 < nsec →
  Z.gcd (MacGCRTrackFormat.interleave config) nsec = 1 →
  mk_track config cyl head = Ok t →
  ∀ i, 0 ≤ i < nsec →
    MacGCR.sec_map t
      !! Z.to_nat ((i * MacGCRTrackFormat.interleave config) mod nsec)
    = Some i.
Proof.
  intros Hsecs Hpos Hgcd Hmk i Hi.
  unfold mk_track, MacGCR.__init__ in Hmk. rewrite Hsecs in Hmk.
  destruct (place_strided nsec (MacGCRTrackFormat.interleave config) Hpos Hgcd
              (Z.to_nat nsec) 0 (replicate (Z.to_nat nsec) (-1)) 0)
    as (m' & pos' & Hplace & Hinv); [lia| |].
  { split; [by rewrite length_replicate|]. split; [done|]. split; [lia|].
    intros p Hp _. apply lookup_replicate_2. lia. }
  unfold Py.range in Hmk. rewrite Hplace in Hmk. simpl in Hmk.
  injection Hmk as <-. simpl.
  destruct Hinv as (_ & _ & Hplaced & _). apply Hplaced. lia.
Qed.

(** X1: when the interleave and the sector count have no common factor
    the [while] loop of the constructor never has to step: the map has
    one entry per sector, and logical sector [i] lies at physical
    position [(i * interleave) % nsec]. *)
Theorem coprime_stride_positions (cyl head : Z)
    (config : MacGCRTrackFormat.t) (nsec : Z) (t : MacGCR.t) :
  MacGCRTrackFormat.secs config = Some nsec →
  0 < nsec →
  Z.gcd (MacGCRTrackFormat.interleave config) nsec = 1 →
  mk_track config cyl head = Ok t →
  length (MacGCR.sec_map t) = Z.to_nat nsec
  ∧ ∀ i, 0 ≤ i < nsec →
      MacGCR.sec_map t
        !! Z.to_nat ((i * MacGCRTrackFormat.interleave config) mod nsec)
      = Some i.
Proof.
  intros Hsecs Hpos Hgcd Hmk. split.
  - destruct (init_total cyl head config nsec Hsecs) as (m & Hinit & Hperm).
    unfold mk_track in Hmk. rewrite Hinit in Hmk. injection Hmk as <-.
    simpl. by rewrite Hperm, range_length.
  - by eapply init_coprime.
Qed.

(** X2: with the interleave of 1 a configuration starts with, the
    interleave map is [range(nsec)] itself: physical and logical order
    agree. *)
Theorem default_interleave_is_identity (cyl head : Z)
    (config : MacGCRTrackFormat.t) (nsec : Z) (t : MacGCR.t) :
  MacGCRTrackFormat.secs config = Some nsec →
  MacGCRTrackFormat.interleave config = 1 →
  mk_track config cyl head = Ok t →
  MacGCR.sec_map t = Py.range nsec.
Proof.
  intros Hsecs Hil Hmk.
  destruct (init_total cyl head config nsec Hsecs) as (m & Hinit & Hperm).
  assert (length (MacGCR.sec_map t) = Z.to_nat nsec) as Hlen.
  { unfold mk_track in Hmk. rewrite Hinit in Hmk. injection Hmk as <-.
    simpl. by rewrite Hperm, range_length. }
  apply list_eq_same_length with (Z.to_nat nsec);
    [apply range_length | done |].
  intros k x y Hk Hx Hy.
  rewrite range_lookup in Hy by done. injection Hy as <-.
  pose proof (init_coprime cyl head config nsec t Hsecs) as Hat.
  rewrite Hil in Hat.
  specialize (Hat ltac:(lia) (Z.gcd_1_l nsec) Hmk (Z.of_nat k) ltac:(lia)).
  rewrite Z.mul_1_r, Z.mod_small, Nat2Z.id in Hat by lia. congruence.
Qed.

(** ** The interleave map for any stride *)

Lemma next_free_Ok_inv (fuel : nat) (m : list Z) (nsec pos p : Z) :
  MacGCR.next_free fuel m nsec pos = Ok p → Py.index m p = Ok (-1).
Proof.
  revert pos. induction fuel as [|fuel IH]; intros pos; simpl;
    destruct (Py.index m pos) as [v|e] eqn:Hidx; simpl; try done;
    destruct (Z.eqb_spec v (-1)) as [->|Hne]; simpl; try done;
    try (intros [= <-]; done).
  destruct (Py.mod_ (pos + 1) nsec) as [pos'|e]; simpl; [apply IH|done].
Qed.

(** The slot [setitem] writes is the one [index] reads. *)
Lemma setitem_at_index {A} (l l' : list A) (i : Z) (x y : A) :
  Py.index l i = Ok x → Py.setitem l i y = Ok l' →
  ∃ k, l !! k = Some x ∧ l' = <[k := y]> l.
Proof.
  unfold Py.index, Py.setitem.
  set (i' := if 0 <=? i then i else Z.of_nat (length l) + i).
  destruct (0 <=? i'); [|done].
  destruct (l !! Z.to_nat i') as [x'|] eqn:Hx; [|done].
  intros [= <-]. simpl. destruct (i' <? _); [|done].
  intros [= <-]. by exists (Z.to_nat i').
Qed.

(** The loop only writes free positions: what it has placed stays. *)
Lemma place_keeps (ids : list Z) (nsec interleave : Z) (m m' : list Z)
    (pos pos' : Z) (q : nat) (v : Z) :
  MacGCR.place ids nsec interleave m pos = Ok (m', pos') →
  m !! q = Some v → v ≠ -1 → m' !! q = Some v.
Proof.
  revert m pos. induction ids as [|i ids IH]; intros m pos; simpl.
  - by intros [= <- <-].
  - destruct (MacGCR.next_free _ m nsec pos) as [p|e] eqn:Hp; [|done]. simpl.
    destruct (Py.setitem m p i) as [m1|e] eqn:Hset; [|done]. simpl.
    destruct (Py.mod_ (p + interleave) nsec) as [p1|e]; [|done]. simpl.
    intros Hplace Hq Hv. apply (IH _ _ Hplace); [|done].
    apply next_free_Ok_inv in Hp.
    destruct (setitem_at_index _ _ _ _ _ Hp Hset) as (k & Hk & ->).
    rewrite list_lookup_insert_ne; [done|]. intros ->. congruence.
Qed.

(** X3: the constructor returns for every sector count and every
    interleave, zero and negative ones included: the table has
    [nsec] empty slots (none when [nsec] is not positive), the
    interleave map is a rearrangement of [range(nsec)], and logical
    sector 0 is at physical position 0. *)
Theorem construction_for_any_stride (cyl head : Z)
    (config : MacGCRTrackFormat.t) (nsec : Z) :
  MacGCRTrackFormat.secs config = Some nsec →
  ∃ t, mk_track config cyl head = Ok t
    ∧ MacGCR.sector t = replicate (Z.to_nat nsec) None
    ∧ MacGCR.sec_map t ≡ₚ Py.range nsec
    ∧ (0 < nsec → MacGCR.sec_map t !! 0%nat = Some 0).
Proof.
  intros Hsecs.
  destruct (init_total cyl head config nsec Hsecs) as (m & Hinit & Hperm).
  eexists. split; [exact Hinit|]. split; [done|]. split; [done|].
  intros Hpos. cbn [MacGCR.sec_map].
  unfold MacGCR.__init__ in Hinit. rewrite Hsecs in Hinit.
  destruct (MacGCR.place _ _ _ _ _) as [[m' pos']|e] eqn:Hplace; [|done].
  simpl in Hinit. injection Hinit as ->.
  unfold Py.range in Hplace.
  destruct (Z.to_nat nsec) as [|k] eqn:Hk; [lia|].
  cbn [seq fmap list_fmap MacGCR.place] in Hplace.
  rewrite (next_free_at_free _ _ _ 0), result_bind_ret in Hplace by done.
  rewrite setitem_Ok, result_bind_ret in Hplace
    by (rewrite length_replicate; lia).
  rewrite mod_Ok, result_bind_ret in Hplace by lia.
  by apply (place_keeps _ _ _ _ _ _ _ 0%nat 0 Hplace).
Qed.

(** ** The sector table *)

Lemma has_sec_run (sec_id : Z) (s : MacGCR.t) :
  MacGCR.has_sec sec_id s
  = (sec ← Py.index (MacGCR.sector s) sec_id; Ok (bool_decide (sec ≠ None)),
     s, []).
Proof.
  unfold MacGCR.has_sec. rewrite run_bind_get.
  destruct (Py.index _ _) as [sec|e];
    [by rewrite run_bind_lift_Ok | by rewrite run_bind_lift_Raise].
Qed.

Lemma summary_string_run (s : MacGCR.t) :
  MacGCR.summary_string s
  = (Ok ("Macintosh GCR (" +:+ pretty (MacGCR.nsec s - missing s) +:+ "/"
         +:+ pretty (MacGCR.nsec s) +:+ " sectors)"), s, []).
Proof.
  unfold MacGCR.summary_string. rewrite run_bind_get.
  erewrite run_bind_silent by apply nr_missing_run. done.
Qed.

(** X4: a table as the constructor returns it has nothing in it:
    [nr_missing] is the sector count, the summary reads
    [0/nsec sectors], and [has_sec] is false for every sector. *)
Theorem fresh_table_is_empty (cyl head : Z)
    (config : MacGCRTrackFormat.t) (nsec : Z) :
  MacGCRTrackFormat.secs config = Some nsec →
  0 ≤ nsec →
  ∃ t, mk_track config cyl head = Ok t
    ∧ MacGCR.nr_missing t = (Ok nsec, t, [])
    ∧ MacGCR.summary_string t
      = (Ok ("Macintosh GCR (0/" +:+ pretty nsec +:+ " sectors)"), t, [])
    ∧ ∀ sec_id, 0 ≤ sec_id < nsec →
        MacGCR.has_sec sec_id t = (Ok false, t, []).
Proof.
  intros Hsecs Hpos.
  destruct (init_total cyl head config nsec Hsecs) as (m & Hinit & _).
  eexists. split; [exact Hinit|].
  assert (∀ t, MacGCR.sector t = replicate (Z.to_nat nsec) None →
               missing t = nsec) as Hmissing.
  { intros t Ht. unfold missing. rewrite Ht, filter_None_replicate. lia. }
  split; [|split].
  - rewrite nr_missing_run. fold (missing (MacGCR.mk cyl head config nsec
      (MacGCRTrackFormat.clock config) (replicate (Z.to_nat nsec) None) m)).
    by rewrite Hmissing.
  - rewrite summary_string_run, Hmissing by done.
    cbn [MacGCR.nsec]. by rewrite Z.sub_diag.
  - intros sec_id Hid. rewrite has_sec_run. cbn [MacGCR.sector].
    rewrite (index_Ok _ _ None); [done|lia|].
    apply lookup_replicate_2. lia.
Qed.

Lemma missing_insert (l : list (option bytes)) (i : nat) (data : bytes) :
  l !! i = Some None →
  (length (filter (λ sec, sec = None) (<[i := Some data]> l))
   = length (filter (λ sec, sec = None) l) - 1)%nat
  ∧ (0 < length (filter (λ sec, sec = None) l))%nat.
Proof.
  intros Hi. pose proof (lookup_lt_Some _ _ _ Hi) as Hlt.
  pose proof (take_drop_middle l i None Hi) as Hl.
  rewrite insert_take_drop by done.
  remember (take i l) as l1 eqn:Hl1. remember (drop (S i) l) as l2 eqn:Hl2.
  rewrite <- Hl.
  rewrite !filter_app, filter_cons_False, filter_cons_True by done.
  rewrite !length_app, length_cons. lia.
Qed.

(** X5: [add] on an empty slot stores the buffer there and nowhere
    else: [has_sec] then answers true for that sector, one sector fewer
    is missing, and a second [add] of the same sector is refused with
    an [AssertionError]. *)
Theorem add_fills_one_slot (s : MacGCR.t) (sec_id : Z) (data : bytes) :
  0 ≤ sec_id →
  MacGCR.sector s !! Z.to_nat sec_id = Some None →
  ∃ s',
    MacGCR.add sec_id data s = (Ok (), s', [])
    ∧ MacGCR.sector s' !! Z.to_nat sec_id = Some (Some data)
    ∧ (∀ i, i ≠ Z.to_nat sec_id →
         MacGCR.sector s' !! i = MacGCR.sector s !! i)
    ∧ MacGCR.has_sec sec_id s' = (Ok true, s', [])
    ∧ MacGCR.nr_missing s' = (Ok (missing s - 1), s', [])
    ∧ ∀ data', MacGCR.add sec_id data' s' = (Raise AssertionError, s', []).
Proof.
  intros Hid Hslot. pose proof (lookup_lt_Some _ _ _ Hslot) as Hlt.
  assert (<[Z.to_nat sec_id := Some data]> (MacGCR.sector s)
            !! Z.to_nat sec_id = Some (Some data)) as Hnew
    by (by apply list_lookup_insert_eq).
  eexists. split; [|split; [|split; [|split; [|split]]]].
  - rewrite add_run, (index_Ok _ _ _ Hid Hslot), setitem_Ok by lia. done.
  - done.
  - intros i Hne. cbn [MacGCR.with_sector MacGCR.sector].
    by rewrite list_lookup_insert_ne.
  - rewrite has_sec_run. cbn [MacGCR.with_sector MacGCR.sector].
    by rewrite (index_Ok _ _ _ Hid Hnew).
  - rewrite nr_missing_run. cbn [MacGCR.with_sector MacGCR.sector].
    destruct (missing_insert _ _ data Hslot) as [-> Hpos].
    unfold missing. do 3 f_equal. lia.
  - intros data'. rewrite add_run. cbn [MacGCR.with_sector MacGCR.sector].
    by rewrite (index_Ok _ _ _ Hid Hnew).
Qed.

(** X6: [has_sec] indexes the table as a Python list: an id from
    [len] upwards or below [-len] raises [IndexError] rather than
    answering false, and a negative id down to [-len] answers for the
    slot counted from the end. *)
Theorem has_sec_bounds (s : MacGCR.t) (sec_id : Z) :
  let len := Z.of_nat (length (MacGCR.sector s)) in
  (len ≤ sec_id ∨ sec_id < - len →
     MacGCR.has_sec sec_id s = (Raise IndexError, s, []))
  ∧ (- len ≤ sec_id < len →
     ∃ b, MacGCR.has_sec sec_id s = (Ok b, s, [])
          ∧ (b = false
             ↔ MacGCR.sector s !! Z.to_nat (sec_id mod len) = Some None)).
Proof.
  intros len. split.
  - intros Hout. rewrite has_sec_run. unfold Py.index. fold len.
    destruct (Z.leb_spec 0 sec_id).
    + destruct (Z.leb_spec 0 sec_id); [|lia].
      rewrite lookup_ge_None_2 by lia. done.
    + destruct (Z.leb_spec 0 (len + sec_id)); [lia|done].
  - intros Hin. rewrite has_sec_run. unfold Py.index. fold len.
    assert ((if 0 <=? sec_id then sec_id else len + sec_id) = sec_id mod len)
      as ->.
    { destruct (Z.leb_spec 0 sec_id).
      - by rewrite Z.mod_small by lia.
      - apply Z.mod_unique with (-1); lia. }
    assert (0 ≤ sec_id mod len < len) as Hmod by (apply Z.mod_pos_bound; lia).
    destruct (Z.leb_spec 0 (sec_id mod len)); [|lia].
    destruct (lookup_lt_is_Some_2 (MacGCR.sector s) (Z.to_nat (sec_id mod len)))
      as [sec Hsec]; [lia|].
    rewrite Hsec. simpl. eexists. split; [done|].
    destruct sec as [b|].
    + rewrite bool_decide_eq_true_2 by done. split; [done|]. congruence.
    + rewrite bool_decide_eq_false_2 by (intros Hne; by apply Hne). done.
Qed.

(** ** The image adapter *)

Lemma bad_sector_length : length bad_sector = 512%nat.
Proof. reflexivity. Qed.

Lemma img_span_length (sec : option bytes) :
  (∀ data : bytes, sec = Some data → length data = 524%nat) →
  length (img_span sec) = 512%nat.
Proof.
  destruct sec as [data|]; simpl; intros Hlen; [|done].
  rewrite length_drop, (Hlen data) by done. done.
Qed.

(** X7: when every buffer in the table has 524 bytes, [get_img_track]
    returns 512 bytes per slot, in slot order: the buffer without its
    12 tag bytes for a sector that is there, and the [BAD SECTOR]
    pattern for one that is missing. *)
Theorem export_marks_missing_sectors (s : MacGCR.t) :
  whole_sectors (MacGCR.sector s) →
  ∃ tdat,
    MacGCR.get_img_track s = (Ok tdat, s, [])
    ∧ length tdat = (512 * length (MacGCR.sector s))%nat
    ∧ ∀ (k : nat) (sec : option bytes), MacGCR.sector s !! k = Some sec →
        take 512 (drop (512 * k) tdat)
        = match sec with Some data => drop 12 data | None => bad_sector end.
Proof.
  intros Hwhole. eexists. split; [apply get_img_track_run|].
  fold img_span.
  assert (Forall (λ r, length r = 512%nat) (img_span <$> MacGCR.sector s))
    as Hspans.
  { apply Forall_fmap. eapply Forall_impl; [exact Hwhole|].
    intros sec Hsec. by apply img_span_length. }
  split.
  - change (length (mjoin (img_span <$> MacGCR.sector s))
            = (512 * length (MacGCR.sector s))%nat).
    by rewrite (join_length_uniform _ 512), length_fmap.
  - intros k sec Hk.
    assert ((img_span <$> MacGCR.sector s) !! k = Some (img_span sec)) as Hspan
      by (by rewrite list_lookup_fmap, Hk).
    pose proof (record_at [] [] (img_span <$> MacGCR.sector s)
                  512 k 0 512 (img_span sec) Hspans Hspan ltac:(lia)) as Hat.
    rewrite app_nil_r, Nat.add_0_r in Hat. cbn [length app Nat.add] in Hat.
    change (take 512 (drop (512 * k) (mjoin (img_span <$> MacGCR.sector s)))
            = img_span sec).
    rewrite Hat, drop_0. apply take_ge.
    by rewrite (Forall_lookup_1 _ _ k (img_span sec) Hspans).
Qed.

Lemma img_padded_ge (nsec : Z) (tdat : bytes) :
  nsec * 512 ≤ Z.of_nat (length (img_padded nsec tdat)).
Proof.
  unfold img_padded, Py.zeros.
  destruct (Z.ltb_spec (Z.of_nat (length tdat)) (nsec * 512)); [|done].
  rewrite length_app, length_replicate. lia.
Qed.

Lemma img_sector_length (tdat : bytes) (sec : Z) :
  0 ≤ sec → (sec + 1) * 512 ≤ Z.of_nat (length tdat) →
  length (img_sector tdat sec) = 524%nat.
Proof.
  intros Hsec Hlen. unfold img_sector, Py.zeros.
  rewrite length_app, length_replicate, slice_nonneg by lia.
  rewrite length_take, length_drop. lia.
Qed.

Lemma img_sectors_join_take (nsec : Z) (tdat : bytes) :
  mjoin (img_span <$> ((λ sec, Some (img_sector tdat sec)) <$> Py.range nsec))
  = take (Z.to_nat nsec * 512) tdat.
Proof.
  unfold Py.range. rewrite <- !list_fmap_compose.
  rewrite <- (chunks_join tdat 512). f_equal. apply list_fmap_ext.
  intros _ k _. simpl. rewrite drop_0.
  rewrite slice_nonneg by lia. f_equal; [lia|]. f_equal. lia.
Qed.

(** X8: an image longer than the track is cut, not refused:
    [set_img_track] stores its first [nsec * 512] bytes, and
    [get_img_track] returns exactly those. *)
Theorem import_cuts_long_image (s : MacGCR.t) (tdat : bytes) :
  table_shape s →
  MacGCR.nsec s * 512 ≤ Z.of_nat (length tdat) →
  ∃ s',
    MacGCR.set_img_track tdat s = (Ok (MacGCR.nsec s * 512), s', [])
    ∧ MacGCR.get_img_track s'
      = (Ok (take (Z.to_nat (MacGCR.nsec s * 512)) tdat), s', []).
Proof.
  intros Hshape Hlen. eexists. split; [by apply set_img_track_run|].
  rewrite get_img_track_run. cbn [MacGCR.with_sector MacGCR.sector].
  fold img_span. rewrite img_sectors_join_take.
  unfold img_padded. destruct (Z.ltb_spec (Z.of_nat (length tdat))
                                 (MacGCR.nsec s * 512)); [lia|].
  by replace (Z.to_nat (MacGCR.nsec s) * 512)%nat
    with (Z.to_nat (MacGCR.nsec s * 512)) by lia.
Qed.

(** X9: whatever the table held and however long the image is,
    [set_img_track] leaves every slot with a buffer of 524 bytes that
    starts with 12 zero bytes; the buffers depend on the image and the
    sector count only, not on what the slots held before. *)
Theorem import_fills_every_slot (s : MacGCR.t) (tdat : bytes) :
  table_shape s →
  ∃ s',
    MacGCR.set_img_track tdat s = (Ok (MacGCR.nsec s * 512), s', [])
    ∧ length (MacGCR.sector s') = length (MacGCR.sector s)
    ∧ populated (MacGCR.sector s')
    ∧ (∀ k data, MacGCR.sector s' !! k = Some (Some data) →
         take 12 data = Py.zeros 12)
    ∧ ∀ s2, table_shape s2 → MacGCR.nsec s2 = MacGCR.nsec s →
        MacGCR.sector (MacGCR.set_img_track tdat s2).1.2 = MacGCR.sector s'.
Proof.
  intros Hshape. eexists. split; [by apply set_img_track_run|].
  cbn [MacGCR.with_sector MacGCR.sector].
  split; [|split; [|split]].
  - by rewrite length_fmap, range_length.
  - apply Forall_fmap, Forall_forall. intros sec Hsec.
    apply elem_of_range in Hsec. eexists. split; [done|].
    apply img_sector_length; [lia|].
    pose proof (img_padded_ge (MacGCR.nsec s) tdat). lia.
  - intros k data Hk. apply list_lookup_fmap_Some in Hk as (sec & Heq & _).
    injection Heq as ->. unfold img_sector.
    by rewrite take_app_length' by (unfold Py.zeros; by rewrite length_replicate).
  - intros s2 Hshape2 Hnsec.
    rewrite set_img_track_run by done. cbn [fst snd MacGCR.with_sector MacGCR.sector].
    by rewrite Hnsec.
Qed.

(** ** The track configuration *)

Lemma int_of_float_not_Fatal (x : float) (desc : string) :
  Py.int_of_float x ≠ Raise (Fatal desc).
Proof. unfold Py.int_of_float. by destruct (Prim2SF x) as [| | |[] ? ?]. Qed.

Lemma float_of_int_not_Fatal (z : Z) (desc : string) :
  Py.float_of_int z ≠ Raise (Fatal desc).
Proof. unfold Py.float_of_int. by destruct (binary_normalize _ _ _ _ _). Qed.

Lemma add_param_Ok_inv (c c' : MacGCRTrackFormat.t) (key : string)
    (val : Py.value) :
  MacGCRTrackFormat.add_param c key val = Ok c' →
  (key = "secs"%string
   ∧ ∃ n, Py.int val = Ok n
       ∧ c' = MacGCRTrackFormat.mk (Some n) (MacGCRTrackFormat.clock c)
                (MacGCRTrackFormat.interleave c) (MacGCRTrackFormat.finalised c))
  ∨ (key = "clock"%string
     ∧ ∃ f, Py.float val = Ok f
         ∧ c' = MacGCRTrackFormat.mk (MacGCRTrackFormat.secs c)
                  (Some (f * MacGCRTrackFormat.micro)%float)
                  (MacGCRTrackFormat.interleave c)
                  (MacGCRTrackFormat.finalised c))
  ∨ (key = "interleave"%string
     ∧ ∃ n, Py.int val = Ok n
         ∧ c' = MacGCRTrackFormat.mk (MacGCRTrackFormat.secs c)
                  (MacGCRTrackFormat.clock c) n
                  (MacGCRTrackFormat.finalised c)).
Proof.
  unfold MacGCRTrackFormat.add_param.
  destruct (String.eqb_spec key "secs") as [->|_].
  { destruct (Py.int val) as [n|e]; [|done]. intros [= <-]. left. eauto. }
  destruct (String.eqb_spec key "clock") as [->|_].
  { destruct (Py.float val) as [f|e]; [|done]. intros [= <-].
    right; left. eauto. }
  destruct (String.eqb_spec key "interleave") as [->|_]; [|done].
  destruct (Py.int val) as [n|e]; [|done]. intros [= <-].
  right; right. eauto.
Qed.

(** X10: [add_param] raises [Fatal] with the message
    [unrecognised track option <key>] exactly when the key is none of
    [secs], [clock] and [interleave]; no value makes a recognised key
    fail that way. *)
Theorem add_param_unknown_key (self : MacGCRTrackFormat.t) (key : string)
    (val : Py.value) :
  MacGCRTrackFormat.add_param self key val
    = Raise (Fatal ("unrecognised track option " +:+ key))
  ↔ key ≠ "secs"%string ∧ key ≠ "clock"%string ∧ key ≠ "interleave"%string.
Proof.
  unfold MacGCRTrackFormat.add_param.
  destruct (String.eqb_spec key "secs") as [->|Hs].
  { split; [|by intros (? & _)]. destruct val as [z|f]; simpl; [done|].
    destruct (Py.int_of_float f) as [n|e] eqn:Hf; [done|].
    intros [= ->]. by apply int_of_float_not_Fatal in Hf. }
  destruct (String.eqb_spec key "clock") as [->|Hc].
  { split; [|by intros (_ & ? & _)]. destruct val as [z|f]; simpl; [|done].
    destruct (Py.float_of_int z) as [n|e] eqn:Hf; [done|].
    intros [= ->]. by apply float_of_int_not_Fatal in Hf. }
  destruct (String.eqb_spec key "interleave") as [->|Hi].
  { split; [|by intros (_ & _ & ?)]. destruct val as [z|f]; simpl; [done|].
    destruct (Py.int_of_float f) as [n|e] eqn:Hf; [done|].
    intros [= ->]. by apply int_of_float_not_Fatal in Hf. }
  done.
Qed.

(** X11: options with different keys do not interfere: given in
    either order they lead to the same configuration, and neither
    touches the [finalised] flag. *)
Theorem add_param_order_independent (c c1 c2 : MacGCRTrackFormat.t)
    (key1 key2 : string) (val1 val2 : Py.value) :
  key1 ≠ key2 →
  MacGCRTrackFormat.add_param c key1 val1 = Ok c1 →
  MacGCRTrackFormat.add_param c key2 val2 = Ok c2 →
  ∃ c',
    MacGCRTrackFormat.add_param c1 key2 val2 = Ok c'
    ∧ MacGCRTrackFormat.add_param c2 key1 val1 = Ok c'
    ∧ MacGCRTrackFormat.finalised c' = MacGCRTrackFormat.finalised c.
Proof.
  intros Hne H1 H2.
  apply add_param_Ok_inv in H1 as [(-> & n1 & Hv1 & ->)
    |[(-> & n1 & Hv1 & ->)|(-> & n1 & Hv1 & ->)]];
  apply add_param_Ok_inv in H2 as [(-> & n2 & Hv2 & ->)
    |[(-> & n2 & Hv2 & ->)|(-> & n2 & Hv2 & ->)]];
  try done;
  eexists; unfold MacGCRTrackFormat.add_param; cbn [String.eqb Ascii.eqb Bool.eqb];
  rewrite Hv1, Hv2; done.
Qed.

Lemma finalise_Ok_inv (c c' : MacGCRTrackFormat.t) :
  MacGCRTrackFormat.finalise c = Ok c' →
  (MacGCRTrackFormat.finalised c = true ∧ c' = c)
  ∨ (MacGCRTrackFormat.secs c ≠ None ∧ MacGCRTrackFormat.clock c ≠ None
     ∧ c' = MacGCRTrackFormat.mk (MacGCRTrackFormat.secs c)
              (MacGCRTrackFormat.clock c) (MacGCRTrackFormat.interleave c)
              true).
Proof.
  unfold MacGCRTrackFormat.finalise, MacGCRTrackFormat.check.
  destruct (MacGCRTrackFormat.finalised c); [intros [= <-]; by left|].
  destruct (decide (MacGCRTrackFormat.secs c = None)) as [Hs|Hs].
  { rewrite (bool_decide_eq_false_2 (MacGCRTrackFormat.secs c ≠ None))
      by (intros Hne; by apply Hne). by simpl. }
  rewrite (bool_decide_eq_true_2 (MacGCRTrackFormat.secs c ≠ None)) by done.
  destruct (decide (MacGCRTrackFormat.clock c = None)) as [Hc|Hc].
  { rewrite (bool_decide_eq_false_2 (MacGCRTrackFormat.clock c ≠ None))
      by (intros Hne; by apply Hne). by simpl. }
  rewrite (bool_decide_eq_true_2 (MacGCRTrackFormat.clock c ≠ None)) by done.
  simpl.
  intros [= <-]. by right.
Qed.

(** X12: a second [finalise] changes nothing, and [finalise] never
    alters the sector count, the clock or the interleave. *)
Theorem finalise_idempotent (c c' : MacGCRTrackFormat.t) :
  MacGCRTrackFormat.finalise c = Ok c' →
  MacGCRTrackFormat.finalise c' = Ok c'
  ∧ MacGCRTrackFormat.finalised c' = true
  ∧ MacGCRTrackFormat.secs c' = MacGCRTrackFormat.secs c
  ∧ MacGCRTrackFormat.clock c' = MacGCRTrackFormat.clock c
  ∧ MacGCRTrackFormat.interleave c' = MacGCRTrackFormat.interleave c.
Proof.
  intros Hfinal.
  apply finalise_Ok_inv in Hfinal as [[Hfin ->]|(Hs & Hc & ->)].
  - unfold MacGCRTrackFormat.finalise. by rewrite Hfin.
  - done.
Qed.

(** X13: through [add_param] and [finalise] a configuration can only
    become finalised with a sector count and a clock, and no later
    option removes them: from a finalised configuration [mk_track]
    always returns a table, with that sector count and that clock. *)
Theorem finalised_has_secs_and_clock (c : MacGCRTrackFormat.t)
    (cyl head : Z) :
  configured c →
  MacGCRTrackFormat.finalised c = true →
  ∃ nsec clock t,
    MacGCRTrackFormat.secs c = Some nsec
    ∧ MacGCRTrackFormat.clock c = Some clock
    ∧ mk_track c cyl head = Ok t
    ∧ MacGCR.nsec t = nsec
    ∧ MacGCR.clock t = Some clock.
Proof.
  intros Hconf Hfin.
  assert (MacGCRTrackFormat.secs c ≠ None ∧ MacGCRTrackFormat.clock c ≠ None)
    as [Hsecs Hclock].
  { induction Hconf as [name|c c' key val _ IH Hadd|c c' _ IH Hfinal].
    - done.
    - apply add_param_Ok_inv in Hadd
        as [(-> & n & _ & ->)|[(-> & n & _ & ->)|(-> & n & _ & ->)]];
        simpl in *; specialize (IH Hfin); by destruct IH.
    - apply finalise_Ok_inv in Hfinal as [[Hc ->]|(Hs & Hc & ->)];
        [by apply IH | done]. }
  destruct (MacGCRTrackFormat.secs c) as [nsec|] eqn:Hs; [|done].
  destruct (MacGCRTrackFormat.clock c) as [clock|] eqn:Hc; [|done].
  destruct (init_total cyl head c nsec Hs) as (m & Hinit & _).
  exists nsec, clock. eexists. split; [done|]. split; [done|].
  split; [exact Hinit|]. by rewrite Hc.
Qed.

(** ** The track decoder on partial and repeated input *)

Lemma tobytes_n_length (n : nat) (bits : bitarray) :
  length (tobytes_n n bits) = n.
Proof.
  revert bits. induction n as [|n IH]; intros bits; [done|].
  simpl. by rewrite IH.
Qed.

Lemma tobytes_length (bits : bitarray) :
  length (tobytes bits) = ((length bits + 7) / 8)%nat.
Proof. apply tobytes_n_length. Qed.

Lemma slice_length_le {A} (l : list A) (a b : Z) :
  0 ≤ a → a ≤ b →
  Z.of_nat (length (Py.slice l a b)) ≤ Z.max 0 (Z.of_nat (length l) - a).
Proof.
  intros Ha Hab. rewrite slice_nonneg by done.
  rewrite length_take, length_drop. lia.
Qed.

Lemma search_nonneg (bits pat : bitarray) (offs : Z) :
  offs ∈ search bits pat → 0 ≤ offs.
Proof.
  unfold search. intros (k & -> & _)%list_elem_of_fmap. lia.
Qed.

Lemma index_Raise {A} (l : list A) (i : Z) (e : exn) :
  Py.index l i = Raise e → e = IndexError.
Proof.
  unfold Py.index. destruct (0 <=? _); [|congruence].
  destruct (l !! _); congruence.
Qed.

Lemma setitem_Raise {A} (l : list A) (i : Z) (x : A) (e : exn) :
  Py.setitem l i x = Raise e → e = IndexError.
Proof. unfold Py.setitem. destruct (_ && _); congruence. Qed.

Lemma add_Raise (sec_id : Z) (data : bytes) (s s' : MacGCR.t) (e : exn) out :
  MacGCR.add sec_id data s = (Raise e, s', out) →
  e = AssertionError ∨ e = IndexError.
Proof.
  rewrite add_run.
  destruct (Py.index _ _) as [[sec|]|e0] eqn:Hidx.
  - intros [= <- _ _]. by left.
  - destruct (Py.setitem _ _ _) as [l|e0] eqn:Hset; [done|].
    intros [= <- _ _]. right. by eapply setitem_Raise.
  - intros [= <- _ _]. right. by eapply index_Raise.
Qed.

Lemma for_each_Raise {A} (body : A → MacGCR.M MacGCR.ctl) (l : list A)
    (s s' : MacGCR.t) (e : exn) out :
  MacGCR.for_each l body s = (Raise e, s', out) →
  ∃ x s0 s1 out1, x ∈ l ∧ body x s0 = (Raise e, s1, out1).
Proof.
  revert s s' out. induction l as [|x l IH]; intros s s' out; [done|].
  rewrite for_each_cons.
  destruct (body x s) as [[[[|]|e0] s1] out1] eqn:Hbody.
  - destruct (MacGCR.for_each l body s1) as [[r s2] out2] eqn:Hrest.
    intros [= -> _ _].
    destruct (IH _ _ _ Hrest) as (y & s0 & s3 & out3 & Hy & Hraise).
    exists y, s0, s3, out3. split; [by apply list_elem_of_further|done].
  - done.
  - intros [= <- _ _]. exists x, s, s1, out1.
    split; [apply list_elem_of_here|done].
Qed.

Lemma missing_extends (l l' : list (option bytes)) :
  length l' = length l →
  (∀ i b, l !! i = Some (Some b) → l' !! i = Some (Some b)) →
  (length (filter (λ sec, sec = None) l')
   ≤ length (filter (λ sec, sec = None) l))%nat.
Proof.
  revert l'. induction l as [|x l IH]; intros [|x' l'] Hlen Hkeep;
    try done.
  assert (length (filter (λ sec, sec = None) l')
          ≤ length (filter (λ sec, sec = None) l))%nat as Htail.
  { apply IH; [by injection Hlen|]. intros i b Hi. by apply (Hkeep (S i)). }
  destruct x' as [b'|].
  - rewrite (filter_cons_False _ (Some b')) by done.
    destruct x; [by rewrite filter_cons_False|].
    rewrite filter_cons_True by done. simpl. lia.
  - destruct x as [b|]; [by specialize (Hkeep 0%nat b eq_refl)|].
    rewrite !filter_cons_True by done. simpl. lia.
Qed.

Section DecoderEdges.
Context `{Optimised} `{RawTrack}.

(** X14: [decode_raw] is aimed at missing sectors only: on a table
    with nothing missing, and on a capture without a single sector sync
    mark, it returns at once and changes and prints nothing. *)
Theorem decode_raw_nothing_to_do (track : Flux) (s : MacGCR.t) :
  MacGCR.nr_missing s = (Ok 0, s, [])
  ∨ itersearch (get_all_data MacGCR.time_per_rev (MacGCR.clock s) track)
      sector_sync = [] →
  MacGCR.decode_raw track s = (Ok (), s, []).
Proof.
  intros Hcase. unfold MacGCR.decode_raw. rewrite run_bind_get.
  destruct Hcase as [Hm| ->]; [|done].
  apply decode_loop_complete. rewrite nr_missing_run in Hm.
  unfold missing. congruence.
Qed.

(** X15: a sector cut off by the end of the capture is passed over
    without an exception: with at most 32 bits after the sync mark
    there is no header to decode, and with at most 702 bytes after the
    data sync mark the sector is not stored (the byte decoder is taken
    to preserve lengths). *)
Theorem truncated_sector_is_skipped (bits : bitarray) (offs : Z)
    (s : MacGCR.t) :
  (∀ bs, length (decode_mac_gcr bs) = length bs) →
  0 ≤ offs →
  (Z.of_nat (length bits) ≤ offs + 3 * 8 + 32 →
     ∃ c, MacGCR.decode_sync bits offs s = (Ok c, s, []))
  ∧ (∀ dat_offs,
       search (data_window bits offs) data_sync = [dat_offs] →
       Z.of_nat (length bits)
         ≤ offs + 3 * 8 + 5 * 8 + dat_offs + 4 * 8 + 702 * 8 - 7 →
       ∃ c out, MacGCR.decode_sync bits offs s = (Ok c, s, out)).
Proof.
  intros Hgcr Hoffs. split.
  - intros Hshort. rewrite decode_sync_run.
    destruct (missing s =? 0); [by eexists|].
    assert (Z.of_nat (length (header_bytes bits offs)) ≠ 5) as H5.
    { unfold header_bytes. rewrite tobytes_length.
      pose proof (slice_length_le bits (offs + 3 * 8) (offs + 3 * 8 + 5 * 8)
                    ltac:(lia) ltac:(lia)) as Hle.
      assert (length (Py.slice bits (offs + 3 * 8) (offs + 3 * 8 + 5 * 8))
              ≤ 32)%nat as Hle' by lia.
      pose proof (Nat.Div0.div_le_mono _ _ 8 (proj1 (Nat.add_le_mono_r _ _ 7) Hle')).
      change ((32 + 7) / 8)%nat with 4%nat in *. lia. }
    destruct (Z.eqb_spec (Z.of_nat (length (header_bytes bits offs))) 5);
      [done|]. by eexists.
  - intros dat_offs Hsearch Hshort. rewrite decode_sync_run.
    destruct (missing s =? 0); [by do 2 eexists|].
    destruct (Z.eqb_spec (Z.of_nat (length (header_bytes bits offs))) 5)
      as [H5|H5]; simpl; [|by do 2 eexists].
    destruct (negb _); [by do 2 eexists|].
    assert (length (take 4 (decode_mac_gcr (header_bytes bits offs))) = 4%nat)
      as H4 by (rewrite length_take, Hgcr; lia).
    destruct (take 4 _) as [|b0 [|b1 [|b2 [|b3 [|]]]]]; try done.
    cbn [fmap list_fmap]. rewrite Hsearch.
    assert (0 ≤ dat_offs) as Hdat
      by (apply (search_nonneg (data_window bits offs) data_sync);
          rewrite Hsearch; apply list_elem_of_here).
    assert (Z.of_nat (length (data_bytes bits offs dat_offs)) ≠ 703) as H703.
    { unfold data_bytes. rewrite tobytes_length.
      match goal with |- context [Py.slice bits ?a ?b] =>
        pose proof (slice_length_le bits a b ltac:(lia) ltac:(lia)) as Hle;
        assert (length (Py.slice bits a b) ≤ 702 * 8 - 7)%nat as Hle' by lia
      end.
      pose proof (Nat.Div0.div_le_mono _ _ 8 (proj1 (Nat.add_le_mono_r _ _ 7) Hle')).
      change ((702 * 8 - 7 + 7) / 8)%nat with 702%nat in *. lia. }
    destruct (Z.eqb_spec (Z.of_nat (length (data_bytes bits offs dat_offs))) 703);
      [done|]. by do 2 eexists.
Qed.

(** X16: a second good copy of a sector the table already holds is not
    skipped while another sector is still missing: the store is refused
    with an [AssertionError], which ends the decoding of the track; the
    table stays as it was. *)
Theorem duplicate_sector_aborts (bits : bitarray) (offs : Z)
    (rest : list Z) (s : MacGCR.t) (cyl sec_id side fmt dat_offs : Z)
    (data stored : bytes) :
  missing s ≠ 0 →
  Z.of_nat (length (header_bytes bits offs)) = 5 →
  Py.xor_sum (decode_mac_gcr (header_bytes bits offs)) = 0 →
  Py.byte_val <$> take 4 (decode_mac_gcr (header_bytes bits offs))
    = [cyl; sec_id; side; fmt] →
  search (data_window bits offs) data_sync = [dat_offs] →
  Z.of_nat (length (data_bytes bits offs dat_offs)) = 703 →
  decode_mac_sector (decode_mac_gcr (data_bytes bits offs dat_offs))
    = (data, 0) →
  MacGCR.sector s !! Z.to_nat sec_id = Some (Some stored) →
  ∃ out,
    MacGCR.decode_sync bits offs s = (Raise AssertionError, s, out)
    ∧ MacGCR.for_each (offs :: rest) (MacGCR.decode_sync bits) s
      = (Raise AssertionError, s, out).
Proof.
  intros Hm H5 Hxor Hhdr Hsearch H703 Hdata Hslot.
  assert (0 ≤ sec_id) as Hid.
  { destruct (take 4 _) as [|b0 [|b1 l]]; try done.
    injection Hhdr as _ <- _. apply byte_val_range. }
  assert (∃ out, MacGCR.decode_sync bits offs s
                 = (Raise AssertionError, s, out)) as [out Hsync].
  { eexists. rewrite decode_sync_run.
    destruct (Z.eqb_spec (missing s) 0); [done|].
    rewrite H5. cbv zeta. rewrite Hxor, Hhdr, Hsearch. cbv zeta.
    rewrite H703, Hdata. simpl.
    rewrite add_run, (index_Ok _ _ _ Hid Hslot). reflexivity. }
  exists out. split; [done|]. by rewrite for_each_cons, Hsync.
Qed.

(** X17: [decode_raw] changes nothing of the table but the contents of
    its slots, on any input and whether it returns or raises: the
    track address, the configuration, the clock and the interleave map
    stay, the number of slots stays, and no sector goes missing. *)
Theorem decode_raw_frame (track : Flux) (s : MacGCR.t) :
  let s' := (MacGCR.decode_raw track s).1.2 in
  MacGCR.cyl s' = MacGCR.cyl s
  ∧ MacGCR.head s' = MacGCR.head s
  ∧ MacGCR.config s' = MacGCR.config s
  ∧ MacGCR.nsec s' = MacGCR.nsec s
  ∧ MacGCR.clock s' = MacGCR.clock s
  ∧ MacGCR.sec_map s' = MacGCR.sec_map s
  ∧ length (MacGCR.sector s') = length (MacGCR.sector s)
  ∧ missing s' ≤ missing s.
Proof.
  intros s'. destruct (decode_raw_extends track s) as (Heq & Hlen & Hkeep).
  fold s' in Heq, Hlen, Hkeep.
  do 6 (split; [by rewrite Heq|]).
  split; [done|]. unfold missing.
  apply inj_le. by apply missing_extends.
Qed.

Lemma decode_sync_Raise (bits : bitarray) (offs : Z) (s s' : MacGCR.t)
    (e : exn) out :
  MacGCR.decode_sync bits offs s = (Raise e, s', out) →
  e = AssertionError ∨ e = IndexError
  ∨ (e = ValueError
     ∧ length (header_bytes bits offs) = 5%nat
     ∧ (length (decode_mac_gcr (header_bytes bits offs)) < 4)%nat).
Proof.
  rewrite decode_sync_run.
  destruct (missing s =? 0); [done|].
  destruct (Z.eqb_spec (Z.of_nat (length (header_bytes bits offs))) 5)
    as [H5|H5]; simpl; [|done].
  destruct (negb _); [done|].
  destruct (take 4 (decode_mac_gcr (header_bytes bits offs)))
    as [|b0 [|b1 [|b2 [|b3 [|]]]]] eqn:Htake;
    cbn [fmap list_fmap];
    try (intros [= <- _ _]; right; right; split; [done|]; split; [lia|];
         apply (f_equal length) in Htake; rewrite length_take in Htake;
         cbn [length] in Htake; lia).
  destruct (search _ _) as [|d [|]]; try done.
  destruct (negb _); [done|].
  destruct (decode_mac_sector _) as [sec csum].
  destruct (negb _); [done|].
  destruct (MacGCR.add _ sec s) as [[[[]|e0] s0] out0] eqn:Hadd; [done|].
  intros [= <- _ _]. apply add_Raise in Hadd as [->| ->]; auto.
Qed.

(** X18: the only exceptions [decode_raw] raises are the
    [AssertionError] of a store into a slot that is taken, the
    [IndexError] of a sector id beyond the table, and the [ValueError]
    of a header decoded to fewer than four bytes, which a byte decoder
    that preserves lengths never causes. *)
Theorem decode_raw_exceptions (track : Flux) (s s' : MacGCR.t) (e : exn) out :
  MacGCR.decode_raw track s = (Raise e, s', out) →
  (e = AssertionError ∨ e = IndexError ∨ e = ValueError)
  ∧ ((∀ bs, length (decode_mac_gcr bs) = length bs) → e ≠ ValueError).
Proof.
  unfold MacGCR.decode_raw. rewrite run_bind_get. intros Hraise.
  apply for_each_Raise in Hraise as (offs & s0 & s1 & out1 & _ & Hsync).
  apply decode_sync_Raise in Hsync as [->|[->|(-> & H5 & H4)]].
  - split; [auto|done].
  - split; [auto|done].
  - split; [auto|]. intros Hgcr. rewrite Hgcr in H4. lia.
Qed.
End DecoderEdges.

(** ** The track encoder: sizes and headers *)

Lemma index_elem_of {A} (l : list A) (i : Z) (x : A) :
  Py.index l i = Ok x → x ∈ l.
Proof.
  unfold Py.index. destruct (0 <=? _); [|done].
  destruct (l !! _) as [y|] eqn:Hy; [|done].
  intros [= <-]. by eapply list_elem_of_lookup_2.
Qed.

Lemma bytes_of_ints_length (l : list Z) (bs : bytes) :
  Py.bytes_of_ints l = Ok bs → length bs = length l.
Proof.
  intros Hbs%bytes_of_ints_Ok. by rewrite <- Hbs, length_fmap.
Qed.

(** The header fields as unpacked from what the encoder packs. *)
Lemma header_cyl_packed (cyl head : Z) :
  header_cyl (Z.land cyl 0x3f) (Z.lor (Z.shiftl head 5) (Z.shiftr cyl 6))
  = cyl mod 128.
Proof.
  unfold header_cyl. apply Z.bits_inj'. intros n Hn.
  change 128 with (2 ^ 7). change 0x3f with (Z.ones 6).
  rewrite Z.lor_spec, Z.land_spec.
  destruct (Z.lt_ge_cases n 6) as [Hlow|Hhigh].
  - rewrite Z.ones_spec_low, Z.shiftl_spec_low, Z.mod_pow2_bits_low by lia.
    by rewrite andb_true_r, orb_false_r.
  - rewrite Z.ones_spec_high, andb_false_r, orb_false_l by lia.
    rewrite Z.shiftl_spec, Z.land_spec by lia.
    destruct (Z.eq_dec n 6) as [->|Hne].
    + rewrite Z.mod_pow2_bits_low by lia. change (6 - 6) with 0.
      change (Z.testbit 1 0) with true.
      rewrite andb_true_r, Z.lor_spec, Z.shiftl_spec_low, Z.shiftr_spec by lia.
      done.
    + rewrite Z.mod_pow2_bits_high by lia.
      change 1 with (Z.ones 1) at 1. rewrite Z.ones_spec_high by lia.
      apply andb_false_r.
Qed.

Lemma header_side_packed (cyl head : Z) :
  header_side (Z.lor (Z.shiftl head 5) (Z.shiftr cyl 6))
  = Z.lor head (Z.shiftr cyl 11).
Proof.
  unfold header_side.
  rewrite Z.shiftr_lor, Z.shiftr_shiftl_l, Z.shiftr_shiftr by lia.
  by rewrite Z.shiftl_0_r.
Qed.

Lemma lor_lt_pow2_inv (a b k : Z) :
  0 ≤ a → 0 ≤ b → 0 ≤ k → Z.lor a b < 2 ^ k → a < 2 ^ k ∧ b < 2 ^ k.
Proof.
  intros Ha Hb Hk Hlt.
  assert (0 < 2 ^ k) as Hpow by (by apply Z.pow_pos_nonneg).
  assert (0 ≤ Z.lor a b) as Hnn by (by apply Z.lor_nonneg).
  destruct (Z.eq_dec (Z.lor a b) 0) as [Hz|Hnz].
  { apply Z.lor_eq_0_iff in Hz as [-> ->]. done. }
  apply Z.log2_lt_pow2 in Hlt; [|lia]. rewrite Z.log2_lor in Hlt by done.
  split.
  - destruct (Z.eq_dec a 0) as [->|?]; [done|]. apply Z.log2_lt_pow2; lia.
  - destruct (Z.eq_dec b 0) as [->|?]; [done|]. apply Z.log2_lt_pow2; lia.
Qed.

Lemma padded_byte_length (content : bytes) (k : Z) :
  Z.of_nat (length (content ++ Py.fill x96 (k - Z.of_nat (length content))))
  = Z.max (Z.of_nat (length content)) k.
Proof. unfold Py.fill. rewrite length_app, length_replicate. lia. Qed.

Section Headers.
Context `{Optimised}.
Hypothesis gcr_length : ∀ bs, length (encode_mac_gcr bs) = length bs.

Lemma sector_record_header (s : MacGCR.t) (sec_id : Z) (r : bytes) :
  sector_record s sec_id = Ok r →
  ∃ hdr,
    length hdr = 5%nat
    ∧ Py.xor_sum hdr = 0
    ∧ Py.byte_val <$> take 4 hdr
      = [Z.land (MacGCR.cyl s) 0x3f; sec_id;
         Z.lor (Z.shiftl (MacGCR.head s) 5) (Z.shiftr (MacGCR.cyl s) 6); 0x22]
    ∧ take 5 (drop 39 r) = encode_mac_gcr hdr.
Proof.
  intros Hr. unfold sector_record in Hr.
  apply result_bind_Ok in Hr as (sector & _ & Hr). cbv zeta in Hr.
  apply result_bind_Ok in Hr as (hdr & Hhdr%bytes_of_ints_Ok & Hr).
  apply result_bind_Ok in Hr as (sum & Hsum%bytes_of_ints_Ok & Hr).
  apply result_bind_Ok in Hr as (sid & Hsid%bytes_of_ints_Ok & Hr).
  match type of Hr with
  | Ok ?x = Ok _ => assert (r = x) as -> by congruence
  end. clear Hr.
  assert (length hdr = 4%nat) as Hh4
    by (rewrite <- (length_fmap Py.byte_val), Hhdr; done).
  destruct sum as [|sb [|]]; try done. injection Hsum as Hsb.
  exists (hdr ++ [sb]).
  split; [rewrite length_app, Hh4; done|].
  split; [rewrite xor_sum_app; simpl; rewrite Hsb; apply Z.lxor_nilpotent|].
  split; [rewrite take_app_length' by done; exact Hhdr|].
  rewrite (app_assoc (Py.repeat_bytes self_sync_bytes 6)).
  apply segment_of_app; [done|]. by rewrite gcr_length, length_app, Hh4.
Qed.

(** What the success of the encoder says about the track address. *)
Lemma sector_record_address (s : MacGCR.t) (sec_id : Z) (r : bytes) :
  sector_record s sec_id = Ok r →
  0 ≤ MacGCR.cyl s < 16384 ∧ 0 ≤ MacGCR.head s < 8 ∧ sec_id < 256.
Proof.
  intros (hdr & _ & _ & Hfields & _)%sector_record_header.
  destruct (take 4 hdr) as [|b0 [|b1 [|b2 [|b3 [|]]]]]; try done.
  injection Hfields as _ Hid Hside _.
  pose proof (byte_val_range b2) as Hb2. rewrite Hside in Hb2.
  pose proof (byte_val_range b1) as Hb1. rewrite Hid in Hb1.
  destruct Hb2 as [Hnn Hlt].
  apply Z.lor_nonneg in Hnn as [Hhead%Z.shiftl_nonneg Hcyl%Z.shiftr_nonneg].
  destruct (lor_lt_pow2_inv (Z.shiftl (MacGCR.head s) 5)
              (Z.shiftr (MacGCR.cyl s) 6) 8) as [Hh Hc];
    [by apply Z.shiftl_nonneg | by apply Z.shiftr_nonneg | lia | done |].
  change (2 ^ 8) with 256 in Hh, Hc.
  rewrite Z.shiftl_mul_pow2 in Hh by lia.
  rewrite Z.shiftr_div_pow2 in Hc by lia.
  change (2 ^ 5) with 32 in Hh. change (2 ^ 6) with 64 in Hc.
  split; [split; [done|]|split; [lia|lia]].
  pose proof (Z.div_mod (MacGCR.cyl s) 64 ltac:(lia)).
  pose proof (Z.mod_pos_bound (MacGCR.cyl s) 64 ltac:(lia)). lia.
Qed.

(** X19: for a sector it manages to encode, the encoder writes a
    header that the decoder reads back as sector [sec_id] of cylinder
    [cyl % 128] and side [head]: on cylinders below 128 the header is
    the one the decoder expects, on higher ones the decoder reports the
    table's own sectors as unexpected. *)
Theorem own_header_reads_back (s : MacGCR.t) (sec_id : Z) (t t' : bytes) :
  MacGCR.encode_sector sec_id t s = (Ok t', s, []) →
  ∃ hdr c sd,
    take 5 (drop (length t + 39) t') = encode_mac_gcr hdr
    ∧ length hdr = 5%nat
    ∧ Py.xor_sum hdr = 0
    ∧ Py.byte_val <$> take 4 hdr = [c; sec_id; sd; 0x22]
    ∧ header_cyl c sd = MacGCR.cyl s mod 128
    ∧ (MacGCR.cyl s < 2048 → header_side sd = MacGCR.head s)
    ∧ (sec_id < MacGCR.nsec s →
       (unexpected s (header_cyl c sd) (header_side sd) sec_id 0x22 = false
        ↔ MacGCR.cyl s < 128)).
Proof.
  rewrite encode_sector_run.
  destruct (sector_record s sec_id) as [r|e] eqn:Hr; [|done].
  rewrite result_bind_ret. intros [= <-].
  destruct (sector_record_address _ _ _ Hr) as (Hcyl & Hhead & _).
  destruct (sector_record_header _ _ _ Hr) as (hdr & H5 & Hxor & Hfields & Hat).
  eexists hdr, _, _.
  split; [by rewrite <- drop_drop, drop_app_length|].
  split; [done|]. split; [done|]. split; [exact Hfields|].
  rewrite header_cyl_packed, header_side_packed.
  assert (MacGCR.cyl s < 2048 →
          Z.lor (MacGCR.head s) (Z.shiftr (MacGCR.cyl s) 11) = MacGCR.head s)
    as Hside.
  { intros Hlt. rewrite Z.shiftr_div_pow2 by lia.
    rewrite Z.div_small by (change (2 ^ 11) with 2048; lia).
    apply Z.lor_0_r. }
  split; [done|]. split; [done|].
  intros Hid. unfold unexpected.
  destruct (Z.lt_ge_cases (MacGCR.cyl s) 128) as [Hlow|Hhigh].
  - split; [done|]. intros _.
    rewrite Z.mod_small, Hside by lia.
    rewrite !Z.eqb_refl. simpl.
    by destruct (Z.leb_spec (MacGCR.nsec s) sec_id); [lia|].
  - split; [|lia].
    pose proof (Z.mod_pos_bound (MacGCR.cyl s) 128 ltac:(lia)).
    destruct (Z.eqb_spec (MacGCR.cyl s mod 128) (MacGCR.cyl s)); [lia|done].
Qed.

Hypothesis sector_length :
  ∀ data, length data = 524%nat → length (encode_mac_sector data) = 703%nat.

Lemma sector_record_length (s : MacGCR.t) (sec_id : Z) (r : bytes) :
  whole_sectors (MacGCR.sector s) →
  sector_record s sec_id = Ok r →
  length r = 764%nat.
Proof.
  intros Hwhole Hr. unfold sector_record in Hr.
  apply result_bind_Ok in Hr as (sector & Hidx%index_elem_of & Hr).
  cbv zeta in Hr.
  apply result_bind_Ok in Hr as (hdr & Hhdr%bytes_of_ints_length & Hr).
  apply result_bind_Ok in Hr as (sum & Hsum%bytes_of_ints_length & Hr).
  apply result_bind_Ok in Hr as (sid & Hsid%bytes_of_ints_length & Hr).
  match type of Hr with
  | Ok ?x = Ok _ => assert (r = x) as -> by congruence
  end. clear Hr.
  assert (length (match sector with
                  | Some sector => sector
                  | None => Py.zeros 12 ++ bad_sector
                  end) = 524%nat) as Hdata.
  { destruct sector as [data|]; [|done].
    by apply (proj1 (Forall_forall _ _) Hwhole _ Hidx). }
  rewrite !length_app, !gcr_length, (sector_length _ Hdata), length_app.
  rewrite Hhdr, Hsum, Hsid. done.
Qed.

(** X20: when every buffer in the table has 524 bytes, the track
    [raw_track] returns holds 188 bytes of gaps and 764 bytes per
    sector, padded with [0x96] to the bit cells of one revolution
    rounded down to a multiple of 32; when the sectors need more than
    that the track is not cut but comes out longer than a revolution
    (the codec is taken to keep its length contracts). *)
Theorem raw_track_byte_length (s : MacGCR.t) (trk : MacGCR.MasterTrack) :
  whole_sectors (MacGCR.sector s) →
  MacGCR.raw_track s = (Ok trk, s, []) →
  ∃ clock cells,
    MacGCR.clock s = Some clock
    ∧ revolution_cells clock = Ok cells
    ∧ Z.of_nat (length (MacGCR.bits trk))
      = Z.max (188 + 764 * Z.of_nat (length (MacGCR.sec_map s)))
              (32 * (cells / 32) / 8).
Proof.
  intros Hwhole Hraw.
  destruct (raw_track_Ok_inv _ _ _ _ Hraw)
    as (clock & cells & content & Hclock & Hcells & Hcontent & Hbits & _).
  exists clock, cells. split; [done|]. split; [done|].
  unfold track_content in Hcontent.
  destruct (MacGCR.for_fold _ _ _ _) as [[[t|e] s'] out0] eqn:Hfold; [|done].
  apply for_fold_encode_inv in Hfold as (rs & Hrs & ->).
  assert (content = (post_index_gap ++ mjoin rs) ++ Py.repeat_bytes [xff] 4)
    as -> by congruence.
  assert (Forall (λ r, length r = 764%nat) rs) as Hlens.
  { clear -Hrs Hwhole gcr_length sector_length.
    induction Hrs as [|id r ids rs Hr _ IH]; constructor; [|done].
    by eapply sector_record_length. }
  assert (length ((post_index_gap ++ mjoin rs) ++ Py.repeat_bytes [xff] 4)
          = (188 + 764 * length (MacGCR.sec_map s))%nat) as Hlen.
  { pose proof (join_length_uniform _ 764 Hlens) as Hjoin.
    pose proof (Forall2_length _ _ _ Hrs) as Hcount.
    rewrite !length_app, post_index_gap_length, Hjoin.
    change (length (Py.repeat_bytes [xff] 4)) with 4%nat.
    change (length (MacGCR.sec_map s) = length rs) in Hcount.
    change (184 + 764 * length rs + 4
            = 188 + 764 * length (MacGCR.sec_map s))%nat.
    lia. }
  rewrite Hbits, padded_byte_length. f_equal.
  etrans; [exact (f_equal Z.of_nat Hlen)|lia].
Qed.
End Headers.

(** ** The round trip of a table with missing sectors *)

Lemma index_fmap {A B} (f : A → B) (l : list A) (i : Z) :
  Py.index (f <$> l) i
  = match Py.index l i with Ok x => Ok (f x) | Raise e => Raise e end.
Proof.
  unfold Py.index. rewrite length_fmap.
  destruct (0 <=? _); [|done]. rewrite list_lookup_fmap.
  by destruct (l !! _).
Qed.

Lemma same_address_extends (s st st' : MacGCR.t) :
  same_address s st → extends st st' → same_address s st'.
Proof.
  intros (Hc & Hh & Hn) (Heq & _). rewrite Heq.
  by split; [|split].
Qed.

(** The header the encoder packs is the one the decoder expects, for
    a cylinder below 128. *)
Lemma packed_header_expected (s st : MacGCR.t) (sec_id : Z) :
  same_address s st →
  0 ≤ MacGCR.cyl s < 128 → sec_id < MacGCR.nsec s →
  unexpected st
    (header_cyl (Z.land (MacGCR.cyl s) 0x3f)
       (Z.lor (Z.shiftl (MacGCR.head s) 5) (Z.shiftr (MacGCR.cyl s) 6)))
    (header_side
       (Z.lor (Z.shiftl (MacGCR.head s) 5) (Z.shiftr (MacGCR.cyl s) 6)))
    sec_id 0x22 = false.
Proof.
  intros (Hc & Hh & Hn) Hcyl Hid.
  rewrite header_cyl_packed, header_side_packed.
  rewrite Z.mod_small by lia.
  rewrite Z.shiftr_div_pow2, Z.div_small, Z.lor_0_r
    by (try change (2 ^ 11) with 2048; lia).
  unfold unexpected. rewrite Hc, Hh, Hn, !Z.eqb_refl. simpl.
  by destruct (Z.leb_spec (MacGCR.nsec s) sec_id); [lia|].
Qed.

Section Readback.
Context `{Optimised} `{RawTrack}.
Hypothesis gcr_length : ∀ bs, length (encode_mac_gcr bs) = length bs.
Hypothesis gcr_inverse : ∀ bs, decode_mac_gcr (encode_mac_gcr bs) = bs.
Hypothesis sector_length :
  ∀ data, length data = 524%nat → length (encode_mac_sector data) = 703%nat.
Hypothesis sector_inverse :
  ∀ data, length data = 524%nat →
          decode_mac_sector (encode_mac_sector data) = (data, 0).

Lemma sector_record_readback (s : MacGCR.t) (sec_id : Z) :
  sector_record (MacGCR.with_sector s (readback <$> MacGCR.sector s)) sec_id
  = sector_record s sec_id.
Proof.
  unfold sector_record. cbn [MacGCR.with_sector MacGCR.sector MacGCR.cyl
                              MacGCR.head].
  rewrite index_fmap.
  destruct (Py.index (MacGCR.sector s) sec_id) as [[data|]|e]; done.
Qed.

Lemma readback_populated (l : list (option bytes)) :
  whole_sectors l → populated (readback <$> l).
Proof.
  intros Hwhole. apply Forall_fmap. eapply Forall_impl; [exact Hwhole|].
  intros [data|] Hlen; eexists; (split; [done|]); [by apply Hlen|done].
Qed.

(** A header found where the encoder wrote one prints nothing. *)
Lemma decode_sync_silent (bits : bitarray) (offs : Z) (s st : MacGCR.t)
    (hdr : bytes) (sec_id : Z) :
  same_address s st →
  0 ≤ MacGCR.cyl s < 128 → sec_id < MacGCR.nsec s →
  header_bytes bits offs = encode_mac_gcr hdr →
  Py.byte_val <$> take 4 hdr
    = [Z.land (MacGCR.cyl s) 0x3f; sec_id;
       Z.lor (Z.shiftl (MacGCR.head s) 5) (Z.shiftr (MacGCR.cyl s) 6); 0x22] →
  (MacGCR.decode_sync bits offs st).2 = [].
Proof.
  intros Hsame Hcyl Hid Hhb Hfields. rewrite decode_sync_run.
  destruct (missing st =? 0); [done|].
  destruct (negb _); [done|]. cbv zeta.
  destruct (negb _); [done|].
  rewrite Hhb, gcr_inverse, Hfields.
  rewrite (packed_header_expected s st sec_id Hsame Hcyl Hid).
  destruct (search _ _) as [|d [|]]; try done.
  destruct (negb _); [done|].
  destruct (decode_mac_sector _) as [sec csum].
  destruct (negb _); [done|].
  by destruct (MacGCR.add sec_id sec st) as [[[|] s'] out'].
Qed.

Lemma for_each_silent (bits : bitarray) (l : list Z) (s st : MacGCR.t) :
  (∀ offs st, offs ∈ l → same_address s st →
     (MacGCR.decode_sync bits offs st).2 = []) →
  same_address s st →
  (MacGCR.for_each l (MacGCR.decode_sync bits) st).2 = [].
Proof.
  revert st. induction l as [|offs l IH]; intros st Hbody Hsame; [done|].
  rewrite for_each_cons.
  pose proof (Hbody offs st ltac:(apply list_elem_of_here) Hsame) as Hout.
  pose proof (decode_sync_extends bits offs st) as Hext.
  destruct (MacGCR.decode_sync bits offs st) as [[[[|]|e] st'] out];
    simpl in Hout, Hext; subst out; try done.
  assert ((MacGCR.for_each l (MacGCR.decode_sync bits) st').2 = []) as Hrest.
  { apply IH; [|by eapply same_address_extends].
    intros offs' st0 Hin. apply Hbody. by apply list_elem_of_further. }
  by destruct (MacGCR.for_each l (MacGCR.decode_sync bits) st')
    as [[r s''] out'].
Qed.

(** The track of a table, decoded into a new table for the same
    track: every sector comes back, the missing ones as the filler;
    nothing is printed when the cylinder is below 128. *)
Lemma roundtrip_readback (fresh s : MacGCR.t) (trk : MacGCR.MasterTrack)
    (flux : Flux) :
  mk_track (MacGCR.config s) (MacGCR.cyl s) (MacGCR.head s) = Ok fresh →
  s = MacGCR.with_sector fresh (MacGCR.sector s) →
  length (MacGCR.sector s) = length (MacGCR.sector fresh) →
  whole_sectors (MacGCR.sector s) →
  MacGCR.raw_track s = (Ok trk, s, []) →
  get_all_data MacGCR.time_per_rev (MacGCR.clock fresh) flux
    = frombytes (MacGCR.bits trk) →
  itersearch (frombytes (MacGCR.bits trk)) sector_sync
    = sector_sync_offset <$> Py.range (MacGCR.nsec s) →
  (∀ k, 0 ≤ k < MacGCR.nsec s →
        search (data_window (frombytes (MacGCR.bits trk)) (sector_sync_offset k))
               data_sync = [80]) →
  ∃ out,
    MacGCR.decode_raw flux fresh
    = (Ok (), MacGCR.with_sector s (readback <$> MacGCR.sector s), out)
    ∧ (MacGCR.cyl s < 128 → out = []).
Proof.
  intros Hmk Hs Hlen Hwhole Hraw Hflux Hsync Hwin.
  destruct (MacGCRTrackFormat.secs (MacGCR.config s)) as [n|] eqn:Hsecs.
  2: { unfold mk_track, MacGCR.__init__ in Hmk. by rewrite Hsecs in Hmk. }
  destruct (init_total (MacGCR.cyl s) (MacGCR.head s) (MacGCR.config s) n Hsecs)
    as (m & Hinit & Hperm).
  unfold mk_track in Hmk. rewrite Hinit in Hmk.
  assert (MacGCR.sec_map fresh = m ∧ MacGCR.nsec fresh = n
          ∧ MacGCR.sector fresh = replicate (Z.to_nat n) None)
    as (Hm & Hn & Hempty) by (by injection Hmk as <-).
  clear Hmk Hinit.
  assert (MacGCR.sec_map s = m) as Hsm by (by rewrite Hs).
  assert (MacGCR.nsec s = n) as Hsn by (by rewrite Hs).
  rewrite Hempty, length_replicate in Hlen.
  assert (length m = Z.to_nat n) as Hmlen by (by rewrite Hperm, range_length).
  destruct (raw_track_Ok_inv _ _ _ _ Hraw)
    as (clock & cells & content & _ & _ & Hcontent & Hbits & _).
  unfold track_content in Hcontent.
  destruct (MacGCR.for_fold _ _ _ _) as [[[t|e] s'] out0] eqn:Hfold; [|done].
  apply for_fold_encode_inv in Hfold as (rs & Hrs & ->).
  assert (content = (post_index_gap ++ mjoin rs) ++ Py.repeat_bytes [xff] 4)
    as -> by congruence.
  clear Hcontent. rewrite <- !app_assoc in Hbits.
  set (tail := Py.repeat_bytes [xff] 4 ++ _) in Hbits.
  set (s2 := MacGCR.with_sector s (readback <$> MacGCR.sector s)).
  assert (length (MacGCR.sector s2) = length (MacGCR.sector s)) as Hlen2
    by apply length_fmap.
  assert (MacGCR.sec_map s2
          ≡ₚ Py.range (Z.of_nat (length (MacGCR.sector s2)))) as Hint
    by (by rewrite Hlen2, Hlen, range_of_to_nat; cbn; rewrite Hsm).
  assert (populated (MacGCR.sector s2)) as Hpop
    by (by apply readback_populated).
  assert (Forall2 (λ id r, sector_record s2 id = Ok r) (MacGCR.sec_map s2) rs)
    as Hrs2.
  { eapply Forall2_impl; [exact Hrs|]. intros id r Hr.
    unfold s2. by rewrite sector_record_readback. }
  assert (MacGCR.with_sector s2 (replicate (length (MacGCR.sector s2)) None)
          = fresh) as Hfresh.
  { rewrite Hlen2, Hlen, <- Hempty. unfold s2. rewrite with_sector_twice, Hs.
    by rewrite with_sector_twice, with_sector_self. }
  destruct (decode_loop gcr_length gcr_inverse sector_length sector_inverse
              s2 rs tail Hrs2 Hpop Hint) with
    (r := length (MacGCR.sec_map s2)) (k := 0%nat) as [out Hloop];
    [|reflexivity|].
  { intros k Hk. rewrite <- Hbits. apply Hwin.
    change (MacGCR.sec_map s2) with (MacGCR.sec_map s) in Hk.
    rewrite Hsm in Hk. lia. }
  rewrite Nat.add_0_l, firstn_all, (store_from_all s2 Hint), with_sector_self
    in Hloop.
  change (store_from _ _ (take 0 _))
    with (replicate (length (MacGCR.sector s2)) (@None bytes)) in Hloop.
  rewrite Hfresh in Hloop.
  exists out. unfold MacGCR.decode_raw.
  rewrite run_bind_get, Hflux, Hsync, Hbits, Hsn.
  unfold Py.range. rewrite <- Hmlen, <- Hsm.
  change (MacGCR.sec_map s) with (MacGCR.sec_map s2).
  split; [exact Hloop|].
  intros Hcyl.
  assert ((MacGCR.for_each
             (sector_sync_offset <$> (Z.of_nat <$> seq 0 (length (MacGCR.sec_map s2))))
             (MacGCR.decode_sync (frombytes (post_index_gap ++ mjoin rs ++ tail)))
             fresh).2 = []) as Hout; [|by rewrite Hloop in Hout].
  apply (for_each_silent _ _ s).
  2: { rewrite Hs. by split; [|split]. }
  intros offs st Hoffs Hsame.
  apply list_elem_of_fmap in Hoffs as (kz & -> & Hkz).
  apply list_elem_of_fmap in Hkz as (k & -> & Hk).
  apply elem_of_seq in Hk.
  destruct (lookup_lt_is_Some_2 (MacGCR.sec_map s2) k ltac:(lia)) as [id Hid].
  destruct (Forall2_lookup_l _ _ _ _ _ Hrs2 Hid) as (r & Hr & Hrec).
  unfold s2 in Hrec. rewrite sector_record_readback in Hrec.
  destruct (sector_record_header gcr_length s id r Hrec)
    as (hdr & _ & _ & Hfields & Hat).
  destruct (sector_record_address gcr_length s id r Hrec) as (Hc & _ & _).
  apply (decode_sync_silent _ _ s st hdr id); [done|lia| | |done].
  - apply list_elem_of_lookup_2 in Hid.
    change (MacGCR.sec_map s2) with (MacGCR.sec_map s) in Hid.
    rewrite Hsm, Hperm in Hid. apply elem_of_range in Hid. lia.
  - unfold header_bytes.
    set (offs := sector_sync_offset (Z.of_nat k)).
    replace (offs + 3 * 8) with (offs + 8 * (Z.of_nat 39 - 36)) by lia.
    replace (offs + 8 * (Z.of_nat 39 - 36) + 5 * 8)
      with (offs + 8 * (Z.of_nat 39 - 36) + 8 * Z.of_nat 5) by lia.
    unfold offs.
    rewrite (record_bytes gcr_length sector_length s2 rs tail Hrs2 Hpop Hint
               k 39 5 r Hr) by lia.
    by rewrite tobytes_frombytes.
Qed.
Lemma readback_none_missing (l : list (option bytes)) :
  filter (λ sec, sec = None) (readback <$> l) = [].
Proof.
  induction l as [|sec l IH]; [done|].
  cbn [fmap list_fmap]. by rewrite filter_cons_False.
Qed.

(** X22: a table with missing sectors does not read back as it was:
    [raw_track] writes each missing sector as 12 zero bytes and the
    [BAD SECTOR] pattern under a valid checksum, so decoding the track
    into a new table for the same track leaves no sector missing; the
    sectors that were there come back unchanged (the codec is taken to
    keep its contracts, and the sync marks to occur on the track only
    where the encoder wrote them). *)
Theorem missing_sectors_read_back_filled (fresh s : MacGCR.t)
    (trk : MacGCR.MasterTrack) (flux : Flux) :
  mk_track (MacGCR.config s) (MacGCR.cyl s) (MacGCR.head s) = Ok fresh →
  s = MacGCR.with_sector fresh (MacGCR.sector s) →
  length (MacGCR.sector s) = length (MacGCR.sector fresh) →
  whole_sectors (MacGCR.sector s) →
  MacGCR.raw_track s = (Ok trk, s, []) →
  get_all_data MacGCR.time_per_rev (MacGCR.clock fresh) flux
    = frombytes (MacGCR.bits trk) →
  itersearch (frombytes (MacGCR.bits trk)) sector_sync
    = sector_sync_offset <$> Py.range (MacGCR.nsec s) →
  (∀ k, 0 ≤ k < MacGCR.nsec s →
        search (data_window (frombytes (MacGCR.bits trk)) (sector_sync_offset k))
               data_sync = [80]) →
  ∃ s' out,
    MacGCR.decode_raw flux fresh = (Ok (), s', out)
    ∧ MacGCR.nr_missing s' = (Ok 0, s', [])
    ∧ (∀ (k : nat) (data : bytes),
         MacGCR.sector s !! k = Some (Some data) →
         MacGCR.sector s' !! k = Some (Some data))
    ∧ (∀ k : nat,
         MacGCR.sector s !! k = Some None →
         MacGCR.sector s' !! k = Some (Some (Py.zeros 12 ++ bad_sector))).
Proof.
  intros Hmk Hs Hlen Hwhole Hraw Hflux Hsync Hwin.
  destruct (roundtrip_readback fresh s trk flux Hmk Hs Hlen Hwhole Hraw
              Hflux Hsync Hwin) as (out & Hdec & _).
  eexists _, out. split; [exact Hdec|].
  cbn [MacGCR.with_sector MacGCR.sector]. split; [|split].
  - rewrite nr_missing_run. cbn [MacGCR.with_sector MacGCR.sector].
    by rewrite readback_none_missing.
  - intros k data Hk. by rewrite list_lookup_fmap, Hk.
  - intros k Hk. by rewrite list_lookup_fmap, Hk.
Qed.

(** X23: on a cylinder below 128 the decoder recognises every header
    of the table's own track: decoding that track into a new table
    stores every sector and prints no line about an unexpected sector
    (under the same assumptions on the codec and the sync marks). *)
Theorem own_track_decodes_silently (fresh s : MacGCR.t)
    (trk : MacGCR.MasterTrack) (flux : Flux) :
  MacGCR.cyl s < 128 →
  mk_track (MacGCR.config s) (MacGCR.cyl s) (MacGCR.head s) = Ok fresh →
  s = MacGCR.with_sector fresh (MacGCR.sector s) →
  length (MacGCR.sector s) = length (MacGCR.sector fresh) →
  populated (MacGCR.sector s) →
  MacGCR.raw_track s = (Ok trk, s, []) →
  get_all_data MacGCR.time_per_rev (MacGCR.clock fresh) flux
    = frombytes (MacGCR.bits trk) →
  itersearch (frombytes (MacGCR.bits trk)) sector_sync
    = sector_sync_offset <$> Py.range (MacGCR.nsec s) →
  (∀ k, 0 ≤ k < MacGCR.nsec s →
        search (data_window (frombytes (MacGCR.bits trk)) (sector_sync_offset k))
               data_sync = [80]) →
  MacGCR.decode_raw flux fresh = (Ok (), s, []).
Proof.
  intros Hcyl Hmk Hs Hlen Hpop Hraw Hflux Hsync Hwin.
  assert (whole_sectors (MacGCR.sector s)) as Hwhole.
  { eapply Forall_impl; [exact Hpop|].
    intros sec (data & -> & Hdata) data' [= <-]. done. }
  destruct (roundtrip_readback fresh s trk flux Hmk Hs Hlen Hwhole Hraw
              Hflux Hsync Hwin) as (out & Hdec & Hout).
  rewrite Hdec, (Hout Hcyl). do 2 f_equal.
  rewrite <- (with_sector_self s) at 3. f_equal.
  clear -Hpop. induction Hpop as [|sec l (data & -> & _) _ IH]; [done|].
  cbn [fmap list_fmap]. by rewrite IH.
Qed.
End Readback.

(** ** The readback verifier on every table *)

(** X24: [verify_track] never looks at the flux, and the table it
    compares with is always an empty one: it raises [TypeError] when the
    configuration has no sector count, and otherwise answers true only
    when that count is not positive and the table has no slot at all. *)
Theorem verify_track_outcomes `{RawTrack} (s : MacGCR.t) (flux : Flux) :
  MacGCR.verify_track flux s
  = (match MacGCRTrackFormat.secs (MacGCR.config s) with
     | None => Raise TypeError
     | Some nsec => Ok (bool_decide (nsec ≤ 0 ∧ MacGCR.sector s = []))
     end, s, []).
Proof.
  unfold MacGCR.verify_track. rewrite run_bind_get.
  destruct (MacGCRTrackFormat.secs (MacGCR.config s)) as [nsec|] eqn:Hsecs.
  2: { unfold MacGCR.__init__. rewrite Hsecs. by rewrite run_bind_lift_Raise. }
  destruct (init_total (MacGCR.cyl s) (MacGCR.head s) (MacGCR.config s) nsec Hsecs)
    as (m & -> & _).
  rewrite run_bind_lift_Ok.
  erewrite run_bind_silent.
  2: { unfold MacGCR.on. by rewrite nr_missing_run. }
  cbn [MacGCR.sector]. rewrite filter_None_replicate.
  destruct (Z.eqb_spec (Z.of_nat (Z.to_nat nsec)) 0) as [Hz|Hnz]; simpl.
  - replace (Z.to_nat nsec) with 0%nat by lia. unfold mret, MacGCR.M_ret.
    do 3 f_equal. apply bool_decide_ext. cbn [replicate].
    split; [intros ->; split; [lia|done] | by intros [_ ->]].
  - unfold mret, MacGCR.M_ret. do 3 f_equal. symmetry.
    apply bool_decide_eq_false_2. intros [Hle _]. lia.
Qed.

(** ** Sectors of another track *)

Section Foreign.
Context `{Optimised}.

(** X25: the line [Ignoring unexpected sector] does not mean the
    sector is ignored: a good sector whose header names another
    cylinder, side or format, with an id inside the table, is reported
    and then stored in the slot of that id all the same. *)
Theorem unexpected_sector_is_stored (bits : bitarray) (offs : Z)
    (s : MacGCR.t) (cyl sec_id side fmt dat_offs : Z) (data : bytes) :
  Z.of_nat (length (header_bytes bits offs)) = 5 →
  Py.xor_sum (decode_mac_gcr (header_bytes bits offs)) = 0 →
  Py.byte_val <$> take 4 (decode_mac_gcr (header_bytes bits offs))
    = [cyl; sec_id; side; fmt] →
  search (data_window bits offs) data_sync = [dat_offs] →
  Z.of_nat (length (data_bytes bits offs dat_offs)) = 703 →
  decode_mac_sector (decode_mac_gcr (data_bytes bits offs dat_offs))
    = (data, 0) →
  MacGCR.sector s !! Z.to_nat sec_id = Some None →
  unexpected s (header_cyl cyl side) (header_side side) sec_id fmt = true →
  MacGCR.decode_sync bits offs s
  = (Ok MacGCR.Next,
     MacGCR.with_sector s (<[Z.to_nat sec_id := Some data]> (MacGCR.sector s)),
     [diagnostic s (header_cyl cyl side) (header_side side) sec_id fmt]).
Proof.
  intros H5 Hxor Hhdr Hsearch H703 Hdata Hslot Hunexp.
  assert (0 ≤ sec_id) as Hid.
  { destruct (take 4 _) as [|b0 [|b1 l]]; try done.
    injection Hhdr as _ <- _. apply byte_val_range. }
  rewrite decode_sync_run.
  destruct (Z.eqb_spec (missing s) 0); [by apply missing_pos in Hslot|].
  rewrite H5. cbv zeta. rewrite Hxor, Hhdr, Hsearch. cbv zeta.
  rewrite H703, Hdata, Hunexp. simpl.
  rewrite add_run, (index_Ok _ _ _ Hid Hslot).
  rewrite setitem_Ok by (apply lookup_lt_Some in Hslot; lia).
  reflexivity.
Qed.
End Foreign.

(** ** From an image to a track and back *)

Lemma img_sectors_populated (nsec : Z) (tdat : bytes) :
  populated ((λ sec, Some (img_sector (img_padded nsec tdat) sec))
             <$> Py.range nsec).
Proof.
  apply Forall_fmap, Forall_forall. intros sec Hsec.
  apply elem_of_range in Hsec. eexists. split; [done|].
  apply img_sector_length; [lia|].
  pose proof (img_padded_ge nsec tdat). lia.
Qed.

Lemma readback_populated_id (l : list (option bytes)) :
  populated l → readback <$> l = l.
Proof.
  intros Hpop. induction Hpop as [|sec l (data & -> & _) _ IH]; [done|].
  cbn [fmap list_fmap]. by rewrite IH.
Qed.

Lemma populated_whole (l : list (option bytes)) :
  populated l → whole_sectors l.
Proof.
  intros Hpop. eapply Forall_impl; [exact Hpop|].
  intros sec (data & -> & Hdata) data' [= <-]. done.
Qed.

Section ImageRoundTrip.
Context `{Optimised} `{RawTrack}.
Hypothesis gcr_length : ∀ bs, length (encode_mac_gcr bs) = length bs.
Hypothesis gcr_inverse : ∀ bs, decode_mac_gcr (encode_mac_gcr bs) = bs.
Hypothesis sector_length :
  ∀ data, length data = 524%nat → length (encode_mac_sector data) = 703%nat.
Hypothesis sector_inverse :
  ∀ data, length data = 524%nat →
          decode_mac_sector (encode_mac_sector data) = (data, 0).

(** X26: an image written to a track comes back: import it into a new
    table with [set_img_track], encode the table with [raw_track],
    decode the track into another new table for the same track, and
    [get_img_track] of that table returns the image, padded with zero
    bytes or cut to [nsec * 512] bytes (the codec is taken to keep its
    contracts, and the sync marks to occur on the track only where the
    encoder wrote them). *)
Theorem image_survives_the_track (config : MacGCRTrackFormat.t)
    (cyl head : Z) (fresh s : MacGCR.t) (tdat : bytes) (n : Z)
    (trk : MacGCR.MasterTrack) (flux : Flux) :
  mk_track config cyl head = Ok fresh →
  MacGCR.set_img_track tdat fresh = (Ok n, s, []) →
  MacGCR.raw_track s = (Ok trk, s, []) →
  get_all_data MacGCR.time_per_rev (MacGCR.clock fresh) flux
    = frombytes (MacGCR.bits trk) →
  itersearch (frombytes (MacGCR.bits trk)) sector_sync
    = sector_sync_offset <$> Py.range (MacGCR.nsec s) →
  (∀ k, 0 ≤ k < MacGCR.nsec s →
        search (data_window (frombytes (MacGCR.bits trk)) (sector_sync_offset k))
               data_sync = [80]) →
  ∃ s' out,
    MacGCR.decode_raw flux fresh = (Ok (), s', out)
    ∧ MacGCR.get_img_track s'
      = (Ok (take (Z.to_nat (MacGCR.nsec fresh * 512))
               (img_padded (MacGCR.nsec fresh) tdat)), s', []).
Proof.
  intros Hmk Hset Hraw Hflux Hsync Hwin.
  pose proof (mk_track_shape _ _ _ _ Hmk) as Hshape.
  rewrite set_img_track_run in Hset by done.
  injection Hset as _ Hs.
  assert (MacGCR.sector s
          = (λ sec, Some (img_sector (img_padded (MacGCR.nsec fresh) tdat) sec))
            <$> Py.range (MacGCR.nsec fresh)) as Hsector by (by rewrite <- Hs).
  assert (populated (MacGCR.sector s)) as Hpop
    by (rewrite Hsector; apply img_sectors_populated).
  assert (MacGCR.config s = config ∧ MacGCR.cyl s = cyl
          ∧ MacGCR.head s = head) as (Hconfig & Hcyl & Hhead).
  { rewrite <- Hs. cbn [MacGCR.with_sector MacGCR.config MacGCR.cyl
                        MacGCR.head].
    unfold mk_track, MacGCR.__init__ in Hmk.
    destruct (MacGCRTrackFormat.secs config) as [nsec|]; [|done].
    destruct (MacGCR.place _ _ _ _ _) as [[m pos]|e]; [|done].
    simpl in Hmk. by injection Hmk as <-. }
  destruct (roundtrip_readback gcr_length gcr_inverse sector_length
              sector_inverse fresh s trk flux) as (out & Hdec & _);
    try done.
  - by rewrite Hconfig, Hcyl, Hhead.
  - rewrite <- Hs. reflexivity.
  - rewrite Hsector, length_fmap, range_length. by rewrite Hshape.
  - by apply populated_whole.
  - rewrite (readback_populated_id _ Hpop), with_sector_self in Hdec.
    exists s, out. split; [exact Hdec|].
    rewrite get_img_track_run, Hsector.
    change (λ sec : option bytes,
              match sec with Some sec0 => drop 12 sec0 | None => bad_sector end)
      with img_span.
    rewrite img_sectors_join_take.
    by replace (Z.to_nat (MacGCR.nsec fresh) * 512)%nat
      with (Z.to_nat (MacGCR.nsec fresh * 512)) by lia.
Qed.
End ImageRoundTrip.


(** ** The bit cells of a revolution: binary64 division and truncation *)

Lemma digits2_pos_bounds (p : positive) :
  2 ^ (Z.pos (digits2_pos p) - 1) ≤ Z.pos p < 2 ^ Z.pos (digits2_pos p).
Proof.
  induction p as [p IH|p IH|]; cbn [digits2_pos]; [| |done].
  - rewrite Pos2Z.inj_succ.
    replace (Z.succ (Z.pos (digits2_pos p)) - 1) with
      (Z.succ (Z.pos (digits2_pos p) - 1)) by lia.
    rewrite !Z.pow_succ_r by lia. lia.
  - rewrite Pos2Z.inj_succ.
    replace (Z.succ (Z.pos (digits2_pos p)) - 1) with
      (Z.succ (Z.pos (digits2_pos p) - 1)) by lia.
    rewrite !Z.pow_succ_r by lia. lia.
Qed.

(** A nonnegative integer below [2 ^ n] has at most [n] digits. *)
Lemma Zdigits2_le (m n : Z) :
  0 ≤ m → 0 ≤ n → m < 2 ^ n → Zdigits2 m ≤ n.
Proof.
  intros Hm Hn Hlt. destruct m as [|p|p]; [done| |lia].
  cbn [Zdigits2]. destruct (digits2_pos_bounds p) as [Hlow _].
  destruct (Z.le_gt_cases (Z.pos (digits2_pos p)) n) as [|Hgt]; [done|].
  assert (2 ^ n ≤ 2 ^ (Z.pos (digits2_pos p) - 1))
    by (apply Z.pow_le_mono_r; lia).
  lia.
Qed.

Lemma shr_1_m (mrs : shr_record) :
  0 ≤ shr_m mrs → shr_m (shr_1 mrs) = shr_m mrs / 2.
Proof.
  destruct mrs as [m r s]. cbn [shr_m]. intros Hm.
  destruct m as [|[p|p|]|p]; cbn [shr_1 shr_m]; try lia; try done.
  - rewrite Pos2Z.inj_xI. apply Z.div_unique with 1; lia.
  - rewrite Pos2Z.inj_xO. apply Z.div_unique with 0; lia.
Qed.

Lemma iter_shr_1_m (p : positive) (mrs : shr_record) :
  0 ≤ shr_m mrs →
  shr_m (SpecFloat.iter_pos shr_1 p mrs) = shr_m mrs / 2 ^ Z.pos p.
Proof.
  revert mrs. induction p as [p IH|p IH|]; intros mrs Hm; cbn [SpecFloat.iter_pos].
  1, 2: assert (0 < 2 ^ Z.pos p) as Hpow by (apply Z.pow_pos_nonneg; lia).
  - assert (0 ≤ shr_m (shr_1 mrs)) as H1
      by (rewrite shr_1_m by done; apply Z.div_pos; lia).
    assert (0 ≤ shr_m (SpecFloat.iter_pos shr_1 p (shr_1 mrs))) as H2
      by (rewrite IH by done; apply Z.div_pos; lia).
    rewrite IH, IH, shr_1_m by done.
    assert (2 ^ Z.pos p~1 = 2 * 2 ^ Z.pos p * 2 ^ Z.pos p) as ->.
    { replace (Z.pos p~1) with (1 + Z.pos p + Z.pos p) by lia.
      by rewrite !Z.pow_add_r by lia. }
    rewrite !Z.div_div by lia. f_equal. lia.
  - assert (0 ≤ shr_m (SpecFloat.iter_pos shr_1 p mrs)) as H2
      by (rewrite IH by done; apply Z.div_pos; lia).
    rewrite IH, IH by done.
    assert (2 ^ Z.pos p~0 = 2 ^ Z.pos p * 2 ^ Z.pos p) as ->.
    { replace (Z.pos p~0) with (Z.pos p + Z.pos p) by lia.
      by rewrite Z.pow_add_r by lia. }
    by rewrite Z.div_div by lia.
  - rewrite shr_1_m by done. done.
Qed.

(** What [shr_fexp] does to the mantissa and the exponent: a right
    shift by the number of digits in excess, if any. *)
Lemma shr_fexp_m (m e : Z) (l : location) :
  0 ≤ m →
  let k := Z.max 0 (fexp prec emax (Zdigits2 m + e) - e) in
  shr_m (shr_fexp prec emax m e l).1 = m / 2 ^ k
  ∧ (shr_fexp prec emax m e l).2 = e + k.
Proof.
  intros Hm k. unfold shr_fexp, shr. subst k.
  assert (shr_m (shr_record_of_loc m l) = m) as Hrec
    by (by destruct l as [|[]]).
  destruct (fexp prec emax (Zdigits2 m + e) - e) as [|p|p] eqn:Hk;
    cbn [fst snd].
  - rewrite Hrec. change (Z.max 0 0) with 0. rewrite Z.div_1_r. lia.
  - rewrite iter_shr_1_m by (rewrite Hrec; done). rewrite Hrec.
    by rewrite Z.max_r by lia.
  - rewrite Hrec, Z.max_l by lia. rewrite Z.div_1_r. lia.
Qed.

Lemma round_nearest_even_cases (m : Z) (l : location) :
  round_nearest_even m l = m ∨ round_nearest_even m l = m + 1.
Proof.
  destruct l as [|[]]; cbn [round_nearest_even]; auto.
  destruct (Z.even m); auto.
Qed.

Lemma fexp_nonpos (t : Z) : t ≤ 53 → fexp prec emax t ≤ 0.
Proof. unfold fexp, emin, prec, emax. lia. Qed.

(** Truncation of a quotient that is one more than a multiple. *)
Lemma div_succ_cases (m d : Z) :
  0 < d → (m + 1) / d = m / d ∨ (m + 1) / d = m / d + 1.
Proof.
  intros Hd.
  pose proof (Z.div_mod m d ltac:(lia)). pose proof (Z.mod_pos_bound m d Hd).
  destruct (Z.eq_dec (m mod d) (d - 1)) as [Heq|Hne].
  - right. symmetry. apply Z.div_unique with 0; lia.
  - left. symmetry. apply Z.div_unique with (m mod d + 1); lia.
Qed.


(** Rounding a nonnegative quotient [mz * 2 ^ ez], [ez <= 0], to
    binary64 and truncating the result gives the integer part of the
    quotient or one more, as long as that is below [2 ^ 53]. *)
Lemma round_then_truncate (mz ez : Z) (lz : location) :
  0 ≤ mz → ez ≤ 0 → mz / 2 ^ (- ez) + 2 ≤ 2 ^ 53 →
  ∃ n, int_of_spec_float (binary_round_aux prec emax false mz ez lz) = Ok n
       ∧ (n = mz / 2 ^ (- ez) ∨ n = mz / 2 ^ (- ez) + 1).
Proof.
  intros Hmz Hez Hbound. set (F := mz / 2 ^ (- ez)) in *.
  unfold binary_round_aux.
  destruct (shr_fexp_m mz ez lz Hmz) as [Hm1 He1].
  destruct (shr_fexp prec emax mz ez lz) as [mrs1 e1]. cbn [fst snd] in *.
  set (k := Z.max 0 (fexp prec emax (Zdigits2 mz + ez) - ez)) in *.
  assert (0 < 2 ^ (- ez)) as Hpow by (apply Z.pow_pos_nonneg; lia).
  assert (mz < 2 ^ (53 - ez)) as Hmz_lt.
  { replace (53 - ez) with (53 + - ez) by lia. rewrite Z.pow_add_r by lia.
    pose proof (Z.div_mod mz (2 ^ (- ez)) ltac:(lia)).
    pose proof (Z.mod_pos_bound mz (2 ^ (- ez)) Hpow). fold F in H. nia. }
  assert (e1 ≤ 0) as He1_le.
  { pose proof (Zdigits2_le mz (53 - ez) Hmz ltac:(lia) Hmz_lt).
    pose proof (fexp_nonpos (Zdigits2 mz + ez) ltac:(lia)). lia. }
  assert (0 ≤ k ≤ - ez) as Hk by lia.
  assert (shr_m mrs1 / 2 ^ (- e1) = F) as HF1.
  { rewrite Hm1, Z.div_div by (try apply Z.pow_pos_nonneg; lia).
    rewrite <- Z.pow_add_r by lia. unfold F. do 2 f_equal. lia. }
  assert (0 ≤ shr_m mrs1) as Hm1_nn
    by (rewrite Hm1; apply Z.div_pos; [done|apply Z.pow_pos_nonneg; lia]).
  set (m2 := round_nearest_even (shr_m mrs1) (loc_of_shr_record mrs1)).
  assert (0 < 2 ^ (- e1)) as Hpow1 by (apply Z.pow_pos_nonneg; lia).
  assert (0 ≤ m2 ∧ (m2 / 2 ^ (- e1) = F ∨ m2 / 2 ^ (- e1) = F + 1))
    as [Hm2_nn Hm2].
  { destruct (round_nearest_even_cases (shr_m mrs1) (loc_of_shr_record mrs1))
      as [Heq|Heq]; fold m2 in Heq; rewrite Heq.
    - split; [done|by left].
    - split; [lia|]. rewrite <- HF1. by apply div_succ_cases. }
  destruct (shr_fexp_m m2 e1 loc_Exact Hm2_nn) as [Hm3 He3].
  destruct (shr_fexp prec emax m2 e1 loc_Exact) as [mrs3 e3].
  cbn [fst snd] in *.
  set (k2 := Z.max 0 (fexp prec emax (Zdigits2 m2 + e1) - e1)) in *.
  assert (m2 < 2 ^ (53 - e1)) as Hm2_lt.
  { replace (53 - e1) with (53 + - e1) by lia. rewrite Z.pow_add_r by lia.
    pose proof (Z.div_mod m2 (2 ^ (- e1)) ltac:(lia)).
    pose proof (Z.mod_pos_bound m2 (2 ^ (- e1)) Hpow1). nia. }
  assert (e3 ≤ 0) as He3_le.
  { pose proof (Zdigits2_le m2 (53 - e1) Hm2_nn ltac:(lia) Hm2_lt).
    pose proof (fexp_nonpos (Zdigits2 m2 + e1) ltac:(lia)). lia. }
  assert (shr_m mrs3 / 2 ^ (- e3) = m2 / 2 ^ (- e1)) as HF3.
  { rewrite Hm3, Z.div_div by (try apply Z.pow_pos_nonneg; lia).
    rewrite <- Z.pow_add_r by lia. do 2 f_equal. lia. }
  assert (0 ≤ shr_m mrs3) as Hm3_nn
    by (rewrite Hm3; apply Z.div_pos; [done|apply Z.pow_pos_nonneg; lia]).
  exists (m2 / 2 ^ (- e1)). split; [|done]. rewrite <- HF3.
  destruct (shr_m mrs3) as [|m3|m3] eqn:Hshr; [| |lia].
  - cbn [int_of_spec_float]. by rewrite Z.div_0_l by lia.
  - destruct (Z.leb_spec e3 (emax - prec)) as [_|Hbig];
      [|unfold emax, prec in Hbig; lia].
    cbn [int_of_spec_float].
    destruct (Z.leb_spec 0 e3) as [He0|He0].
    + assert (e3 = 0) as -> by lia. by rewrite Z.shiftl_0_r, Z.div_1_r.
    + by rewrite Z.shiftr_div_pow2 by lia.
Qed.

Lemma int_of_float_spec (x : float) :
  Py.int_of_float x = int_of_spec_float (Prim2SF x).
Proof. reflexivity. Qed.

Section ExactCells.
Import QArith Qround Qpower.

Lemma two_power_pos (e : Z) : (0 < 2 ^ e)%Q.
Proof. by apply Qpower_0_lt. Qed.

(** A float of positive value is a finite one with a positive sign. *)
Lemma float_value_pos (x : float) :
  (0 < float_value x)%Q → ∃ m e, Prim2SF x = S754_finite false m e.
Proof.
  unfold float_value.
  destruct (Prim2SF x) as [s|s| |[] m e]; try (intros H; by apply Qlt_irrefl in H).
  - intros Hpos. exfalso.
    pose proof (Qmult_lt_compat_r (inject_Z (Z.neg m)) 0 (2 ^ e)
                  (two_power_pos e) ltac:(done)) as Hneg.
    rewrite Qmult_0_l in Hneg.
    apply (Qlt_irrefl 0). by eapply Qlt_trans.
  - by eexists _, _.
Qed.

(** The integer part of the quotient of two positive floats, over any
    common scaling of the two mantissas. *)
Lemma quotient_floor (ma mb : positive) (ea eb s j : Z) :
  (0 ≤ s)%Z → (0 ≤ j)%Z → (s - j = ea - eb)%Z →
  Qfloor ((inject_Z (Z.pos ma) * 2 ^ ea) / (inject_Z (Z.pos mb) * 2 ^ eb))
  = (Z.pos ma * 2 ^ s / (Z.pos mb * 2 ^ j))%Z.
Proof.
  intros Hs Hj Hsj. rewrite Zdiv_Qdiv. apply Qfloor_comp.
  rewrite !inject_Z_mult, !Zpower_Qpower by done.
  change (inject_Z 2) with 2%Q.
  assert (¬ 2 == 0)%Q as H2 by done.
  assert (ea = eb + (s - j))%Z as -> by lia.
  rewrite Qpower_plus, Qpower_minus by done.
  pose proof (Qpower_not_0 2 eb H2). pose proof (Qpower_not_0 2 j H2).
  pose proof (Qpower_not_0 2 s H2).
  assert (¬ inject_Z (Z.pos mb) == 0)%Q by done.
  field. auto.
Qed.
(** The integer quotient [SFdiv] starts from, for a quotient whose
    integer part is below [2 ^ 53]: its exponent is not positive and
    its integer part is that of the exact quotient. *)
Lemma div_core_floor (ma mb : positive) (ea eb : Z) :
  let F := Qfloor ((inject_Z (Z.pos ma) * 2 ^ ea)
                   / (inject_Z (Z.pos mb) * 2 ^ eb)) in
  (F + 2 ≤ 2 ^ 53)%Z →
  ∃ mz ez lz,
    SFdiv_core_binary prec emax (Z.pos ma) ea (Z.pos mb) eb = (mz, ez, lz)
    ∧ (0 ≤ mz)%Z ∧ (ez ≤ 0)%Z ∧ (mz / 2 ^ (- ez))%Z = F.
Proof.
  intros F Hbound. unfold SFdiv_core_binary. cbn [Zdigits2].
  set (d1 := Z.pos (digits2_pos ma)). set (d2 := Z.pos (digits2_pos mb)).
  destruct (digits2_pos_bounds ma) as [Ha _]. fold d1 in Ha.
  destruct (digits2_pos_bounds mb) as [_ Hb]. fold d2 in Hb.
  assert (d1 + ea - (d2 + eb) ≤ 53)%Z as HT.
  { destruct (Z.le_gt_cases (d1 + ea - (d2 + eb)) 53) as [|Hgt]; [done|].
    exfalso.
    set (s0 := Z.max 0 (ea - eb)). set (j0 := Z.max 0 (eb - ea)).
    assert (F = Z.pos ma * 2 ^ s0 / (Z.pos mb * 2 ^ j0))%Z as HF
      by (apply quotient_floor; lia).
    assert (0 < 2 ^ j0)%Z by (apply Z.pow_pos_nonneg; lia).
    assert (0 < 2 ^ s0)%Z by (apply Z.pow_pos_nonneg; lia).
    assert (2 ^ 53 * 2 ^ (d2 + j0) ≤ 2 ^ (d1 - 1 + s0))%Z as Hpow.
    { rewrite <- Z.pow_add_r by lia. apply Z.pow_le_mono_r; lia. }
    rewrite !Z.pow_add_r in Hpow by lia.
    assert (2 ^ 53 ≤ F)%Z; [|lia].
    rewrite HF. apply Z.div_le_lower_bound; [lia|].
    etrans; [|apply Z.mul_le_mono_nonneg_r; [lia|exact Ha]].
    etrans; [|exact Hpow]. nia. }
  set (ez := Z.min (fexp prec emax (d1 + ea - (d2 + eb))) (ea - eb)).
  assert (ez ≤ 0)%Z as Hez
    by (pose proof (fexp_nonpos _ HT); lia).
  set (s := (ea - eb - ez)%Z). assert (0 ≤ s)%Z as Hs by lia.
  set (m' := match s with
             | Z.pos _ => Z.shiftl (Z.pos ma) s
             | 0%Z => Z.pos ma
             | Z.neg _ => 0%Z
             end).
  assert (m' = Z.pos ma * 2 ^ s)%Z as Hm'.
  { unfold m'. destruct s as [|p|p] eqn:Hsp; [lia| |lia].
    by rewrite Z.shiftl_mul_pow2 by lia. }
  pose proof (Z.div_eucl_eq m' (Z.pos mb) ltac:(done)) as Heucl.
  assert (fst (Z.div_eucl m' (Z.pos mb)) = m' / Z.pos mb)%Z as Hq by done.
  destruct (Z.div_eucl m' (Z.pos mb)) as [q r]. cbn [fst] in Hq.
  eexists _, _, _. split; [reflexivity|].
  assert (0 < 2 ^ s)%Z by (apply Z.pow_pos_nonneg; lia).
  assert (0 < 2 ^ (- ez))%Z by (apply Z.pow_pos_nonneg; lia).
  split; [rewrite Hq; apply Z.div_pos; lia|]. split; [done|].
  rewrite Hq, Hm', Z.div_div by lia.
  symmetry. apply quotient_floor; lia.
Qed.

(** [int(a / b)] for two positive floats whose exact quotient has an
    integer part below [2 ^ 53]: the integer part of the exact
    quotient, or one more. *)
Lemma int_of_quotient (a b : float) (ma mb : positive) (ea eb : Z) :
  Prim2SF a = S754_finite false ma ea →
  Prim2SF b = S754_finite false mb eb →
  (Qfloor (float_value a / float_value b) + 2 ≤ 2 ^ 53)%Z →
  ∃ n, Py.int_of_float (a / b) = Ok n
       ∧ (n = Qfloor (float_value a / float_value b)
          ∨ n = (Qfloor (float_value a / float_value b) + 1)%Z).
Proof.
  intros Ha Hb. unfold float_value. rewrite Ha, Hb. cbn [cond_Zopp].
  intros Hbound.
  destruct (div_core_floor ma mb ea eb Hbound)
    as (mz & ez & lz & Hcore & Hmz & Hez & HF).
  rewrite int_of_float_spec, div_spec, Ha, Hb.
  unfold SF64div, SFdiv. rewrite Hcore. cbn [xorb].
  rewrite <- HF. apply round_then_truncate; [done|done|by rewrite HF].
Qed.

(** The cells of a revolution as the code computes them, against the
    integer part of the exact quotient. *)
Lemma revolution_cells_exact (clock : float) :
  (0 < float_value clock)%Q →
  (exact_cells clock + 2 ≤ 2 ^ 53)%Z →
  ∃ cells,
    revolution_cells clock = Ok cells
    ∧ (cells = exact_cells clock ∨ cells = (exact_cells clock + 1)%Z).
Proof.
  intros (m & e & Hclock)%float_value_pos Hbound.
  unfold revolution_cells, Py.truediv.
  rewrite FloatAxioms.eqb_spec, Hclock.
  change (SFeqb (S754_finite false m e) (Prim2SF 0)) with false.
  cbv beta iota delta [mbind result_bind].
  apply (int_of_quotient MacGCR.time_per_rev clock
           7205759403792794 m (-55) e); [reflexivity|done|done].
Qed.
End ExactCells.

Section NominalCells.
Import QArith Qround Lqa.

(** The binary64 constant of the rotation period exceeds 0.2 by less
    than one part in [2 ^ 54]: below [2 ^ 53] cells the integer part of
    the exact quotient is that of [0.2 / clock], or one more. *)
Lemma exact_cells_nominal (clock : float) :
  (0 < float_value clock)%Q →
  (exact_cells clock + 2 ≤ 2 ^ 53)%Z →
  (Qfloor ((2 # 10) / float_value clock) ≤ exact_cells clock
   ≤ Qfloor ((2 # 10) / float_value clock) + 1)%Z.
Proof.
  intros Hpos Hbound. unfold exact_cells in *.
  assert (float_value MacGCR.time_per_rev
          == (2 # 10) + (1 # 90071992547409920))%Q as Hrev
    by (vm_compute; reflexivity).
  set (v := float_value clock) in *.
  assert (0 < / v)%Q as Hinv by (by apply Qinv_lt_0_compat).
  set (q1 := (float_value MacGCR.time_per_rev / v)%Q) in *.
  set (q0 := ((2 # 10) / v)%Q).
  assert (q1 == ((2 # 10) + (1 # 90071992547409920)) * / v)%Q as Hq1
    by (unfold q1, Qdiv; by rewrite Hrev).
  assert (q0 == (2 # 10) * / v)%Q as Hq0 by reflexivity.
  pose proof (Qfloor_le q1) as Hlo1. pose proof (Qlt_floor q1) as Hhi1.
  pose proof (Qfloor_le q0) as Hlo0. pose proof (Qlt_floor q0) as Hhi0.
  assert (inject_Z (Qfloor q1 + 2) <= inject_Z (2 ^ 53))%Q as Hb
    by (by rewrite <- Zle_Qle).
  rewrite !inject_Z_plus in *.
  change (inject_Z (2 ^ 53)) with (9007199254740992 # 1)%Q in Hb.
  change (inject_Z 1) with (1 # 1)%Q in *.
  change (inject_Z 2) with (2 # 1)%Q in *.
  split.
  - apply Qfloor_resp_le. lra.
  - apply Z.lt_succ_r. rewrite Zlt_Qlt.
    unfold Z.succ. rewrite !inject_Z_plus.
    change (inject_Z 1) with (1 # 1)%Q. lra.
Qed.
End NominalCells.

Section BitLength.
Context `{Optimised}.
Import QArith Qround.

(** C9, as the code has it: the track [raw_track] returns is the
    content followed by [0x96] bytes, and when the content fits in the
    revolution its length in bits is [int(time_per_rev / clock)]
    rounded down to a multiple of 32, whatever the slots hold; two
    tables with the same clock whose contents fit give tracks of the
    same bit length.  The quotient is the binary64 one of the binary64
    constant nearest to 0.2 by the clock: for a positive clock and
    fewer than [2 ^ 53] cells, [int] of it is the integer part of the
    exact quotient of the two, or one more, and that integer part is
    the one of [0.2 / clock], or one more. *)
Theorem raw_track_bit_length (s : MacGCR.t) (trk : MacGCR.MasterTrack)
    (clock : float) :
  MacGCR.clock s = Some clock →
  (0 < float_value clock)%Q →
  (exact_cells clock + 2 ≤ 2 ^ 53)%Z →
  MacGCR.raw_track s = (Ok trk, s, []) →
  ∃ cells content,
    (float_value MacGCR.time_per_rev == (2 # 10) + (1 # 90071992547409920))%Q
    ∧ (Qfloor ((2 # 10) / float_value clock) ≤ exact_cells clock
       ≤ Qfloor ((2 # 10) / float_value clock) + 1)%Z
    ∧ revolution_cells clock = Ok cells
    ∧ (cells = exact_cells clock ∨ cells = (exact_cells clock + 1)%Z)
    ∧ track_content s = Ok content
    ∧ MacGCR.bits trk
      = content ++ Py.fill x96 (32 * (cells / 32) / 8
                                 - Z.of_nat (length content))
    ∧ ((8 * Z.of_nat (length content) ≤ 32 * (cells / 32))%Z →
       Z.of_nat (length (frombytes (MacGCR.bits trk)))
       = (32 * (cells / 32))%Z)
    ∧ (∀ s2 trk2 content2,
         MacGCR.clock s2 = MacGCR.clock s →
         MacGCR.raw_track s2 = (Ok trk2, s2, []) →
         track_content s2 = Ok content2 →
         (8 * Z.of_nat (length content) ≤ 32 * (cells / 32))%Z →
         (8 * Z.of_nat (length content2) ≤ 32 * (cells / 32))%Z →
         length (frombytes (MacGCR.bits trk2))
         = length (frombytes (MacGCR.bits trk))).
Proof.
  intros Hclock Hpos Hbound Hrun.
  destruct (raw_track_Ok_inv _ _ _ _ Hrun)
    as (clock' & cells & content & Hclock' & Hcells & Hcontent & Hbits & _).
  assert (clock' = clock) as -> by congruence.
  destruct (revolution_cells_exact clock Hpos Hbound)
    as (cells' & Hcells' & Hexact).
  assert (cells' = cells) as -> by congruence.
  exists cells, content.
  split; [vm_compute; reflexivity|].
  split; [by apply exact_cells_nominal|].
  split; [done|]. split; [done|]. split; [done|]. split; [done|].
  split.
  - intros Hfit. rewrite Hbits. by apply padded_length.
  - intros s2 trk2 content2 Hclock2 Hrun2 Hcontent2 Hfit Hfit2.
    destruct (raw_track_Ok_inv _ _ _ _ Hrun2)
      as (clock2 & cells2 & content' & Hc2 & Hcells2 & Hcontent' & Hbits2 & _).
    assert (clock2 = clock) as -> by congruence.
    assert (cells2 = cells) as -> by congruence.
    assert (content' = content2) as -> by congruence.
    apply Nat2Z.inj. rewrite Hbits, Hbits2.
    by rewrite !padded_length.
Qed.
End BitLength.

(** * The codec on concrete tracks *)

Import Toy.

(** ** The stand-in codec meets the contracts of the real one *)

Lemma toy_gcr_length (bs : bytes) : length (decode_mac_gcr bs) = length bs.
Proof. apply length_fmap. Qed.

Lemma toy_gcr_inverse (bs : bytes) : decode_mac_gcr (encode_mac_gcr bs) = bs.
Proof.
  simpl. unfold gcr. rewrite <- list_fmap_compose.
  rewrite <- (list_fmap_id bs) at 2. apply list_fmap_ext.
  intros _ b _. by destruct b.
Qed.

Lemma lxor_byte (a b : Z) :
  0 ≤ a < 256 → 0 ≤ b < 256 → 0 ≤ Z.lxor a b < 256.
Proof.
  intros Ha Hb.
  assert (0 ≤ Z.lxor a b) as Hnn by (apply Z.lxor_nonneg; lia).
  split; [done|].
  destruct (Z.eq_dec (Z.lxor a b) 0) as [->|Hne]; [lia|].
  change 256 with (2 ^ 8). apply Z.log2_lt_pow2; [lia|].
  eapply Z.le_lt_trans; [apply Z.log2_lxor; lia|].
  apply Z.max_lub_lt.
  - destruct (Z.eq_dec a 0) as [->|?]; [done|]. apply Z.log2_lt_pow2; lia.
  - destruct (Z.eq_dec b 0) as [->|?]; [done|]. apply Z.log2_lt_pow2; lia.
Qed.

Lemma xor_fold_range (bs : bytes) (acc : Z) :
  0 ≤ acc < 256 →
  0 ≤ fold_left (λ sum x, Z.lxor sum (Py.byte_val x)) bs acc < 256.
Proof.
  revert acc. induction bs as [|b bs IH]; intros acc Hacc; [done|].
  simpl. apply IH, lxor_byte; [done | apply byte_val_range].
Qed.

Lemma xor_sum_range (bs : bytes) : 0 ≤ Py.xor_sum bs < 256.
Proof. apply xor_fold_range. lia. Qed.

Lemma byte_of_int_total (z : Z) :
  0 ≤ z < 256 → ∃ b, Py.byte_of_int z = Ok b.
Proof.
  intros Hz. unfold Py.byte_of_int.
  destruct (Z.leb_spec 0 z); [|lia]. destruct (Z.ltb_spec z 256); [|lia].
  simpl. destruct (Byte.of_N (Z.to_N z)) as [b|] eqn:Hb; [by exists b|].
  apply Byte.of_N_None_iff in Hb. lia.
Qed.

Lemma toy_sector_encode (data : bytes) :
  length data = 524%nat →
  ∃ c, Py.byte_val c = Py.xor_sum data
       ∧ encode_mac_sector data = data ++ [c] ++ replicate 178 x00.
Proof.
  intros Hlen. simpl. unfold sector_encode.
  rewrite take_app_length' by done.
  destruct (byte_of_int_total _ (xor_sum_range data)) as [c Hc].
  rewrite Hc. exists c. split; [by apply byte_of_int_Ok | done].
Qed.

Lemma toy_sector_length (data : bytes) :
  length data = 524%nat → length (encode_mac_sector data) = 703%nat.
Proof.
  intros Hlen. destruct (toy_sector_encode data Hlen) as (c & _ & ->).
  rewrite !length_app, Hlen. done.
Qed.

Lemma toy_sector_inverse (data : bytes) :
  length data = 524%nat →
  decode_mac_sector (encode_mac_sector data) = (data, 0).
Proof.
  intros Hlen. destruct (toy_sector_encode data Hlen) as (c & Hc & ->).
  simpl. unfold sector_decode. f_equal.
  - by rewrite take_app_length'.
  - replace 525%nat with (length data + 1)%nat by lia.
    rewrite take_app_add. cbn [take].
    rewrite xor_sum_app. simpl. rewrite Hc. apply Z.lxor_nilpotent.
Qed.

(** ** Runs of the encoder, the decoder and the verifier *)

Section BitLengthExamples.
Import QArith Qround.

(** The track of a two-sector table at a clock of 2 microseconds:
    100000 cells, of which the two sectors take 13728. *)
Lemma raw_track_bit_length_witness :
  ∃ s trk clock,
    Toy.table 2 1 [x01; x02] = Ok s
    ∧ MacGCR.clock s = Some clock
    ∧ (0 < float_value clock)%Q
    ∧ (exact_cells clock + 2 ≤ 2 ^ 53)%Z
    ∧ MacGCR.raw_track s = (Ok trk, s, [])
    ∧ ∃ cells content,
        ((float_value MacGCR.time_per_rev
          == (2 # 10) + (1 # 90071992547409920))%Q
         ∧ (Qfloor ((2 # 10) / float_value clock) ≤ exact_cells clock
            ≤ Qfloor ((2 # 10) / float_value clock) + 1)%Z
         ∧ revolution_cells clock = Ok cells
         ∧ (cells = exact_cells clock ∨ cells = (exact_cells clock + 1)%Z)
         ∧ track_content s = Ok content
         ∧ MacGCR.bits trk
           = content ++ Py.fill x96 (32 * (cells / 32) / 8
                                      - Z.of_nat (length content))
         ∧ ((8 * Z.of_nat (length content) ≤ 32 * (cells / 32))%Z →
            Z.of_nat (length (frombytes (MacGCR.bits trk)))
            = (32 * (cells / 32))%Z)
         ∧ (∀ s2 trk2 content2,
              MacGCR.clock s2 = MacGCR.clock s →
              MacGCR.raw_track s2 = (Ok trk2, s2, []) →
              track_content s2 = Ok content2 →
              (8 * Z.of_nat (length content) ≤ 32 * (cells / 32))%Z →
              (8 * Z.of_nat (length content2) ≤ 32 * (cells / 32))%Z →
              length (frombytes (MacGCR.bits trk2))
              = length (frombytes (MacGCR.bits trk))))
        ∧ Qfloor ((2 # 10) / float_value clock) = 100000%Z
        ∧ exact_cells clock = 100000%Z
        ∧ cells = 100000%Z
        ∧ (8 * Z.of_nat (length content))%Z = 13728%Z
        ∧ (8 * Z.of_nat (length content) ≤ 32 * (cells / 32))%Z
        ∧ Z.of_nat (length (frombytes (MacGCR.bits trk))) = 100000%Z.
Proof.
  do 3 eexists. split; [vm_compute; reflexivity|].
  match goal with
  | |- ?P1 ∧ ?P2 ∧ ?P3 ∧ ?P4 ∧ _ =>
      assert P1 as H1 by reflexivity;
      assert P2 as H2 by (vm_compute; reflexivity);
      assert P3 as H3 by (vm_compute; discriminate);
      assert P4 as H4 by (vm_compute; reflexivity)
  end.
  repeat (split; [assumption|]).
  destruct (raw_track_bit_length _ _ _ H1 H2 H3 H4)
    as (cells & content & Hthm).
  exists cells, content. split; [exact Hthm|].
  destruct Hthm as (_ & _ & Hcells & _ & Hcontent & _ & Hfit & _).
  match type of Hcells with
  | revolution_cells ?c = _ =>
      assert (revolution_cells c = Ok 100000%Z) as Hc
        by (vm_compute; reflexivity)
  end.
  assert (cells = 100000%Z) as -> by congruence.
  match type of Hcontent with
  | track_content ?t = _ =>
      assert (∃ c, track_content t = Ok c
                   ∧ (8 * Z.of_nat (length c))%Z = 13728%Z)
        as (c & Hc' & Hlen)
        by (eexists; split; vm_compute; reflexivity)
  end.
  assert (c = content) as -> by congruence.
  split; [vm_compute; reflexivity|].
  split; [vm_compute; reflexivity|]. split; [reflexivity|].
  split; [exact Hlen|].
  assert (8 * Z.of_nat (length content) ≤ 32 * (100000 / 32))%Z as Hfits
    by (rewrite Hlen; vm_compute; discriminate).
  split; [exact Hfits|]. exact (Hfit Hfits).
Defined.

(** At a clock of 2.5000000000000004 microseconds the exact quotient
    is below 80000, the binary64 quotient is 80000.0, and the track has
    80000 cells, not 79968. *)
Lemma raw_track_exceeds_exact_floor :
  ∃ c t s trk content clock,
    Toy.format 1 0x1.4000000000001p+1 1 = Ok c
    ∧ mk_track c 0 0 = Ok t
    ∧ MacGCR.set_img_track [x01] t = (Ok 512%Z, s, [])
    ∧ MacGCR.clock s = Some clock
    ∧ MacGCR.raw_track s = (Ok trk, s, [])
    ∧ track_content s = Ok content
    ∧ exact_cells clock = 79999%Z
    ∧ Qfloor ((2 # 10) / float_value clock) = 79999%Z
    ∧ (8 * Z.of_nat (length content) ≤ 32 * (79999 / 32))%Z
    ∧ Z.of_nat (length (frombytes (MacGCR.bits trk))) = 80000%Z
    ∧ (32 * (79999 / 32))%Z = 79968%Z
    ∧ Z.of_nat (length (frombytes (MacGCR.bits trk)))
      ≠ (32 * (exact_cells clock / 32))%Z.
Proof.
  do 6 eexists. split; [vm_compute; reflexivity|].
  split; [vm_compute; reflexivity|].
  split; [vm_compute; reflexivity|].
  split; [reflexivity|].
  split; [vm_compute; reflexivity|].
  split; [vm_compute; reflexivity|].
  split; [vm_compute; reflexivity|].
  split; [vm_compute; reflexivity|].
  split; [vm_compute; discriminate|].
  split; [vm_compute; reflexivity|]. split; [reflexivity|].
  vm_compute. discriminate.
Qed.
End BitLengthExamples.

(** A one-sector table and the readback of its own track: decoding the
    readback gives back the table, and [verify_track] answers [False]. *)
Lemma verify_track_ignores_readback_witness :
  ∃ s trk fresh,
    Toy.table 1 1 [x01] = Ok s
    ∧ MacGCR.raw_track s = (Ok trk, s, [])
    ∧ mk_track (MacGCR.config s) 0 0 = Ok fresh
    ∧ MacGCR.decode_raw (frombytes (MacGCR.bits trk)) fresh = (Ok (), s, [])
    ∧ MacGCRTrackFormat.secs (MacGCR.config s) = Some 1
    ∧ 0 < 1
    ∧ MacGCR.verify_track (frombytes (MacGCR.bits trk)) s = (Ok false, s, []).
Proof.
  do 3 eexists. split; [vm_compute; reflexivity|].
  split; [vm_compute; reflexivity|].
  split; [vm_compute; reflexivity|].
  split; [vm_compute; reflexivity|].
  split; [reflexivity|]. split; [reflexivity|].
  apply (verify_track_ignores_readback _ _ 1); reflexivity.
Defined.

(** The one-sector track with a bit of the header inverted, and with a
    bit of the data inverted. *)
Lemma bad_checksums_store_nothing_witness :
  ∃ fresh,
    (c ← Toy.format 1 2 1; mk_track c 0 0) = Ok fresh
    ∧ (∀ bs, length (decode_mac_gcr bs) = length bs)
    ∧ Py.xor_sum (decode_mac_gcr (header_bytes (corrupt 1790 track1) 1760)) ≠ 0
    ∧ (∃ c, MacGCR.decode_sync (corrupt 1790 track1) 1760 fresh
            = (Ok c, fresh, []))
    ∧ search (data_window (corrupt 2000 track1) 1760) data_sync = [80]
    ∧ (decode_mac_sector
         (decode_mac_gcr (data_bytes (corrupt 2000 track1) 1760 80))).2 ≠ 0
    ∧ (∃ c out, MacGCR.decode_sync (corrupt 2000 track1) 1760 fresh
                = (Ok c, fresh, out)).
Proof.
  eexists. split; [vm_compute; reflexivity|].
  split; [exact toy_gcr_length|].
  match goal with
  | |- ?P ∧ _ => assert P as Hxor by (vm_compute; discriminate)
  end.
  split; [exact Hxor|].
  match goal with
  | |- _ ∧ ?P ∧ ?Q ∧ _ =>
      assert P as Hsearch by (vm_compute; reflexivity);
      assert Q as Hcsum by (vm_compute; discriminate)
  end.
  split.
  { match goal with
    | |- ∃ c, MacGCR.decode_sync ?bits _ ?s = _ =>
        exact (proj1 (proj1 (bad_checksums_store_nothing (H:=Toy.optimised)
                 bits 1760 [] s toy_gcr_length) Hxor))
    end. }
  split; [exact Hsearch|]. split; [exact Hcsum|].
  match goal with
  | |- ∃ c out, MacGCR.decode_sync ?bits _ ?s = _ =>
      destruct (proj2 (bad_checksums_store_nothing (H:=Toy.optimised)
                  bits 1760 [] s toy_gcr_length) 80 Hsearch Hcsum)
        as (c & out & Hrun & _)
  end.
  exists c, out. exact Hrun.
Defined.

(** A table whose slot 0 already holds a buffer, decoding a track that
    carries another sector 0. *)
Lemma decode_keeps_populated_slots_witness :
  ∃ fresh s,
    (c ← Toy.format 2 2 1; mk_track c 0 0) = Ok fresh
    ∧ MacGCR.add 0 (replicate 524 x07) fresh = (Ok (), s, [])
    ∧ MacGCR.sector s !! 0%nat = Some (Some (replicate 524 x07))
    ∧ MacGCR.decode_raw (Toy.track 2 1 [x01]) s = (Raise AssertionError, s, [])
    ∧ MacGCR.sector (MacGCR.decode_raw (Toy.track 2 1 [x01]) s).1.2 !! 0%nat
      = Some (Some (replicate 524 x07))
    ∧ ∀ data, MacGCR.add (Z.of_nat 0) data s = (Raise AssertionError, s, []).
Proof.
  do 2 eexists. split; [vm_compute; reflexivity|].
  split; [vm_compute; reflexivity|].
  match goal with
  | |- ?P ∧ _ => assert P as Hslot by reflexivity
  end.
  split; [exact Hslot|]. split; [vm_compute; reflexivity|].
  exact (decode_keeps_populated_slots (Toy.track 2 1 [x01]) _ 0%nat _ Hslot).
Defined.

(** A two-sector table decoding the track of a three-sector table: the
    second sector on the track has id 2. *)
Lemma out_of_range_sector_id_raises_witness :
  ∃ fresh s,
    (c ← Toy.format 2 2 1; mk_track c 0 0) = Ok fresh
    ∧ MacGCR.decode_sync track3 1760 fresh = (Ok MacGCR.Next, s, [])
    ∧ table_shape s
    ∧ missing s ≠ 0
    ∧ Z.of_nat (length (header_bytes track3 7872)) = 5
    ∧ Py.xor_sum (decode_mac_gcr (header_bytes track3 7872)) = 0
    ∧ Py.byte_val <$> take 4 (decode_mac_gcr (header_bytes track3 7872))
      = [0; 2; 0; 0x22]
    ∧ search (data_window track3 7872) data_sync = [80]
    ∧ Z.of_nat (length (data_bytes track3 7872 80)) = 703
    ∧ decode_mac_sector (decode_mac_gcr (data_bytes track3 7872 80))
      = (replicate 524 x00, 0)
    ∧ MacGCR.nsec s ≤ 2
    ∧ MacGCR.decode_sync track3 7872 s
      = (Raise IndexError, s,
         ["T0.0: Ignoring unexpected sector C:0 H:0 R:2 F:0x22"])
    ∧ MacGCR.decode_raw track3 fresh
      = (Raise IndexError, s,
         ["T0.0: Ignoring unexpected sector C:0 H:0 R:2 F:0x22"]).
Proof.
  do 2 eexists. split; [vm_compute; reflexivity|].
  split; [vm_compute; reflexivity|].
  match goal with
  | |- ?P1 ∧ ?P2 ∧ ?P3 ∧ ?P4 ∧ ?P5 ∧ ?P6 ∧ ?P7 ∧ ?P8 ∧ ?P9 ∧ _ =>
      assert P1 as H1 by reflexivity;
      assert P2 as H2 by (vm_compute; discriminate);
      assert P3 as H3 by (vm_compute; reflexivity);
      assert P4 as H4 by (vm_compute; reflexivity);
      assert P5 as H5 by (vm_compute; reflexivity);
      assert P6 as H6 by (vm_compute; reflexivity);
      assert P7 as H7 by (vm_compute; reflexivity);
      assert P8 as H8 by (vm_compute; reflexivity);
      assert P9 as H9 by (vm_compute; discriminate)
  end.
  repeat (split; [assumption|]).
  split; [|vm_compute; reflexivity].
  exact (out_of_range_sector_id_raises track3 7872 _ 0 2 0 0x22 80 _
           H1 H2 H3 H4 H5 H6 H7 H8 H9).
Defined.


(** C1, as stated, fails: the stand-in codec and its decoder are
    inverse to each other, yet a sector whose encoded data
    holds a second data-sync pattern inside the search window is
    dropped by the decoder, and the decoded table stays empty. *)
Lemma roundtrip_fails_on_embedded_sync :
  (∀ bs, decode_mac_gcr (encode_mac_gcr bs) = bs)
  ∧ (∀ bs, encode_mac_gcr (decode_mac_gcr bs) = bs)
  ∧ (∀ data, length data = 524%nat →
             decode_mac_sector (encode_mac_sector data) = (data, 0))
  ∧ ∃ s fresh trk,
      Toy.table 1 1 [x01; x02; x2a; x55; x52] = Ok s
      ∧ MacGCRTrackFormat.finalised (MacGCR.config s) = true
      ∧ populated (MacGCR.sector s)
      ∧ mk_track (MacGCR.config s) (MacGCR.cyl s) (MacGCR.head s) = Ok fresh
      ∧ MacGCR.raw_track s = (Ok trk, s, [])
      ∧ MacGCR.decode_raw (frombytes (MacGCR.bits trk)) fresh
        = (Ok (), fresh, [])
      ∧ MacGCR.sector fresh = [None]
      ∧ MacGCR.sector fresh ≠ MacGCR.sector s.
Proof.
  split; [exact toy_gcr_inverse|]. split; [exact toy_gcr_inverse|].
  split; [exact toy_sector_inverse|].
  do 3 eexists. split; [vm_compute; reflexivity|].
  split; [reflexivity|].
  split; [repeat constructor; eexists; split; reflexivity|].
  split; [vm_compute; reflexivity|].
  split; [vm_compute; reflexivity|].
  split; [vm_compute; reflexivity|].
  split; [reflexivity|]. discriminate.
Qed.

(** A three-sector table with interleave 2 and its track. *)
Lemma encode_decode_roundtrip_witness :
  ∃ s fresh trk,
    Toy.table 3 2 (replicate 512 x11 ++ replicate 512 x22 ++ [x33; x44]) = Ok s
    ∧ (∀ bs, length (encode_mac_gcr bs) = length bs)
    ∧ (∀ bs, decode_mac_gcr (encode_mac_gcr bs) = bs)
    ∧ (∀ data, length data = 524%nat →
               length (encode_mac_sector data) = 703%nat)
    ∧ (∀ data, length data = 524%nat →
               decode_mac_sector (encode_mac_sector data) = (data, 0))
    ∧ mk_track (MacGCR.config s) (MacGCR.cyl s) (MacGCR.head s) = Ok fresh
    ∧ s = MacGCR.with_sector fresh (MacGCR.sector s)
    ∧ length (MacGCR.sector s) = length (MacGCR.sector fresh)
    ∧ populated (MacGCR.sector s)
    ∧ MacGCR.raw_track s = (Ok trk, s, [])
    ∧ get_all_data MacGCR.time_per_rev (MacGCR.clock fresh)
        (frombytes (MacGCR.bits trk)) = frombytes (MacGCR.bits trk)
    ∧ itersearch (frombytes (MacGCR.bits trk)) sector_sync
      = sector_sync_offset <$> Py.range (MacGCR.nsec s)
    ∧ (∀ k, 0 ≤ k < MacGCR.nsec s →
            search (data_window (frombytes (MacGCR.bits trk))
                      (sector_sync_offset k)) data_sync = [80])
    ∧ ∃ out, MacGCR.decode_raw (frombytes (MacGCR.bits trk)) fresh
             = (Ok (), s, out).
Proof.
  do 3 eexists. split; [vm_compute; reflexivity|].
  split; [exact toy_gcr_length|]. split; [exact toy_gcr_inverse|].
  split; [exact toy_sector_length|]. split; [exact toy_sector_inverse|].
  match goal with
  | |- ?P1 ∧ ?P2 ∧ ?P3 ∧ ?P4 ∧ ?P5 ∧ ?P6 ∧ ?P7 ∧ ?P8 ∧ _ =>
      assert P1 as H1 by (vm_compute; reflexivity);
      assert P2 as H2 by reflexivity;
      assert P3 as H3 by reflexivity;
      assert P4 as H4 by (repeat constructor; eexists; split; reflexivity);
      assert P5 as H5 by (vm_compute; reflexivity);
      assert P6 as H6 by reflexivity;
      assert P7 as H7 by (vm_compute; reflexivity);
      assert P8 as H8
        by (intros k Hk;
            assert (k = 0 ∨ k = 1 ∨ k = 2) as [->|[->| ->]]
              by (change (0 ≤ k < 3) in Hk; lia);
            vm_compute; reflexivity)
  end.
  repeat (split; [assumption|]).
  exact (encode_decode_roundtrip _ _ _ _
           toy_gcr_length toy_gcr_inverse toy_sector_length toy_sector_inverse
           H1 H2 H3 H4 H5 H6 H7 H8).
Defined.
(** * The addresses the encoder accepts *)

Lemma lor_byte (a b : Z) :
  0 ≤ a < 256 → 0 ≤ b < 256 → 0 ≤ Z.lor a b < 256.
Proof.
  intros Ha Hb.
  assert (0 ≤ Z.lor a b) as Hnn by (apply Z.lor_nonneg; lia).
  split; [done|].
  destruct (Z.eq_dec (Z.lor a b) 0) as [->|Hne]; [lia|].
  change 256 with (2 ^ 8). apply Z.log2_lt_pow2; [lia|].
  rewrite Z.log2_lor by lia. apply Z.max_lub_lt.
  - destruct (Z.eq_dec a 0) as [->|?]; [done|]. apply Z.log2_lt_pow2; lia.
  - destruct (Z.eq_dec b 0) as [->|?]; [done|]. apply Z.log2_lt_pow2; lia.
Qed.

(** The side byte of the header fits a byte exactly for heads 0 to 7
    and cylinders 0 to 16383. *)
Lemma side_byte_range (cyl head : Z) :
  0 ≤ Z.lor (Z.shiftl head 5) (Z.shiftr cyl 6) < 256
  ↔ 0 ≤ head < 8 ∧ 0 ≤ cyl < 16384.
Proof.
  split.
  - intros [Hnn Hlt].
    apply Z.lor_nonneg in Hnn as [Hhead%Z.shiftl_nonneg Hcyl%Z.shiftr_nonneg].
    destruct (lor_lt_pow2_inv (Z.shiftl head 5) (Z.shiftr cyl 6) 8)
      as [Hh Hc];
      [by apply Z.shiftl_nonneg | by apply Z.shiftr_nonneg | lia | done |].
    change (2 ^ 8) with 256 in Hh, Hc.
    rewrite Z.shiftl_mul_pow2 in Hh by lia.
    rewrite Z.shiftr_div_pow2 in Hc by lia.
    change (2 ^ 5) with 32 in Hh. change (2 ^ 6) with 64 in Hc.
    pose proof (Z.div_mod cyl 64 ltac:(lia)).
    pose proof (Z.mod_pos_bound cyl 64 ltac:(lia)). lia.
  - intros [Hhead Hcyl]. apply lor_byte.
    + rewrite Z.shiftl_mul_pow2 by lia. change (2 ^ 5) with 32. lia.
    + rewrite Z.shiftr_div_pow2 by lia. change (2 ^ 6) with 64.
      split; [apply Z.div_pos; lia|apply Z.div_lt_upper_bound; lia].
Qed.

Lemma byte_of_int_ValueError (z : Z) :
  ¬ 0 ≤ z < 256 → Py.byte_of_int z = Raise ValueError.
Proof.
  intros Hz. unfold Py.byte_of_int.
  destruct (Z.leb_spec 0 z); [|done]. destruct (Z.ltb_spec z 256); [lia|done].
Qed.

Section Addresses.
Context `{Optimised}.

Lemma sector_record_outcome (s : MacGCR.t) (sec_id : Z) :
  0 ≤ sec_id < Z.of_nat (length (MacGCR.sector s)) →
  if decide (sec_id < 256 ∧ 0 ≤ MacGCR.head s < 8 ∧ 0 ≤ MacGCR.cyl s < 16384)
  then ∃ r, sector_record s sec_id = Ok r
  else sector_record s sec_id = Raise ValueError.
Proof.
  intros Hid. unfold sector_record.
  destruct (lookup_lt_is_Some_2 (MacGCR.sector s) (Z.to_nat sec_id))
    as [sector Hsector]; [lia|].
  rewrite (index_Ok _ _ _ (proj1 Hid) Hsector), result_bind_ret. cbv zeta.
  assert (0 ≤ Z.land (MacGCR.cyl s) 0x3f < 256) as Hc.
  { change 0x3f with (Z.ones 6). rewrite Z.land_ones by lia.
    pose proof (Z.mod_pos_bound (MacGCR.cyl s) (2 ^ 6) ltac:(lia)).
    change (2 ^ 6) with 64 in *. lia. }
  destruct (byte_of_int_total _ Hc) as [bc Hbc].
  pose proof (side_byte_range (MacGCR.cyl s) (MacGCR.head s)) as Hside.
  cbn [Py.bytes_of_ints]. rewrite Hbc, result_bind_ret.
  destruct (decide _) as [(Hlt & Haddr)|Hno].
  - destruct (byte_of_int_total sec_id ltac:(lia)) as [bi Hbi].
    destruct (byte_of_int_total _ (proj2 Hside Haddr)) as [bs Hbs].
    destruct (byte_of_int_total 0x22 ltac:(lia)) as [bf Hbf].
    rewrite Hbi, result_bind_ret, Hbs, result_bind_ret, Hbf.
    rewrite !result_bind_ret.
    destruct (byte_of_int_total _ (xor_sum_range [bc; bi; bs; bf]))
      as [bx Hbx].
    rewrite Hbx, !result_bind_ret. by eexists.
  - destruct (decide (sec_id < 256)) as [Hlt|Hge].
    + destruct (byte_of_int_total sec_id ltac:(lia)) as [bi Hbi].
      rewrite Hbi, result_bind_ret.
      rewrite (byte_of_int_ValueError (Z.lor _ _)); [done|].
      intros Hin. apply Hside in Hin. by apply Hno.
    + by rewrite (byte_of_int_ValueError sec_id) by lia.
Qed.

Lemma for_fold_encode_Ok (ids : list Z) (t : bytes) (s : MacGCR.t) :
  (∀ id, id ∈ ids → ∃ r, sector_record s id = Ok r) →
  ∃ t', MacGCR.for_fold ids t MacGCR.encode_sector s = (Ok t', s, []).
Proof.
  revert t. induction ids as [|id ids IH]; intros t Hall;
    cbn [MacGCR.for_fold]; [by eexists|].
  destruct (Hall id ltac:(apply list_elem_of_here)) as [r Hr].
  erewrite run_bind_silent by by rewrite encode_sector_run, Hr.
  apply IH. intros id' Hid'. apply Hall. by apply list_elem_of_further.
Qed.

Lemma for_fold_encode_Raise (ids : list Z) (t : bytes) (s : MacGCR.t)
    (e : exn) :
  (∀ id, id ∈ ids →
     (∃ r, sector_record s id = Ok r) ∨ sector_record s id = Raise e) →
  (∃ id, id ∈ ids ∧ sector_record s id = Raise e) →
  MacGCR.for_fold ids t MacGCR.encode_sector s = (Raise e, s, []).
Proof.
  revert t. induction ids as [|id ids IH]; intros t Hall (bad & Hbad & Hraise).
  { by apply elem_of_nil in Hbad. }
  cbn [MacGCR.for_fold].
  destruct (Hall id ltac:(apply list_elem_of_here)) as [[r Hr]|Hr].
  - erewrite run_bind_silent by by rewrite encode_sector_run, Hr.
    apply IH.
    + intros id' Hid'. apply Hall. by apply list_elem_of_further.
    + apply elem_of_cons in Hbad as [->|Hbad]; [congruence|by exists bad].
  - erewrite run_bind_Raise; [done|]. by rewrite encode_sector_run, Hr.
Qed.

(** X21: on a table with at least one sector, [raw_track] builds a
    track exactly for heads 0 to 7, cylinders 0 to 16383 and at most
    256 sectors (given a clock for which the cells of a revolution can
    be computed); for any other address or a larger table it raises
    [ValueError], because a header field does not fit a byte. *)
Theorem raw_track_address_limits (s : MacGCR.t) :
  table_shape s →
  MacGCR.sec_map s ≡ₚ Py.range (MacGCR.nsec s) →
  0 < MacGCR.nsec s →
  (MacGCR.nsec s ≤ 256 ∧ 0 ≤ MacGCR.head s < 8 ∧ 0 ≤ MacGCR.cyl s < 16384 →
     ∀ clock cells,
       MacGCR.clock s = Some clock → revolution_cells clock = Ok cells →
       ∃ trk, MacGCR.raw_track s = (Ok trk, s, []))
  ∧ (¬ (MacGCR.nsec s ≤ 256 ∧ 0 ≤ MacGCR.head s < 8
        ∧ 0 ≤ MacGCR.cyl s < 16384) →
     MacGCR.raw_track s = (Raise ValueError, s, [])).
Proof.
  intros Hshape Hperm Hpos. unfold table_shape in Hshape.
  assert (∀ id, id ∈ MacGCR.sec_map s →
            0 ≤ id < Z.of_nat (length (MacGCR.sector s))) as Hids.
  { intros id Hid. rewrite Hperm in Hid. apply elem_of_range in Hid. lia. }
  split.
  - intros (Hn & Haddr) clock cells Hclock Hcells.
    destruct (for_fold_encode_Ok (MacGCR.sec_map s) post_index_gap s)
      as [t Ht].
    { intros id Hid. pose proof (sector_record_outcome s id (Hids id Hid)) as Hr.
      rewrite decide_True in Hr; [done|].
      split; [|done]. rewrite Hperm in Hid. apply elem_of_range in Hid. lia. }
    rewrite raw_track_run. unfold track_content. rewrite Ht.
    rewrite result_bind_ret, Hclock, result_bind_ret, Hcells, result_bind_ret.
    by eexists.
  - intros Hno. rewrite raw_track_run. unfold track_content.
    rewrite (for_fold_encode_Raise _ _ _ ValueError); [done| |].
    + intros id Hid. pose proof (sector_record_outcome s id (Hids id Hid)) as Hr.
      destruct (decide _); [by left|by right].
    + exists (MacGCR.nsec s - 1).
      assert (MacGCR.nsec s - 1 ∈ MacGCR.sec_map s) as Hlast
        by (rewrite Hperm; apply elem_of_range; lia).
      split; [done|].
      pose proof (sector_record_outcome s _ (Hids _ Hlast)) as Hr.
      rewrite decide_False in Hr; [done|].
      intros (Hlt & Haddr). apply Hno. split; [lia|done].
Qed.
End Addresses.

(** * The further properties on concrete tables *)

(** Twelve sectors with a stride of 5. *)
Lemma coprime_stride_positions_witness :
  ∃ t,
    mk_track (MacGCRTrackFormat.mk (Some 12) None 5 false) 3 1 = Ok t
    ∧ MacGCR.sec_map t = [0; 5; 10; 3; 8; 1; 6; 11; 4; 9; 2; 7]
    ∧ length (MacGCR.sec_map t) = Z.to_nat 12
    ∧ ∀ i, 0 ≤ i < 12 →
        MacGCR.sec_map t !! Z.to_nat ((i * 5) mod 12) = Some i.
Proof.
  eexists. split; [vm_compute; reflexivity|]. split; [reflexivity|].
  apply (coprime_stride_positions 3 1
           (MacGCRTrackFormat.mk (Some 12) None 5 false) 12);
    [reflexivity | lia | reflexivity | vm_compute; reflexivity].
Defined.

Lemma default_interleave_is_identity_witness :
  ∃ t,
    mk_track (MacGCRTrackFormat.__init__ "mac.800") 0 0 = Raise TypeError
    ∧ mk_track (MacGCRTrackFormat.mk (Some 12) None 1 false) 0 0 = Ok t
    ∧ MacGCR.sec_map t = Py.range 12.
Proof.
  eexists. split; [reflexivity|]. split; [vm_compute; reflexivity|].
  apply (default_interleave_is_identity 0 0
           (MacGCRTrackFormat.mk (Some 12) None 1 false) 12);
    [reflexivity | reflexivity | vm_compute; reflexivity].
Defined.

(** A stride of zero: every sector after the first is placed by the
    [while] loop. *)
Lemma construction_for_any_stride_witness :
  ∃ t,
    mk_track (MacGCRTrackFormat.mk (Some 4) None 0 false) 0 0 = Ok t
    ∧ MacGCR.sector t = replicate (Z.to_nat 4) None
    ∧ MacGCR.sec_map t ≡ₚ Py.range 4
    ∧ (0 < 4 → MacGCR.sec_map t !! 0%nat = Some 0).
Proof.
  exact (construction_for_any_stride 0 0
           (MacGCRTrackFormat.mk (Some 4) None 0 false) 4 eq_refl).
Defined.

Lemma fresh_table_is_empty_witness :
  ∃ t,
    mk_track (MacGCRTrackFormat.mk (Some 12) None 2 false) 0 0 = Ok t
    ∧ MacGCR.nr_missing t = (Ok 12, t, [])
    ∧ MacGCR.summary_string t
      = (Ok ("Macintosh GCR (0/" +:+ pretty 12 +:+ " sectors)"), t, [])
    ∧ ∀ sec_id, 0 ≤ sec_id < 12 →
        MacGCR.has_sec sec_id t = (Ok false, t, []).
Proof.
  apply (fresh_table_is_empty 0 0
           (MacGCRTrackFormat.mk (Some 12) None 2 false) 12);
    [reflexivity | lia].
Defined.

Lemma add_fills_one_slot_witness :
  0 ≤ 1
  ∧ MacGCR.sector two_empty !! Z.to_nat 1 = Some None
  ∧ ∃ s',
      MacGCR.add 1 [x01] two_empty = (Ok (), s', [])
      ∧ MacGCR.sector s' !! Z.to_nat 1 = Some (Some [x01])
      ∧ (∀ i, i ≠ Z.to_nat 1 →
           MacGCR.sector s' !! i = MacGCR.sector two_empty !! i)
      ∧ MacGCR.has_sec 1 s' = (Ok true, s', [])
      ∧ MacGCR.nr_missing s' = (Ok (missing two_empty - 1), s', [])
      ∧ ∀ data', MacGCR.add 1 data' s' = (Raise AssertionError, s', []).
Proof.
  split; [lia|]. split; [reflexivity|].
  apply (add_fills_one_slot two_empty 1 [x01]); [lia|reflexivity].
Defined.

Lemma export_marks_missing_sectors_witness :
  whole_sectors (MacGCR.sector second_only)
  ∧ ∃ tdat,
      MacGCR.get_img_track second_only = (Ok tdat, second_only, [])
      ∧ length tdat = (512 * length (MacGCR.sector second_only))%nat
      ∧ ∀ (k : nat) (sec : option bytes),
          MacGCR.sector second_only !! k = Some sec →
          take 512 (drop (512 * k) tdat)
          = match sec with Some data => drop 12 data | None => bad_sector end.
Proof.
  assert (whole_sectors (MacGCR.sector second_only)) as Hwhole.
  { repeat constructor; intros data [= <-]; reflexivity. }
  split; [exact Hwhole|].
  exact (export_marks_missing_sectors second_only Hwhole).
Defined.

Lemma import_cuts_long_image_witness :
  table_shape two_empty
  ∧ MacGCR.nsec two_empty * 512 ≤ Z.of_nat (length (replicate 1030 x07))
  ∧ ∃ s',
      MacGCR.set_img_track (replicate 1030 x07) two_empty
      = (Ok (MacGCR.nsec two_empty * 512), s', [])
      ∧ MacGCR.get_img_track s'
        = (Ok (take (Z.to_nat (MacGCR.nsec two_empty * 512))
                 (replicate 1030 x07)), s', []).
Proof.
  assert (table_shape two_empty) as Hshape by reflexivity.
  assert (MacGCR.nsec two_empty * 512
          ≤ Z.of_nat (length (replicate 1030 x07))) as Hlen
    by (vm_compute; discriminate).
  split; [exact Hshape|]. split; [exact Hlen|].
  exact (import_cuts_long_image two_empty (replicate 1030 x07) Hshape Hlen).
Defined.

Lemma import_fills_every_slot_witness :
  table_shape second_only
  ∧ ∃ s',
      MacGCR.set_img_track [x01; x02] second_only
      = (Ok (MacGCR.nsec second_only * 512), s', [])
      ∧ length (MacGCR.sector s') = length (MacGCR.sector second_only)
      ∧ populated (MacGCR.sector s')
      ∧ (∀ k data, MacGCR.sector s' !! k = Some (Some data) →
           take 12 data = Py.zeros 12)
      ∧ ∀ s2, table_shape s2 → MacGCR.nsec s2 = MacGCR.nsec second_only →
          MacGCR.sector (MacGCR.set_img_track [x01; x02] s2).1.2
          = MacGCR.sector s'.
Proof.
  assert (table_shape second_only) as Hshape by reflexivity.
  split; [exact Hshape|].
  exact (import_fills_every_slot second_only [x01; x02] Hshape).
Defined.

Lemma add_param_order_independent_witness :
  ∃ c1 c2 c',
    MacGCRTrackFormat.add_param (MacGCRTrackFormat.__init__ "mac.800")
      "secs" (Py.Int 12) = Ok c1
    ∧ MacGCRTrackFormat.add_param (MacGCRTrackFormat.__init__ "mac.800")
        "clock" (Py.Float 2) = Ok c2
    ∧ MacGCRTrackFormat.add_param c1 "clock" (Py.Float 2) = Ok c'
    ∧ MacGCRTrackFormat.add_param c2 "secs" (Py.Int 12) = Ok c'
    ∧ MacGCRTrackFormat.finalised c' = false.
Proof.
  do 2 eexists.
  match goal with
  | |- ∃ c', ?P1 ∧ ?P2 ∧ _ =>
      assert P1 as H1 by reflexivity;
      assert P2 as H2 by reflexivity
  end.
  destruct (add_param_order_independent _ _ _ "secs" "clock" _ _
              ltac:(discriminate) H1 H2) as (c' & H3 & H4 & H5).
  exists c'. repeat (split; [assumption|]). exact H5.
Defined.

Lemma finalise_idempotent_witness :
  ∃ c c',
    Toy.format 12 2 2 = Ok c
    ∧ MacGCRTrackFormat.finalise c = Ok c'
    ∧ MacGCRTrackFormat.finalise c' = Ok c'
    ∧ MacGCRTrackFormat.finalised c' = true
    ∧ MacGCRTrackFormat.secs c' = MacGCRTrackFormat.secs c
    ∧ MacGCRTrackFormat.clock c' = MacGCRTrackFormat.clock c
    ∧ MacGCRTrackFormat.interleave c' = MacGCRTrackFormat.interleave c.
Proof.
  do 2 eexists. split; [reflexivity|].
  match goal with
  | |- ?P1 ∧ _ => assert P1 as H1 by reflexivity
  end.
  split; [exact H1|]. exact (finalise_idempotent _ _ H1).
Defined.

Lemma finalised_has_secs_and_clock_witness :
  ∃ c,
    Toy.format 12 2 2 = Ok c
    ∧ configured c
    ∧ MacGCRTrackFormat.finalised c = true
    ∧ ∃ nsec clock t,
        MacGCRTrackFormat.secs c = Some nsec
        ∧ MacGCRTrackFormat.clock c = Some clock
        ∧ mk_track c 3 1 = Ok t
        ∧ MacGCR.nsec t = nsec
        ∧ MacGCR.clock t = Some clock.
Proof.
  eexists. split; [reflexivity|].
  match goal with
  | |- configured ?c ∧ _ =>
      assert (configured c) as Hconf;
      [ apply (configured_finalise
                 (MacGCRTrackFormat.mk (Some 12)
                    (Some (2 * MacGCRTrackFormat.micro)%float) 2 false));
        [ apply (configured_add_param
                   (MacGCRTrackFormat.mk (Some 12)
                      (Some (2 * MacGCRTrackFormat.micro)%float) 1 false)
                   _ "interleave" (Py.Int 2));
          [ apply (configured_add_param
                     (MacGCRTrackFormat.mk (Some 12) None 1 false)
                     _ "clock" (Py.Float 2));
            [ apply (configured_add_param (MacGCRTrackFormat.__init__ "")
                       _ "secs" (Py.Int 12));
              [ apply configured_init | reflexivity ]
            | reflexivity ]
          | reflexivity ]
        | reflexivity ]
      | ]
  end.
  split; [exact Hconf|]. split; [reflexivity|].
  exact (finalised_has_secs_and_clock _ 3 1 Hconf eq_refl).
Defined.

(** A complete one-sector table, offered its own track again. *)
Lemma decode_raw_nothing_to_do_witness :
  ∃ s,
    Toy.table 1 1 [x01] = Ok s
    ∧ MacGCR.nr_missing s = (Ok 0, s, [])
    ∧ MacGCR.decode_raw track1 s = (Ok (), s, []).
Proof.
  eexists. split; [vm_compute; reflexivity|].
  match goal with
  | |- ?P1 ∧ _ => assert P1 as H1 by (vm_compute; reflexivity)
  end.
  split; [exact H1|].
  exact (decode_raw_nothing_to_do track1 _ (or_introl H1)).
Defined.

(** The track of a one-sector table cut 40 bits after the start of
    its sector sync mark, and cut in the middle of the sector data. *)
Lemma truncated_sector_is_skipped_witness :
  ∃ fresh,
    (c ← Toy.format 1 2 1; mk_track c 0 0) = Ok fresh
    ∧ search (take 1800 track1) sector_sync = [1760]
    ∧ (∃ c, MacGCR.decode_sync (take 1800 track1) 1760 fresh
            = (Ok c, fresh, []))
    ∧ search (data_window (take 4000 track1) 1760) data_sync = [80]
    ∧ ∃ c out, MacGCR.decode_sync (take 4000 track1) 1760 fresh
               = (Ok c, fresh, out).
Proof.
  eexists. split; [vm_compute; reflexivity|].
  split; [vm_compute; reflexivity|].
  split.
  - apply (proj1 (truncated_sector_is_skipped (take 1800 track1) 1760 _
                    toy_gcr_length ltac:(lia))).
    vm_compute. discriminate.
  - assert (search (data_window (take 4000 track1) 1760) data_sync = [80])
      as Hwin by (vm_compute; reflexivity).
    split; [exact Hwin|].
    apply (proj2 (truncated_sector_is_skipped (take 4000 track1) 1760 _
                    toy_gcr_length ltac:(lia)) 80 Hwin).
    vm_compute. discriminate.
Defined.

(** The first sector of a three-sector track, met a second time
    while the other two are still missing. *)
Lemma duplicate_sector_aborts_witness :
  ∃ fresh s,
    (c ← Toy.format 3 2 2; mk_track c 0 0) = Ok fresh
    ∧ MacGCR.decode_sync track3 1760 fresh = (Ok MacGCR.Next, s, [])
    ∧ missing s ≠ 0
    ∧ Z.of_nat (length (header_bytes track3 1760)) = 5
    ∧ Py.xor_sum (decode_mac_gcr (header_bytes track3 1760)) = 0
    ∧ Py.byte_val <$> take 4 (decode_mac_gcr (header_bytes track3 1760))
      = [0; 0; 0; 0x22]
    ∧ search (data_window track3 1760) data_sync = [80]
    ∧ Z.of_nat (length (data_bytes track3 1760 80)) = 703
    ∧ decode_mac_sector (decode_mac_gcr (data_bytes track3 1760 80))
      = (replicate 12 x00 ++ [x01] ++ replicate 511 x00, 0)
    ∧ MacGCR.sector s !! Z.to_nat 0
      = Some (Some (replicate 12 x00 ++ [x01] ++ replicate 511 x00))
    ∧ ∃ out,
        MacGCR.decode_sync track3 1760 s = (Raise AssertionError, s, out)
        ∧ MacGCR.for_each [1760; 7872] (MacGCR.decode_sync track3) s
          = (Raise AssertionError, s, out).
Proof.
  do 2 eexists. split; [vm_compute; reflexivity|].
  split; [vm_compute; reflexivity|].
  match goal with
  | |- ?P1 ∧ ?P2 ∧ ?P3 ∧ ?P4 ∧ ?P5 ∧ ?P6 ∧ ?P7 ∧ ?P8 ∧ _ =>
      assert P1 as H1 by (vm_compute; discriminate);
      assert P2 as H2 by (vm_compute; reflexivity);
      assert P3 as H3 by (vm_compute; reflexivity);
      assert P4 as H4 by (vm_compute; reflexivity);
      assert P5 as H5 by (vm_compute; reflexivity);
      assert P6 as H6 by (vm_compute; reflexivity);
      assert P7 as H7 by (vm_compute; reflexivity);
      assert P8 as H8 by (vm_compute; reflexivity)
  end.
  repeat (split; [assumption|]).
  exact (duplicate_sector_aborts track3 1760 [7872] _ 0 0 0 0x22 80 _ _
           H1 H2 H3 H4 H5 H6 H7 H8).
Defined.

(** A two-sector table decoding the track of a three-sector table. *)
Lemma decode_raw_exceptions_witness :
  ∃ fresh s out,
    (c ← Toy.format 2 2 1; mk_track c 0 0) = Ok fresh
    ∧ MacGCR.decode_raw track3 fresh = (Raise IndexError, s, out)
    ∧ (IndexError = AssertionError ∨ IndexError = IndexError
       ∨ IndexError = ValueError)
    ∧ ((∀ bs, length (decode_mac_gcr bs) = length bs) →
       IndexError ≠ ValueError).
Proof.
  do 3 eexists. split; [vm_compute; reflexivity|].
  match goal with
  | |- ?P1 ∧ _ => assert P1 as H1 by (vm_compute; reflexivity)
  end.
  split; [exact H1|].
  exact (decode_raw_exceptions track3 _ _ _ _ H1).
Defined.

Lemma own_header_reads_back_witness :
  ∃ s t',
    whole = Ok s
    ∧ (∀ bs, length (encode_mac_gcr bs) = length bs)
    ∧ MacGCR.encode_sector 2 [] s = (Ok t', s, [])
    ∧ ∃ hdr c sd,
        take 5 (drop (length (@nil byte) + 39) t') = encode_mac_gcr hdr
        ∧ length hdr = 5%nat
        ∧ Py.xor_sum hdr = 0
        ∧ Py.byte_val <$> take 4 hdr = [c; 2; sd; 0x22]
        ∧ header_cyl c sd = MacGCR.cyl s mod 128
        ∧ (MacGCR.cyl s < 2048 → header_side sd = MacGCR.head s)
        ∧ (2 < MacGCR.nsec s →
           (unexpected s (header_cyl c sd) (header_side sd) 2 0x22 = false
            ↔ MacGCR.cyl s < 128)).
Proof.
  do 2 eexists. split; [vm_compute; reflexivity|].
  split; [exact toy_gcr_length|].
  match goal with
  | |- ?P1 ∧ _ => assert P1 as H1 by (vm_compute; reflexivity)
  end.
  split; [exact H1|].
  exact (own_header_reads_back toy_gcr_length _ 2 [] _ H1).
Defined.

Lemma raw_track_byte_length_witness :
  ∃ s trk,
    gapped = Ok s
    ∧ (∀ bs, length (encode_mac_gcr bs) = length bs)
    ∧ (∀ data, length data = 524%nat →
               length (encode_mac_sector data) = 703%nat)
    ∧ whole_sectors (MacGCR.sector s)
    ∧ MacGCR.raw_track s = (Ok trk, s, [])
    ∧ ∃ clock cells,
        MacGCR.clock s = Some clock
        ∧ revolution_cells clock = Ok cells
        ∧ Z.of_nat (length (MacGCR.bits trk))
          = Z.max (188 + 764 * Z.of_nat (length (MacGCR.sec_map s)))
                  (32 * (cells / 32) / 8).
Proof.
  do 2 eexists. split; [vm_compute; reflexivity|].
  split; [exact toy_gcr_length|]. split; [exact toy_sector_length|].
  match goal with
  | |- ?P1 ∧ ?P2 ∧ _ =>
      assert P1 as H1
        by (repeat constructor; intros data [= <-]; reflexivity);
      assert P2 as H2 by (vm_compute; reflexivity)
  end.
  split; [exact H1|]. split; [exact H2|].
  exact (raw_track_byte_length toy_gcr_length toy_sector_length _ _ H1 H2).
Defined.

Lemma raw_track_address_limits_witness :
  ∃ s,
    gapped = Ok s
    ∧ table_shape s
    ∧ MacGCR.sec_map s ≡ₚ Py.range (MacGCR.nsec s)
    ∧ 0 < MacGCR.nsec s
    ∧ (∃ trk, MacGCR.raw_track s = (Ok trk, s, []))
    ∧ ∀ head, ¬ 0 ≤ head < 8 →
        let s8 := MacGCR.mk (MacGCR.cyl s) head (MacGCR.config s)
                    (MacGCR.nsec s) (MacGCR.clock s) (MacGCR.sector s)
                    (MacGCR.sec_map s) in
        MacGCR.raw_track s8 = (Raise ValueError, s8, []).
Proof.
  eexists. split; [vm_compute; reflexivity|].
  match goal with
  | |- ?P1 ∧ ?P2 ∧ ?P3 ∧ _ =>
      assert P1 as H1 by reflexivity;
      assert P2 as H2
        by (change ([0; 2; 1] ≡ₚ [0; 1; 2]); constructor; apply perm_swap);
      assert P3 as H3 by reflexivity
  end.
  split; [exact H1|]. split; [exact H2|]. split; [exact H3|]. split.
  - eapply (proj1 (raw_track_address_limits _ H1 H2 H3));
      [cbn; lia | reflexivity | vm_compute; reflexivity].
  - intros head Hhead s8.
    apply (proj2 (raw_track_address_limits s8 H1 H2 H3)).
    cbn. lia.
Defined.
(** The track of the table with its second sector missing, read into
    a new table for cylinder 40, side 1. *)
Lemma missing_sectors_read_back_filled_witness :
  ∃ s fresh trk,
    gapped = Ok s
    ∧ MacGCR.nr_missing s = (Ok 1, s, [])
    ∧ (∀ bs, length (encode_mac_gcr bs) = length bs)
    ∧ (∀ bs, decode_mac_gcr (encode_mac_gcr bs) = bs)
    ∧ (∀ data, length data = 524%nat →
               length (encode_mac_sector data) = 703%nat)
    ∧ (∀ data, length data = 524%nat →
               decode_mac_sector (encode_mac_sector data) = (data, 0))
    ∧ mk_track (MacGCR.config s) (MacGCR.cyl s) (MacGCR.head s) = Ok fresh
    ∧ s = MacGCR.with_sector fresh (MacGCR.sector s)
    ∧ length (MacGCR.sector s) = length (MacGCR.sector fresh)
    ∧ whole_sectors (MacGCR.sector s)
    ∧ MacGCR.raw_track s = (Ok trk, s, [])
    ∧ get_all_data MacGCR.time_per_rev (MacGCR.clock fresh)
        (frombytes (MacGCR.bits trk)) = frombytes (MacGCR.bits trk)
    ∧ itersearch (frombytes (MacGCR.bits trk)) sector_sync
      = sector_sync_offset <$> Py.range (MacGCR.nsec s)
    ∧ (∀ k, 0 ≤ k < MacGCR.nsec s →
            search (data_window (frombytes (MacGCR.bits trk))
                      (sector_sync_offset k)) data_sync = [80])
    ∧ ∃ s' out,
        MacGCR.decode_raw (frombytes (MacGCR.bits trk)) fresh
        = (Ok (), s', out)
        ∧ MacGCR.nr_missing s' = (Ok 0, s', [])
        ∧ (∀ (k : nat) (data : bytes),
             MacGCR.sector s !! k = Some (Some data) →
             MacGCR.sector s' !! k = Some (Some data))
        ∧ (∀ k : nat,
             MacGCR.sector s !! k = Some None →
             MacGCR.sector s' !! k = Some (Some (Py.zeros 12 ++ bad_sector))).
Proof.
  do 3 eexists. split; [vm_compute; reflexivity|].
  split; [vm_compute; reflexivity|].
  split; [exact toy_gcr_length|]. split; [exact toy_gcr_inverse|].
  split; [exact toy_sector_length|]. split; [exact toy_sector_inverse|].
  match goal with
  | |- ?P1 ∧ ?P2 ∧ ?P3 ∧ ?P4 ∧ ?P5 ∧ ?P6 ∧ ?P7 ∧ ?P8 ∧ _ =>
      assert P1 as H1 by (vm_compute; reflexivity);
      assert P2 as H2 by reflexivity;
      assert P3 as H3 by reflexivity;
      assert P4 as H4
        by (repeat constructor; intros data [= <-]; reflexivity);
      assert P5 as H5 by (vm_compute; reflexivity);
      assert P6 as H6 by reflexivity;
      assert P7 as H7 by (vm_compute; reflexivity);
      assert P8 as H8
        by (intros k Hk;
            assert (k = 0 ∨ k = 1 ∨ k = 2) as [->|[->| ->]]
              by (change (0 ≤ k < 3) in Hk; lia);
            vm_compute; reflexivity)
  end.
  repeat (split; [assumption|]).
  exact (missing_sectors_read_back_filled
           toy_gcr_length toy_gcr_inverse toy_sector_length toy_sector_inverse
           _ _ _ _ H1 H2 H3 H4 H5 H6 H7 H8).
Defined.

(** The track of the complete table, read into a new table for
    cylinder 40, side 1. *)
Lemma own_track_decodes_silently_witness :
  ∃ s fresh trk,
    whole = Ok s
    ∧ (∀ bs, length (encode_mac_gcr bs) = length bs)
    ∧ (∀ bs, decode_mac_gcr (encode_mac_gcr bs) = bs)
    ∧ (∀ data, length data = 524%nat →
               length (encode_mac_sector data) = 703%nat)
    ∧ (∀ data, length data = 524%nat →
               decode_mac_sector (encode_mac_sector data) = (data, 0))
    ∧ MacGCR.cyl s < 128
    ∧ mk_track (MacGCR.config s) (MacGCR.cyl s) (MacGCR.head s) = Ok fresh
    ∧ s = MacGCR.with_sector fresh (MacGCR.sector s)
    ∧ length (MacGCR.sector s) = length (MacGCR.sector fresh)
    ∧ populated (MacGCR.sector s)
    ∧ MacGCR.raw_track s = (Ok trk, s, [])
    ∧ get_all_data MacGCR.time_per_rev (MacGCR.clock fresh)
        (frombytes (MacGCR.bits trk)) = frombytes (MacGCR.bits trk)
    ∧ itersearch (frombytes (MacGCR.bits trk)) sector_sync
      = sector_sync_offset <$> Py.range (MacGCR.nsec s)
    ∧ (∀ k, 0 ≤ k < MacGCR.nsec s →
            search (data_window (frombytes (MacGCR.bits trk))
                      (sector_sync_offset k)) data_sync = [80])
    ∧ MacGCR.decode_raw (frombytes (MacGCR.bits trk)) fresh = (Ok (), s, []).
Proof.
  do 3 eexists. split; [vm_compute; reflexivity|].
  split; [exact toy_gcr_length|]. split; [exact toy_gcr_inverse|].
  split; [exact toy_sector_length|]. split; [exact toy_sector_inverse|].
  match goal with
  | |- ?P0 ∧ ?P1 ∧ ?P2 ∧ ?P3 ∧ ?P4 ∧ ?P5 ∧ ?P6 ∧ ?P7 ∧ ?P8 ∧ _ =>
      assert P0 as H0 by reflexivity;
      assert P1 as H1 by (vm_compute; reflexivity);
      assert P2 as H2 by reflexivity;
      assert P3 as H3 by reflexivity;
      assert P4 as H4 by (repeat constructor; eexists; split; reflexivity);
      assert P5 as H5 by (vm_compute; reflexivity);
      assert P6 as H6 by reflexivity;
      assert P7 as H7 by (vm_compute; reflexivity);
      assert P8 as H8
        by (intros k Hk;
            assert (k = 0 ∨ k = 1 ∨ k = 2) as [->|[->| ->]]
              by (change (0 ≤ k < 3) in Hk; lia);
            vm_compute; reflexivity)
  end.
  repeat (split; [assumption|]).
  exact (own_track_decodes_silently
           toy_gcr_length toy_gcr_inverse toy_sector_length toy_sector_inverse
           _ _ _ _ H0 H1 H2 H3 H4 H5 H6 H7 H8).
Defined.

(** The track of cylinder 40, side 1, read into a table for cylinder
    0, side 0: every sector is reported and stored. *)
Lemma unexpected_sector_is_stored_witness :
  ∃ fresh s',
    (c ← Toy.format 3 2 2; mk_track c 0 0) = Ok fresh
    ∧ Z.of_nat (length (header_bytes whole_track 1760)) = 5
    ∧ Py.xor_sum (decode_mac_gcr (header_bytes whole_track 1760)) = 0
    ∧ Py.byte_val <$> take 4 (decode_mac_gcr (header_bytes whole_track 1760))
      = [40; 0; 32; 0x22]
    ∧ search (data_window whole_track 1760) data_sync = [80]
    ∧ Z.of_nat (length (data_bytes whole_track 1760 80)) = 703
    ∧ decode_mac_sector (decode_mac_gcr (data_bytes whole_track 1760 80))
      = (replicate 12 x00 ++ [x01] ++ replicate 511 x00, 0)
    ∧ MacGCR.sector fresh !! Z.to_nat 0 = Some None
    ∧ unexpected fresh (header_cyl 40 32) (header_side 32) 0 0x22 = true
    ∧ MacGCR.decode_sync whole_track 1760 fresh
      = (Ok MacGCR.Next,
         MacGCR.with_sector fresh
           (<[Z.to_nat 0 := Some (replicate 12 x00 ++ [x01] ++ replicate 511 x00)]>
              (MacGCR.sector fresh)),
         ["T0.0: Ignoring unexpected sector C:40 H:1 R:0 F:0x22"])
    ∧ MacGCR.decode_raw whole_track fresh
      = (Ok (), s',
         ["T0.0: Ignoring unexpected sector C:40 H:1 R:0 F:0x22";
          "T0.0: Ignoring unexpected sector C:40 H:1 R:2 F:0x22";
          "T0.0: Ignoring unexpected sector C:40 H:1 R:1 F:0x22"])
    ∧ MacGCR.nr_missing s' = (Ok 0, s', []).
Proof.
  do 2 eexists. split; [vm_compute; reflexivity|].
  match goal with
  | |- ?P1 ∧ ?P2 ∧ ?P3 ∧ ?P4 ∧ ?P5 ∧ ?P6 ∧ ?P7 ∧ ?P8 ∧ _ =>
      assert P1 as H1 by (vm_compute; reflexivity);
      assert P2 as H2 by (vm_compute; reflexivity);
      assert P3 as H3 by (vm_compute; reflexivity);
      assert P4 as H4 by (vm_compute; reflexivity);
      assert P5 as H5 by (vm_compute; reflexivity);
      assert P6 as H6 by (vm_compute; reflexivity);
      assert P7 as H7 by reflexivity;
      assert P8 as H8 by reflexivity
  end.
  repeat (split; [assumption|]).
  split; [|split; vm_compute; reflexivity].
  exact (unexpected_sector_is_stored whole_track 1760 _ 40 0 32 0x22 80 _
           H1 H2 H3 H4 H5 H6 H7 H8).
Defined.

(** A one-byte image on the three sectors of cylinder 40, side 1. *)
Lemma image_survives_the_track_witness :
  ∃ c fresh s trk,
    Toy.format 3 2 2 = Ok c
    ∧ (∀ bs, length (encode_mac_gcr bs) = length bs)
    ∧ (∀ bs, decode_mac_gcr (encode_mac_gcr bs) = bs)
    ∧ (∀ data, length data = 524%nat →
               length (encode_mac_sector data) = 703%nat)
    ∧ (∀ data, length data = 524%nat →
               decode_mac_sector (encode_mac_sector data) = (data, 0))
    ∧ mk_track c 40 1 = Ok fresh
    ∧ MacGCR.set_img_track [x01] fresh = (Ok 1536, s, [])
    ∧ MacGCR.raw_track s = (Ok trk, s, [])
    ∧ get_all_data MacGCR.time_per_rev (MacGCR.clock fresh)
        (frombytes (MacGCR.bits trk)) = frombytes (MacGCR.bits trk)
    ∧ itersearch (frombytes (MacGCR.bits trk)) sector_sync
      = sector_sync_offset <$> Py.range (MacGCR.nsec s)
    ∧ (∀ k, 0 ≤ k < MacGCR.nsec s →
            search (data_window (frombytes (MacGCR.bits trk))
                      (sector_sync_offset k)) data_sync = [80])
    ∧ ∃ s' out,
        MacGCR.decode_raw (frombytes (MacGCR.bits trk)) fresh
        = (Ok (), s', out)
        ∧ MacGCR.get_img_track s'
          = (Ok (take (Z.to_nat (MacGCR.nsec fresh * 512))
                   (img_padded (MacGCR.nsec fresh) [x01])), s', []).
Proof.
  do 4 eexists. split; [vm_compute; reflexivity|].
  split; [exact toy_gcr_length|]. split; [exact toy_gcr_inverse|].
  split; [exact toy_sector_length|]. split; [exact toy_sector_inverse|].
  match goal with
  | |- ?P1 ∧ ?P2 ∧ ?P3 ∧ ?P4 ∧ ?P5 ∧ ?P6 ∧ _ =>
      assert P1 as H1 by (vm_compute; reflexivity);
      assert P2 as H2 by (vm_compute; reflexivity);
      assert P3 as H3 by (vm_compute; reflexivity);
      assert P4 as H4 by reflexivity;
      assert P5 as H5 by (vm_compute; reflexivity);
      assert P6 as H6
        by (intros k Hk;
            assert (k = 0 ∨ k = 1 ∨ k = 2) as [->|[->| ->]]
              by (change (0 ≤ k < 3) in Hk; lia);
            vm_compute; reflexivity)
  end.
  repeat (split; [assumption|]).
  exact (image_survives_the_track
           toy_gcr_length toy_gcr_inverse toy_sector_length toy_sector_inverse
           _ 40 1 _ _ [x01] 1536 _ _ H1 H2 H3 H4 H5 H6).
Defined.

